(** * btrfs-smr-balance: the adaptive balance loop

    A shallow embedding of [btrfs-smr-balance.py].  The script balances a
    btrfs filesystem on DM-SMR drives one chunk at a time: it scans the
    devices, stops when the standard deviation of their unallocated space
    is below a limit, balances one chunk of the least empty device, and
    sleeps for a Fibonacci number of seconds whose index grows after a slow
    iteration and shrinks after a fast one.

    Conventions of the embedding.
    - Python integers are [Z]; wall-clock readings and durations (Python
      floats) are exact rationals [Q].
    - A finite Python float is the rational it holds exactly (a binary64
      value); NaN and the negative zero do not arise, and the one infinity
      of the script, the initial [float('inf')] of the scan, is a value of
      [ext].  [statistics.stdev] is the one of Python 3.11: the variance
      as an exact fraction, then its square root correctly rounded to
      binary64 ([sqrt_binary64]), with [OverflowError] when that is
      [2^1024] or more.
    - The outside world (the two [btrfs] commands and the clock) is an
      explicit input: one [response] per iteration of the loop.  The text
      of the [btrfs fi show] output is taken as already split into device
      records; an output without any device line is the empty list.
      Each line of any other output is taken to be a device record: what
      lines 63-67 raise on a line that is none ([ValueError],
      [IndexError]) is not part of the embedding.
    - Only the two commands and [time.sleep] take time, and [time.sleep]
      takes exactly the time asked for.
    - The check that [FILESYSTEM] is a mounted btrfs (lines 103-114) runs
      before the loop; it is embedded apart ([check_partitions]).
    - The log records of the trace hold the values logged, not their
      text; [sizeof_fmt], which formats the sizes, is embedded apart.  It
      raises [OverflowError] on an integer of [2^1024] or more; the traces
      are those of sizes below that.
    - Exceptions are values of [exn]; [sys.exit] raises [SystemExit].
    - [lru_cache] on [fib] caches the results of a pure function and is
      invisible in the values computed; it is not modelled. *)

From Stdlib Require Import Reals Qreals Lra.
From Stdlib Require Import String ZArith QArith Lia List Bool.
From Stdlib Require Import Qround Qabs Qpower DecimalString Permutation.
From Stdlib Require Lqa.
From Equations Require Import Equations.
Import ListNotations.

Local Open Scope Z_scope.

(** ** Configuration (lines 23-26) *)

Record config : Type := Config {
  FILESYSTEM : string;
  CHUNK_TIMEOUT : Z;
  MAX_SLEEP : Z;
  STDEV_LIMIT : Z
}.

Definition GiB : Z := 1024 * 1024 * 1024.

Definition shipped_config : config :=
  {| FILESYSTEM := "/media/btrfs";
     CHUNK_TIMEOUT := 60;
     MAX_SLEEP := 7200;
     STDEV_LIMIT := 5 * 1024 * 1024 * 1024 |}.

(** ** [fib] (lines 43-47) *)

Equations? fib (n : Z) : Z by wf (Z.to_nat n) lt :=
  fib n with Z_lt_dec n 2 => {
    | left _ := 1;
    | right _ := fib (n - 2) + fib (n - 1) }.
Proof. all: lia. Qed.

(** ** Exceptions, results and the process exit status *)

Inductive exn : Type :=
| SystemExit (code : option Z)
| StatisticsError
| IndexError
| OverflowError.

Inductive result (A : Type) : Type :=
| Ok (a : A)
| Raise (e : exn).
Arguments Ok {A} a.
Arguments Raise {A} e.

(** What the interpreter reports when the exception reaches the top level:
    [sys.exit()] gives 0, [sys.exit(n)] gives [n] modulo 256, any other
    exception prints a traceback and gives 1. *)
Definition exit_status (e : exn) : Z :=
  match e with
  | SystemExit None => 0
  | SystemExit (Some c) => c mod 256
  | StatisticsError => 1
  | IndexError => 1
  | OverflowError => 1
  end.

(** ** Rationals as the script compares them *)

Definition Qltb (x y : Q) : bool := negb (Qle_bool y x).

(** ** Binary64

    What the embedding needs of floating point: rounding to the nearest
    value with a significand of 53 bits, ties to even, for the square root
    of a fraction and for the conversion of an integer. *)

(** The nearest integer, ties to even. *)
Definition round_half_even (q : Q) : Z :=
  let fl := Qfloor q in
  match (q - inject_Z fl ?= 1 # 2)%Q with
  | Lt => fl
  | Gt => fl + 1
  | Eq => if Z.even fl then fl else fl + 1
  end.

(** The floor of the base-2 logarithm of a positive rational. *)
Definition Qlog2 (q : Q) : Z :=
  let k := Z.log2 (Qnum q) - Z.log2 (Zpos (Qden q)) in
  if Qltb q (2 ^ k) then k - 1 else k.

(** The exponent [e] of the spacing [2^e] of binary64 at the square root
    of [v]: the one for which [2^52 <= sqrt v / 2^e < 2^53], and -1074 at
    least (the subnormal range). *)
Definition sqrt_exponent (v : Q) : Z := Z.max ((Qlog2 v - 104) / 2) (-1074).

(** The integer nearest to [sqrt v / 2^e], ties to even: the integer part
    [m0] of the square root, or the next integer when [v / 4^e] is beyond
    [(m0 + 1/2)^2]. *)
Definition sqrt_significand (v : Q) (e : Z) : Z :=
  let y := (v / 2 ^ (2 * e))%Q in
  let m0 := Z.sqrt (Qfloor y) in
  match (y ?= (inject_Z m0 + (1 # 2)) * (inject_Z m0 + (1 # 2)))%Q with
  | Lt => m0
  | Gt => m0 + 1
  | Eq => if Z.even m0 then m0 else m0 + 1
  end.

(** The square root of a fraction, correctly rounded to binary64 (the
    exponent is not bounded above here). *)
Definition sqrt_binary64 (v : Q) : Q :=
  if Qle_bool v 0 then 0%Q
  else
    let r := Qred v in
    let e := sqrt_exponent r in
    (inject_Z (sqrt_significand r e) * 2 ^ e)%Q.

(** An integer rounded to binary64 (the exponent is not bounded above
    here): itself below [2^53], else the nearest multiple of the spacing. *)
Definition binary64_of_Z (z : Z) : Z :=
  let a := Z.abs z in
  if a <? 2 ^ 53 then z
  else
    let k := Z.log2 a - 52 in
    Z.sgn z * (round_half_even (inject_Z a / inject_Z (2 ^ k)) * 2 ^ k).

(** The values of binary64: [m * 2^e] with a significand of 53 bits and an
    exponent in range. *)
Definition is_binary64 (q : Q) : Prop :=
  exists m e : Z,
    Z.abs m < 2 ^ 53 /\ -1074 <= e <= 971 /\ (q == inject_Z m * 2 ^ e)%Q.

(** ** Devices and the scan of [bal_chunk] (lines 57-75) *)

Record device : Type := Device {
  devid : string;
  size : Z;
  used : Z;
  path : string
}.

Definition unallocated_of (d : device) : Z := size d - used d.

(** An integer or [float('inf')]. *)
Inductive ext : Type :=
| Fin (z : Z)
| Inf.

Definition ext_ltb (z : Z) (e : ext) : bool :=
  match e with
  | Fin y => z <? y
  | Inf => true
  end.

Record scan_state : Type := Scan {
  least_empty_dev_id : option string;
  least_empty_dev_path : option string;
  least_empty_dev_unallocated : ext;
  free : list Z
}.

Definition scan_init : scan_state :=
  {| least_empty_dev_id := None;
     least_empty_dev_path := None;
     least_empty_dev_unallocated := Inf;
     free := [] |}.

(** One turn of the [for line in ...] loop. *)
Definition scan_step (st : scan_state) (d : device) : scan_state :=
  let unallocated := size d - used d in
  let free' := free st ++ [unallocated] in
  if ext_ltb unallocated (least_empty_dev_unallocated st) then
    {| least_empty_dev_id := Some (devid d);
       least_empty_dev_path := Some (path d);
       least_empty_dev_unallocated := Fin unallocated;
       free := free' |}
  else
    {| least_empty_dev_id := least_empty_dev_id st;
       least_empty_dev_path := least_empty_dev_path st;
       least_empty_dev_unallocated := least_empty_dev_unallocated st;
       free := free' |}.

Definition scan (devices : list device) : scan_state :=
  fold_left scan_step devices scan_init.

(** ** [statistics.stdev] and the limit test (lines 77-78) *)

Definition Zsum (data : list Z) : Z := fold_right Z.add 0 data.

Definition mean (data : list Z) : Q :=
  (inject_Z (Zsum data) / inject_Z (Z.of_nat (length data)))%Q.

Definition Qsum (l : list Q) : Q := fold_right Qplus 0%Q l.

Definition sq_dev (c : Q) (x : Z) : Q :=
  ((inject_Z x - c) * (inject_Z x - c))%Q.

(** [statistics.variance]: the sample variance, with [n - 1] in the
    denominator; fewer than two data points raise [StatisticsError]. *)
Definition variance (data : list Z) : result Q :=
  if (Z.of_nat (length data) <? 2) then Raise StatisticsError
  else Ok (Qsum (map (sq_dev (mean data)) data)
           / inject_Z (Z.of_nat (length data) - 1))%Q.

(** The square root of the fraction [v] as a float
    ([statistics._float_sqrt_of_frac]): correctly rounded, and
    [OverflowError] from the final conversion when the rounded value does
    not fit a binary64. *)
Definition float_sqrt_of_frac (v : Q) : result Q :=
  let f := sqrt_binary64 v in
  if Qle_bool (2 ^ 1024) f then Raise OverflowError else Ok f.

(** [statistics.stdev]: a float, held as the rational it is. *)
Definition stdev (data : list Z) : result Q :=
  match variance data with
  | Ok v => float_sqrt_of_frac v
  | Raise e => Raise e
  end.

(** The test of lines 77-78 on its own: does the loop stop on [free]?
    Python compares the float with the integer limit exactly. *)
Definition converged (free : list Z) (limit : Z) : result bool :=
  match stdev free with
  | Ok s => Ok (Qltb s (inject_Z limit))
  | Raise e => Raise e
  end.
(** ** The outside world: clock, commands, log *)

Inductive level : Type := INFO | WARNING.

(** Log records, by the [logging] call that writes them, with the values
    they are formatted from; the formatting itself is not part of the
    trace. *)
Inductive message : Type :=
| Stdev_below (s : Q) (limit : Z)
| Stdev_above (s : Q) (limit : Z)
| Balancing (dev_path : option string) (dev_unallocated : ext)
| Output (out : string)
| Last_chunk (yeet : string) (duration : Q)
| Sleeping (seconds : Z) (until : Q).

Inductive event : Type :=
| Getoutput (cmd : string)
| Getstatusoutput (cmd : string)
| Logged (lv : level) (m : message)
| Slept (seconds : Q).

(** What the world answers during one call of [bal_chunk]: the devices
    listed by [btrfs fi show], the exit status and output of
    [btrfs balance start], and the wall-clock time each command takes. *)
Record response : Type := Response {
  fi_show_devices : list device;
  fi_show_elapsed : Q;
  balance_status : Z;
  balance_output : string;
  balance_elapsed : Q
}.

(** A computation reads and advances the clock, emits events, and returns
    a value or raises. *)
Definition M (A : Type) : Type := Q -> result A * Q * list event.

Definition ret {A} (a : A) : M A := fun now => (Ok a, now, []).

Definition raise {A} (e : exn) : M A := fun now => (Raise e, now, []).

Definition bind {A B} (m : M A) (k : A -> M B) : M B :=
  fun now =>
    match m now with
    | (Ok a, now1, es1) =>
        match k a now1 with
        | (rb, now2, es2) => (rb, now2, es1 ++ es2)
        end
    | (Raise e, now1, es1) => (Raise e, now1, es1)
    end.

Declare Scope prog_scope.
Delimit Scope prog_scope with prog.
Notation "x <- m ;; k" := (bind m (fun x => k))
  (at level 61, m at next level, right associativity) : prog_scope.
Notation "m ;; k" := (bind m (fun _ => k))
  (at level 61, right associativity) : prog_scope.

Definition lift {A} (r : result A) : M A := fun now => (r, now, []).

Definition emit (e : event) : M unit := fun now => (Ok tt, now, [e]).

Definition log (lv : level) (m : message) : M unit := emit (Logged lv m).

(** [time.time()] *)
Definition time : M Q := fun now => (Ok now, now, []).

(** [time.sleep(seconds)] *)
Definition sleep (seconds : Q) : M unit :=
  fun now => (Ok tt, (now + seconds)%Q, [Slept seconds]).

(** [subprocess.getoutput] of the [btrfs fi show] pipeline. *)
Definition getoutput (cmd : string) (r : response) : M (list device) :=
  fun now => (Ok (fi_show_devices r), (now + fi_show_elapsed r)%Q,
              [Getoutput cmd]).

(** [subprocess.getstatusoutput] of [btrfs balance start]. *)
Definition getstatusoutput (cmd : string) (r : response) : M (Z * string) :=
  fun now => (Ok (balance_status r, balance_output r),
              (now + balance_elapsed r)%Q, [Getstatusoutput cmd]).

(** ['%s' % x] for a value that is a string or [None]. *)
Definition str_of (o : option string) : string :=
  match o with
  | Some s => s
  | None => "None"
  end.

Definition fi_show_cmd (cfg : config) : string :=
  ("btrfs fi show --raw " ++ FILESYSTEM cfg ++ " | grep devid")%string.

Definition balance_cmd (cfg : config) (id : option string) : string :=
  ("btrfs balance start -ddevid=" ++ str_of id ++ ",limit=1 "
   ++ FILESYSTEM cfg)%string.

(** ** [bal_chunk] (lines 56-93)

    When the output of [btrfs fi show] has no device line, the [for] loop
    runs once on the empty line, whose [split()] is the empty list, and
    [x[1]] raises [IndexError]. *)

Definition bal_chunk (cfg : config) (r : response) : M unit :=
  (devices <- getoutput (fi_show_cmd cfg) r ;;
   match devices with
   | [] => raise IndexError
   | _ :: _ =>
     let st := scan devices in
     s <- lift (stdev (free st)) ;;
     (if Qltb s (inject_Z (STDEV_LIMIT cfg)) then
        log INFO (Stdev_below s (STDEV_LIMIT cfg)) ;;
        raise (SystemExit None)
      else
        log INFO (Stdev_above s (STDEV_LIMIT cfg))) ;;
     log INFO (Balancing (least_empty_dev_path st)
                         (least_empty_dev_unallocated st)) ;;
     let cmd := balance_cmd cfg (least_empty_dev_id st) in
     ro <- getstatusoutput cmd r ;;
     if negb (fst ro =? 0) then
       log WARNING (Output (snd ro)) ;;
       sleep 30
     else
       log INFO (Output (snd ro))
   end)%prog.

(** ** [fib_sleep] (lines 95-99) *)

Definition fib_sleep (index : Z) : M unit :=
  (let seconds := fib index in
   now <- time ;;
   log INFO (Sleeping seconds (now + inject_Z seconds)%Q) ;;
   sleep (inject_Z seconds))%prog.

(** ** The balancing loop (lines 117-133) *)

(** One turn of [while True]; [backoff] is the global counter, returned
    updated. *)
Definition loop_body (cfg : config) (r : response) (backoff : Z) : M Z :=
  (start <- time ;;
   bal_chunk cfg r ;;
   stop <- time ;;
   let duration := (stop - start)%Q in
   let yeet := if Qltb (inject_Z (CHUNK_TIMEOUT cfg)) duration
               then "Ouch!"%string else "Nice!"%string in
   log INFO (Last_chunk yeet duration) ;;
   if Qltb (inject_Z (CHUNK_TIMEOUT cfg)) duration then
     let backoff := if fib (backoff + 1) <? MAX_SLEEP cfg
                    then backoff + 1 else backoff in
     fib_sleep backoff ;;
     ret backoff
   else
     let backoff := if backoff >? 1 then backoff - 2
                    else if backoff >? 0 then backoff - 1
                    else backoff in
     fib_sleep backoff ;;
     ret backoff)%prog.

(** The loop, run against the answers of the world to its successive
    iterations; it stops early when an iteration raises, and is still
    running ([Ok]) when the answers are used up. *)
Fixpoint main_loop (cfg : config) (rs : list response) (backoff : Z) : M Z :=
  match rs with
  | [] => ret backoff
  | r :: rs' => (b <- loop_body cfg r backoff ;; main_loop cfg rs' b)%prog
  end.

(** The script after the file-system check: [backoff = 0], then the loop. *)
Definition main (cfg : config) (rs : list response) : M Z :=
  main_loop cfg rs 0.

(** ** The backoff update on its own *)

(** Lines 127-132 without the sleeps: the new value of [backoff] after an
    iteration that took [duration]. *)
Definition adjust (cfg : config) (backoff : Z) (duration : Q) : Z :=
  if Qltb (inject_Z (CHUNK_TIMEOUT cfg)) duration then
    if fib (backoff + 1) <? MAX_SLEEP cfg then backoff + 1 else backoff
  else
    if backoff >? 1 then backoff - 2
    else if backoff >? 0 then backoff - 1
    else backoff.

(** Projections of a run. *)
Definition outcome {A} (x : result A * Q * list event) : result A :=
  fst (fst x).
Definition clock {A} (x : result A * Q * list event) : Q := snd (fst x).
Definition events {A} (x : result A * Q * list event) : list event := snd x.

(** ** Sample data

    Two devices with 50 GiB and 50.0001 GiB unallocated, and three devices
    with 100, 120 and 20 GiB unallocated. *)

Definition two_even : list device :=
  [ {| devid := "1"; size := 100 * GiB; used := 50 * GiB;
       path := "/dev/sda" |};
    {| devid := "2"; size := 100 * GiB; used := 50 * GiB - 107374;
       path := "/dev/sdb" |} ].

Definition three_skewed : list device :=
  [ {| devid := "1"; size := 200 * GiB; used := 100 * GiB;
       path := "/dev/sda" |};
    {| devid := "2"; size := 200 * GiB; used := 80 * GiB;
       path := "/dev/sdb" |};
    {| devid := "3"; size := 200 * GiB; used := 180 * GiB;
       path := "/dev/sdc" |} ].

(** * Definitions used in the statements *)

(** ** Series of iterations *)

(** The value of [backoff] after a series of durations. *)
Definition final (cfg : config) (backoff : Z) (durations : list Q) : Z :=
  fold_left (adjust cfg) durations backoff.

(** An iteration is slow when it took longer than [CHUNK_TIMEOUT]
    (line 127), and fast otherwise. *)
Definition slow (cfg : config) (duration : Q) : Prop :=
  Qltb (inject_Z (CHUNK_TIMEOUT cfg)) duration = true.

Definition fast (cfg : config) (duration : Q) : Prop :=
  Qltb (inject_Z (CHUNK_TIMEOUT cfg)) duration = false.

(** The sleep that goes with [backoff] stays below [MAX_SLEEP]. *)
Definition below_max (cfg : config) (b : Z) : Prop :=
  0 <= b /\ fib b < MAX_SLEEP cfg.

(** The bound as the specification words it: the index is never negative
    and never increases to a value [i'] with [fib (i' + 1) >= MAX_SLEEP]. *)
Definition never_increases_to_next_at_cap
  (cfg : config) (durations : list Q) (d : Q) : Prop :=
  let i := final cfg 0 durations in
  let i' := adjust cfg i d in
  0 <= i' /\ (i < i' -> fib (i' + 1) < MAX_SLEEP cfg).

(** ** The least empty device *)

(** [d], at position [k], has the least unallocated space of [devices], and
    no device before it has as little. *)
Definition first_minimum (devices : list device) (k : nat) (d : device)
  : Prop :=
  nth_error devices k = Some d /\
  (forall d', In d' devices -> unallocated_of d <= unallocated_of d') /\
  (forall j d', (j < k)%nat -> nth_error devices j = Some d' ->
                unallocated_of d < unallocated_of d').

(** The scan has recorded device [d]. *)
Definition recorded (st : scan_state) (d : device) : Prop :=
  least_empty_dev_id st = Some (devid d) /\
  least_empty_dev_path st = Some (path d) /\
  least_empty_dev_unallocated st = Fin (unallocated_of d).

(** Three devices of which the second and third tie for the minimum: the
    second is recorded. *)
Definition tied_devices : list device :=
  [ {| devid := "1"; size := 100; used := 10; path := "/dev/sda" |};
    {| devid := "2"; size := 100; used := 80; path := "/dev/sdb" |};
    {| devid := "3"; size := 120; used := 100; path := "/dev/sdc" |} ].

(** ** The trace of one iteration *)

(** What follows the balance command in [bal_chunk] (lines 89-93). *)
Definition after_balance_events (r : response) : list event :=
  if negb (balance_status r =? 0)
  then [Logged WARNING (Output (balance_output r)); Slept 30]
  else [Logged INFO (Output (balance_output r))].

(** The clock when [bal_chunk], entered at [now], returns. *)
Definition bal_chunk_end (r : response) (now : Q) : Q :=
  if negb (balance_status r =? 0)
  then (now + fi_show_elapsed r + balance_elapsed r + 30)%Q
  else (now + fi_show_elapsed r + balance_elapsed r)%Q.

Definition bal_chunk_events (cfg : config) (r : response) (s : Q)
  : list event :=
  let st := scan (fi_show_devices r) in
  [Getoutput (fi_show_cmd cfg);
   Logged INFO (Stdev_above s (STDEV_LIMIT cfg));
   Logged INFO (Balancing (least_empty_dev_path st)
                          (least_empty_dev_unallocated st));
   Getstatusoutput (balance_cmd cfg (least_empty_dev_id st))]
  ++ after_balance_events r.

(** The end of an iteration (lines 123-133), after [bal_chunk] returned. *)
Definition loop_body_tail (cfg : config) (backoff : Z) (start stop : Q)
  : list event :=
  let duration := (stop - start)%Q in
  let b := adjust cfg backoff duration in
  [Logged INFO
     (Last_chunk (if Qltb (inject_Z (CHUNK_TIMEOUT cfg)) duration
                  then "Ouch!"%string else "Nice!"%string) duration);
   Logged INFO (Sleeping (fib b) (stop + inject_Z (fib b))%Q);
   Slept (inject_Z (fib b))].

(** The cases of an iteration: it raises before any balance command, or it
    balances and updates [backoff]. *)
Inductive iteration_case (cfg : config) (r : response) (b : Z) (now : Q)
  : result Z * Q * list event -> Prop :=
| case_raises e es :
    (forall c, ~ In (Getstatusoutput c) es) ->
    (forall q, ~ In (Slept q) es) ->
    (forall s u, ~ In (Logged INFO (Sleeping s u)) es) ->
    iteration_case cfg r b now (Raise e, (now + fi_show_elapsed r)%Q, es)
| case_balances s :
    iteration_case cfg r b now
      (Ok (adjust cfg b (bal_chunk_end r now - now)%Q),
       (bal_chunk_end r now
        + inject_Z (fib (adjust cfg b (bal_chunk_end r now - now)%Q)))%Q,
       bal_chunk_events cfg r s
       ++ loop_body_tail cfg b now (bal_chunk_end r now)).

(** ** Failures of the balance command *)

(** The claim as the specification words it: an iteration whose balance
    command fails, coming after the iterations [rs], leaves [backoff] as
    they left it. *)
Definition failure_keeps_backoff
  (cfg : config) (rs : list response) (r : response) (now : Q) : Prop :=
  balance_status r <> 0 ->
  forall b b',
    outcome (main cfg rs now) = Ok b ->
    outcome (main cfg (rs ++ [r]) now) = Ok b' ->
    b' = b.

(** A balance of the skewed devices that succeeds after 70 seconds. *)
Definition slow_success : response :=
  {| fi_show_devices := three_skewed; fi_show_elapsed := 1;
     balance_status := 0; balance_output := "Done";
     balance_elapsed := 70 |}.

(** A balance of the skewed devices that fails after half a second. *)
Definition quick_failure : response :=
  {| fi_show_devices := three_skewed; fi_show_elapsed := 1;
     balance_status := 1; balance_output := "ERROR";
     balance_elapsed := 1 # 2 |}.

(** ** Spacing of the balance commands *)

(** Reading a trace with one bit of state, [pending]: a balance command
    has been run and no sleep of a second or more has followed it yet.
    [None] when a balance command is run while one is pending. *)
Fixpoint spaced (pending : bool) (es : list event) : option bool :=
  match es with
  | [] => Some pending
  | Getstatusoutput _ :: es' => if pending then None else spaced true es'
  | Slept q :: es' => spaced (if Qle_bool 1 q then false else pending) es'
  | _ :: es' => spaced pending es'
  end.

(** A balance that succeeds at once. *)
Definition quick_success : response :=
  {| fi_show_devices := three_skewed; fi_show_elapsed := 0;
     balance_status := 0; balance_output := "Done";
     balance_elapsed := 0 |}.

(** ** The standard deviation over the reals *)

(** The sample standard deviation, as statistics defines it: the square
    root of the sum of squared deviations from the mean over [n - 1]. *)
Definition Rsum (l : list R) : R := fold_right Rplus 0%R l.

Definition mean_R (data : list Z) : R :=
  (Rsum (map IZR data) / INR (length data))%R.

Definition sample_stdev (data : list Z) : R :=
  sqrt (Rsum (map (fun x => (IZR x - mean_R data) * (IZR x - mean_R data))%R
                  data)
        / (INR (length data) - 1))%R.

(** The radicand of [stdev data], for data on which it is defined. *)
Definition variance_of (data : list Z) : Q :=
  match variance data with
  | Ok v => v
  | Raise _ => 0%Q
  end.

(** Unallocated space of 10, 10, 10 GiB and of 0, 0, 40 GiB. *)
Definition balanced_free : list Z := [10 * GiB; 10 * GiB; 10 * GiB].
Definition skewed_free : list Z := [0; 0; 40 * GiB].

(** The claim's figure: the standard deviation of 0, 0, 40 GiB is
    18.86 GiB to two decimals. *)
Definition skewed_stdev_as_stated : Prop :=
  exists s,
    stdev skewed_free = Ok s /\
    ((18855 # 1000) * inject_Z GiB <= s)%Q /\
    (s < (18865 # 1000) * inject_Z GiB)%Q.

(** The claim's equivalence, on [data] and [limit]: the test succeeds
    exactly when the sample standard deviation is below the limit. *)
Definition converged_iff_exact (data : list Z) (limit : Z) : Prop :=
  converged data limit = Ok true <-> (sample_stdev data < IZR limit)%R.

(** Unallocated space whose sample standard deviation is below 5 GiB by
    less than half the spacing of binary64 there. *)
Definition rounding_free : list Z := [0; 9300009286; 2265052].

(** ** Answers of the world that end the loop *)

(** A file system with a single device. *)
Definition single_device : response :=
  {| fi_show_devices :=
       [ {| devid := "1"; size := 100 * GiB; used := 50 * GiB;
            path := "/dev/sda" |} ];
     fi_show_elapsed := 1;
     balance_status := 0; balance_output := "Done";
     balance_elapsed := 10 |}.

(** A file system of which [btrfs fi show] lists no device. *)
Definition no_device : response :=
  {| fi_show_devices := [];
     fi_show_elapsed := 1;
     balance_status := 0; balance_output := "Done";
     balance_elapsed := 10 |}.

(** The claim as worded, on one answer of the world: with fewer than two
    devices the iteration ends with the error of the convergence
    computation, [StatisticsError]. *)
Definition too_few_raises_statistics_error
  (cfg : config) (r : response) (b : Z) (now : Q) : Prop :=
  (length (fi_show_devices r) < 2)%nat ->
  outcome (loop_body cfg r b now) = Raise StatisticsError.

(** The two devices with 50 GiB and 50.0001 GiB unallocated. *)
Definition even_devices : response :=
  {| fi_show_devices := two_even; fi_show_elapsed := 1;
     balance_status := 0; balance_output := "Done";
     balance_elapsed := 10 |}.

(** * The rest of the script *)

(** ** [sizeof_fmt] (lines 49-54)

    The argument is a Python number: an integer ([STDEV_LIMIT], the
    unallocated space of a device) or a float (the standard deviation).
    [abs(num) < 1024.0] compares the exact values; ['%4.2f' % num] and
    [num /= 1024.0] first convert an integer to the nearest binary64, which
    raises [OverflowError] when there is none.  A float is held as the
    rational it is; ['%.2f'] rounds it to the nearest hundredth, ties to
    even. *)

Inductive number : Type :=
| Int (z : Z)
| Float (x : Q).

(** The exact value of a number. *)
Definition exact (num : number) : Q :=
  match num with
  | Int z => inject_Z z
  | Float x => x
  end.

(** [float(z)] *)
Definition float_of_int (z : Z) : result Q :=
  let f := binary64_of_Z z in
  if 2 ^ 1024 <=? Z.abs f then Raise OverflowError else Ok (inject_Z f).

(** The float an operation on floats takes the number for. *)
Definition as_float (num : number) : result Q :=
  match num with
  | Int z => float_of_int z
  | Float x => Ok x
  end.

Definition string_of_Z (z : Z) : string :=
  NilZero.string_of_int (Z.to_int z).

Definition two_digits (n : Z) : string :=
  if n <? 10 then ("0" ++ string_of_Z n)%string else string_of_Z n.

(** ['%.2f' % num] *)
Definition fmt_2f (num : Q) : string :=
  let h := round_half_even (Qabs num * 100) in
  ((if Qltb num 0 then "-" else "")
   ++ string_of_Z (h / 100) ++ "." ++ two_digits (h mod 100))%string.

(** Padding with spaces on the left up to a width. *)
Fixpoint spaces (n : nat) : string :=
  match n with
  | O => ""%string
  | S n' => (" " ++ spaces n')%string
  end.

Definition rjust (width : nat) (s : string) : string :=
  (spaces (width - String.length s) ++ s)%string.

(** ['%4.2f' % num] *)
Definition fmt_4_2f (num : Q) : string := rjust 4 (fmt_2f num).

Definition units : list string :=
  [""; "Ki"; "Mi"; "Gi"; "Ti"; "Pi"; "Ei"; "Zi"]%string.

(** The [for unit in ...] loop, from the units still to try. *)
Fixpoint sizeof_fmt_from (us : list string) (num : number) (suffix : string)
  : result string :=
  match us with
  | [] =>
      match as_float num with
      | Ok x => Ok (fmt_2f x ++ "Yi" ++ suffix)%string
      | Raise e => Raise e
      end
  | unit :: us' =>
      if Qltb (Qabs (exact num)) 1024 then
        match as_float num with
        | Ok x => Ok (fmt_4_2f x ++ unit ++ suffix)%string
        | Raise e => Raise e
        end
      else
        match as_float num with
        | Ok x => sizeof_fmt_from us' (Float (x / 1024)) suffix
        | Raise e => Raise e
        end
  end.

Definition sizeof_fmt (num : number) (suffix : string) : result string :=
  sizeof_fmt_from units num suffix.

(** The number is the float [x], or an integer that converts to [x]
    without rounding. *)
Definition holds_exactly (num : number) (x : Q) : Prop :=
  as_float num = Ok x /\ (exact num == x)%Q /\ is_binary64 x.

(** [num] after [k] turns of the loop. *)
Definition scaled (k : nat) (num : Q) : Q :=
  Nat.iter k (fun q => (q / 1024)%Q) num.

(** ** The file-system check (lines 103-114) *)

(** An entry of [psutil.disk_partitions()], with the fields the script
    reads. *)
Record partition : Type := Partition {
  mountpoint : string;
  fstype : string
}.

(** What the check logs, by level. *)
Inductive log_record : Type :=
| Info (text : string)
| Error (text : string).

(** The [for part in ...] loop with its [else] branch. *)
Fixpoint check_partitions (cfg : config) (parts : list partition)
  : result unit * list log_record :=
  match parts with
  | [] =>
      (Raise (SystemExit (Some (-1))),
       [Error ("Could not find btrfs at " ++ FILESYSTEM cfg
               ++ ", exiting now.")%string])
  | part :: parts' =>
      if String.eqb (mountpoint part) (FILESYSTEM cfg) then
        if String.eqb (fstype part) "btrfs" then
          (Ok tt,
           [Info ("Found btrfs filesystem mounted at "
                  ++ FILESYSTEM cfg)%string])
        else
          (Raise (SystemExit (Some (-1))),
           [Error (FILESYSTEM cfg ++ " is not btrfs, exiting now.")%string])
      else check_partitions cfg parts'
  end.

(** ** Counting balance commands *)

Definition is_balance (e : event) : bool :=
  match e with
  | Getstatusoutput _ => true
  | _ => false
  end.

Definition count_balances (es : list event) : nat :=
  length (filter is_balance es).

(** The answer of the world lets the iteration go on to the balance
    command. *)
Definition keeps_going (cfg : config) (r : response) : Prop :=
  converged (map unallocated_of (fi_show_devices r)) (STDEV_LIMIT cfg)
  = Ok false.

(** The duration the main loop measures around [bal_chunk] when the
    iteration runs the balance command: the time of the two commands, and
    the 30 seconds slept after a failure. *)
Definition measured (r : response) : Q :=
  (fi_show_elapsed r + balance_elapsed r
   + (if negb (balance_status r =? 0) then 30 else 0))%Q.

(** ** A configuration with a short maximum sleep *)

Definition tiny_config : config :=
  {| FILESYSTEM := "/media/btrfs"; CHUNK_TIMEOUT := 60; MAX_SLEEP := 10;
     STDEV_LIMIT := 5 * 1024 * 1024 * 1024 |}.

(** * Properties *)

(** ** The sleep sequence *)

Lemma fib_small (n : Z) : n < 2 -> fib n = 1.
Proof.
  intros Hn. rewrite fib_equation_1.
  destruct (Z_lt_dec n 2); [reflexivity | lia].
Qed.

Lemma fib_large (n : Z) : 2 <= n -> fib n = fib (n - 2) + fib (n - 1).
Proof.
  intros Hn. rewrite fib_equation_1 at 1.
  destruct (Z_lt_dec n 2); [lia | reflexivity].
Qed.

Lemma fib_ge_1 (n : Z) : 1 <= fib n.
Proof.
  funelim (fib n); lia.
Qed.

Lemma fib_step_le (n : Z) : fib n <= fib (n + 1).
Proof.
  destruct (Z_lt_dec (n + 1) 2) as [Hs | Hs].
  - rewrite (fib_small n), (fib_small (n + 1)); lia.
  - rewrite (fib_large (n + 1)) by lia.
    replace (n + 1 - 1) with n by lia.
    pose proof (fib_ge_1 (n + 1 - 2)). lia.
Qed.

Lemma fib_monotone (a b : Z) : a <= b -> fib a <= fib b.
Proof.
  intros Hab. replace b with (a + Z.of_nat (Z.to_nat (b - a))) by lia.
  induction (Z.to_nat (b - a)) as [| k IH].
  - replace (a + Z.of_nat 0) with a by lia. lia.
  - replace (a + Z.of_nat (S k)) with (a + Z.of_nat k + 1) by lia.
    pose proof (fib_step_le (a + Z.of_nat k)). lia.
Qed.

(** C5: [fib 0 = fib 1 = 1], and [fib n = fib (n-1) + fib (n-2)] for every
    [n >= 2]. *)
Theorem fib_recurrence :
  fib 0 = 1 /\ fib 1 = 1 /\
  forall n : Z, 2 <= n -> fib n = fib (n - 1) + fib (n - 2).
Proof.
  split; [| split].
  - apply fib_small. lia.
  - apply fib_small. lia.
  - intros n Hn. rewrite (fib_large n Hn). lia.
Qed.

Lemma fib_recurrence_witness :
  2 <= 7 /\ fib 7 = fib (7 - 1) + fib (7 - 2).
Proof.
  split; [lia | apply (proj2 (proj2 fib_recurrence)); lia].
Defined.

(** ** The backoff update *)

Lemma adjust_slow cfg b d :
  slow cfg d ->
  adjust cfg b d = if fib (b + 1) <? MAX_SLEEP cfg then b + 1 else b.
Proof. unfold slow, adjust. intros ->. reflexivity. Qed.

Lemma adjust_fast cfg b d :
  fast cfg d ->
  adjust cfg b d =
  if b >? 1 then b - 2 else if b >? 0 then b - 1 else b.
Proof. unfold fast, adjust. intros ->. reflexivity. Qed.

Lemma slow_or_fast cfg d : slow cfg d \/ fast cfg d.
Proof.
  unfold slow, fast.
  destruct (Qltb (inject_Z (CHUNK_TIMEOUT cfg)) d); auto.
Qed.

Lemma adjust_nonneg cfg b d : 0 <= b -> 0 <= adjust cfg b d.
Proof.
  intros Hb. unfold adjust.
  destruct (Qltb _ _).
  - destruct (fib (b + 1) <? MAX_SLEEP cfg); lia.
  - destruct (b >? 1) eqn:E1; [lia |].
    destruct (b >? 0) eqn:E0; lia.
Qed.

Lemma final_app cfg b ds1 ds2 :
  final cfg b (ds1 ++ ds2) = final cfg (final cfg b ds1) ds2.
Proof. unfold final. apply fold_left_app. Qed.

Lemma final_nonneg cfg ds : forall b, 0 <= b -> 0 <= final cfg b ds.
Proof.
  induction ds as [| d ds IH]; intros b Hb; simpl; [exact Hb |].
  apply IH, adjust_nonneg, Hb.
Qed.

Lemma adjust_below_max cfg b d :
  below_max cfg b -> below_max cfg (adjust cfg b d).
Proof.
  intros [Hb Hf]. split; [apply adjust_nonneg, Hb |].
  unfold adjust. destruct (Qltb _ _).
  - destruct (fib (b + 1) <? MAX_SLEEP cfg) eqn:E; [lia | exact Hf].
  - destruct (b >? 1).
    + pose proof (fib_monotone (b - 2) b). lia.
    + destruct (b >? 0); [| exact Hf].
      pose proof (fib_monotone (b - 1) b). lia.
Qed.

Lemma final_below_max cfg ds :
  forall b, below_max cfg b -> below_max cfg (final cfg b ds).
Proof.
  induction ds as [| d ds IH]; intros b Hb; simpl; [exact Hb |].
  apply IH, adjust_below_max, Hb.
Qed.

Lemma below_max_0 cfg : 1 < MAX_SLEEP cfg -> below_max cfg 0.
Proof.
  intros H. split; [lia |]. rewrite (fib_small 0); lia.
Qed.

(** Slow iterations only: once the update leaves [backoff] alone, it does
    so for the rest of the run. *)
Lemma final_slow_fixed cfg b ds :
  Forall (slow cfg) ds ->
  MAX_SLEEP cfg <= fib (b + 1) ->
  final cfg b ds = b.
Proof.
  intros Hs Hcap. induction Hs as [| d ds Hd _ IH]; simpl; [reflexivity |].
  rewrite (adjust_slow _ _ _ Hd).
  destruct (fib (b + 1) <? MAX_SLEEP cfg) eqn:E; [lia | exact IH].
Qed.

Lemma final_fast_zero cfg ds :
  Forall (fast cfg) ds -> final cfg 0 ds = 0.
Proof.
  intros Hs. induction Hs as [| d ds Hd _ IH]; simpl; [reflexivity |].
  rewrite (adjust_fast _ _ _ Hd). exact IH.
Qed.

(** C2 as worded fails: with the shipped configuration, the nineteenth
    slow iteration in a row moves the index from 18 to 19, although
    [fib 20 = 10946 >= 7200]. *)
Lemma index_19_reached :
  ~ never_increases_to_next_at_cap shipped_config (repeat 61%Q 18) 61%Q.
Proof.
  unfold never_increases_to_next_at_cap. intros [_ H].
  assert (E : final shipped_config 0 (repeat 61%Q 18) = 18)
    by (vm_compute; reflexivity).
  assert (E' : adjust shipped_config 18 61%Q = 19)
    by (vm_compute; reflexivity).
  rewrite E, E' in H. specialize (H ltac:(lia)).
  revert H. vm_compute. discriminate.
Qed.

(** C2 (amended): from index 0, whatever the durations, the index is never
    negative, and it only increases to a value [i'] with
    [fib i' < MAX_SLEEP]. *)
Theorem backoff_index_bounds (cfg : config) (durations : list Q) (d : Q) :
  let i := final cfg 0 durations in
  let i' := adjust cfg i d in
  0 <= i /\ 0 <= i' /\ (i < i' -> fib i' < MAX_SLEEP cfg).
Proof.
  intros i i'.
  assert (Hi : 0 <= i) by (apply final_nonneg; lia).
  split; [exact Hi |]. split; [apply adjust_nonneg, Hi |].
  subst i'. unfold adjust. destruct (Qltb _ _).
  - destruct (fib (i + 1) <? MAX_SLEEP cfg) eqn:E; lia.
  - destruct (i >? 1); [lia |]. destruct (i >? 0); lia.
Qed.

Lemma backoff_index_bounds_witness :
  let i := final shipped_config 0 (repeat 61%Q 18) in
  let i' := adjust shipped_config i 61%Q in
  i < i' /\ fib i' < MAX_SLEEP shipped_config.
Proof.
  intros i i'. split; [vm_compute; reflexivity |].
  apply (backoff_index_bounds shipped_config (repeat 61%Q 18) 61%Q).
  vm_compute; reflexivity.
Defined.

Lemma adjust_fast_max cfg b d :
  fast cfg d -> 0 <= b -> adjust cfg b d = Z.max 0 (b - 2).
Proof.
  intros Hd Hb. rewrite (adjust_fast _ _ _ Hd).
  destruct (b >? 1) eqn:E1; [lia |].
  destruct (b >? 0) eqn:E0; lia.
Qed.

Lemma final_fast_closed cfg ds :
  Forall (fast cfg) ds ->
  forall b, 0 <= b ->
  final cfg b ds = Z.max 0 (b - 2 * Z.of_nat (length ds)).
Proof.
  induction 1 as [| d ds Hd _ IH]; intros b Hb; simpl final.
  - simpl. lia.
  - rewrite (adjust_fast_max _ _ _ Hd Hb).
    change (fold_left (adjust cfg) ds (Z.max 0 (b - 2)))
      with (final cfg (Z.max 0 (b - 2)) ds).
    rewrite IH by lia. simpl length. lia.
Qed.

(** C4: in a run of slow iterations the index never decreases: it goes up
    by one while [fib (index + 1) < MAX_SLEEP] and then stays where it is
    for the rest of the run; in a run of fast iterations it goes down by 2
    when it is above 1, by 1 when it is 1, and stays at 0 once there. *)
Theorem backoff_monotone_per_class
  (cfg : config) (b : Z) (ds1 : list Q) (d : Q) (ds2 : list Q) :
  0 <= b ->
  let ds := ds1 ++ d :: ds2 in
  let i := final cfg b ds1 in
  (Forall (slow cfg) ds ->
     i <= adjust cfg i d /\
     (fib (i + 1) < MAX_SLEEP cfg -> adjust cfg i d = i + 1) /\
     (MAX_SLEEP cfg <= fib (i + 1) ->
        adjust cfg i d = i /\ final cfg b ds = i)) /\
  (Forall (fast cfg) ds ->
     0 <= i /\
     (0 < i -> adjust cfg i d < i) /\
     (1 < i -> adjust cfg i d = i - 2) /\
     (i = 1 -> adjust cfg i d = 0) /\
     (i = 0 -> adjust cfg i d = 0 /\ final cfg b ds = 0) /\
     final cfg b ds = Z.max 0 (b - 2 * Z.of_nat (length ds))).
Proof.
  intros Hb ds i.
  assert (Hi : 0 <= i) by (apply final_nonneg, Hb).
  split; intros Hall.
  - subst ds. apply Forall_app in Hall as [_ Hall].
    pose proof (Forall_inv Hall) as Hd.
    rewrite (adjust_slow _ _ _ Hd).
    destruct (fib (i + 1) <? MAX_SLEEP cfg) eqn:E.
    + repeat split; intros; lia.
    + repeat split; intros; try lia.
      rewrite final_app. fold i. apply final_slow_fixed; assumption.
  - pose proof (final_fast_closed cfg ds Hall b Hb) as Hclosed.
    subst ds. apply Forall_app in Hall as [_ Hall].
    pose proof (Forall_inv Hall) as Hd.
    rewrite (adjust_fast_max _ _ _ Hd Hi).
    repeat split; intros; try lia.
    rewrite final_app. fold i. rewrite H.
    apply final_fast_zero, Hall.
Qed.

Lemma backoff_monotone_per_class_witness :
  0 <= 3 /\
  adjust shipped_config (final shipped_config 3 [10%Q]) 10%Q = 0 /\
  final shipped_config 3 ([10%Q] ++ 10%Q :: [10%Q]) = 0.
Proof.
  split; [lia |].
  destruct (backoff_monotone_per_class shipped_config 3 [10%Q] 10%Q [10%Q]
              ltac:(lia)) as [_ Hfast].
  assert (Hall : Forall (fast shipped_config) ([10%Q] ++ 10%Q :: [10%Q]))
    by (repeat constructor).
  destruct (Hfast Hall) as (_ & _ & _ & H1 & _ & Hc).
  split; [apply H1; vm_compute; reflexivity | rewrite Hc; reflexivity].
Defined.

(** ** The scan for the least empty device *)

Lemma scan_snoc (devices : list device) (x : device) :
  scan (devices ++ [x]) = scan_step (scan devices) x.
Proof. unfold scan. rewrite fold_left_app. reflexivity. Qed.

Lemma scan_free (devices : list device) :
  free (scan devices) = map unallocated_of devices.
Proof.
  induction devices as [| x pre IH] using rev_ind; [reflexivity |].
  rewrite scan_snoc, map_app. unfold scan_step.
  destruct (ext_ltb _ _); simpl; rewrite IH; reflexivity.
Qed.

Lemma first_minimum_keep devices k d x :
  first_minimum devices k d ->
  unallocated_of d <= unallocated_of x ->
  first_minimum (devices ++ [x]) k d.
Proof.
  intros (Hk & Hmin & Hfirst) Hx.
  assert (Hlt : (k < length devices)%nat)
    by (apply nth_error_Some; congruence).
  split; [| split].
  - rewrite nth_error_app1; assumption.
  - intros d' Hin. apply in_app_or in Hin as [Hin | [<- | []]]; auto.
  - intros j d' Hj Hnth. rewrite nth_error_app1 in Hnth by lia.
    eapply Hfirst; eassumption.
Qed.

Lemma first_minimum_new devices k d x :
  first_minimum devices k d ->
  unallocated_of x < unallocated_of d ->
  first_minimum (devices ++ [x]) (length devices) x.
Proof.
  intros (Hk & Hmin & Hfirst) Hx.
  split; [| split].
  - rewrite nth_error_app2, Nat.sub_diag; [reflexivity | lia].
  - intros d' Hin. apply in_app_or in Hin as [Hin | [<- | []]]; [| lia].
    specialize (Hmin d' Hin). lia.
  - intros j d' Hj Hnth. rewrite nth_error_app1 in Hnth by lia.
    apply nth_error_In in Hnth. specialize (Hmin d' Hnth). lia.
Qed.

Lemma scan_first_minimum (devices : list device) :
  devices <> [] ->
  exists k d, first_minimum devices k d /\ recorded (scan devices) d.
Proof.
  induction devices as [| x pre IH] using rev_ind; [congruence |].
  intros _. rewrite scan_snoc. destruct pre as [| y pre'].
  - exists 0%nat, x. split.
    + split; [reflexivity | split].
      * intros d' [<- | []]. lia.
      * intros j d' Hj. lia.
    + repeat split.
  - destruct (IH ltac:(discriminate)) as (k & d & Hmin & Hid & Hpath & Hun).
    unfold scan_step. rewrite Hun. unfold ext_ltb.
    fold (unallocated_of x).
    destruct (unallocated_of x <? unallocated_of d) eqn:E.
    + exists (length (y :: pre')), x. split.
      * eapply first_minimum_new; [eassumption | lia].
      * repeat split.
    + exists k, d. split.
      * apply first_minimum_keep; [assumption | lia].
      * repeat split; simpl; assumption.
Qed.

(** C6: on a snapshot that is not empty, the scan (a function of the
    snapshot) records the identifier, path and unallocated space of a
    device whose unallocated space is minimal over the snapshot, and no
    device earlier in the snapshot has as little. *)
Theorem least_empty_device_is_first_minimum (devices : list device) :
  devices <> [] ->
  exists k d,
    nth_error devices k = Some d /\
    least_empty_dev_id (scan devices) = Some (devid d) /\
    least_empty_dev_path (scan devices) = Some (path d) /\
    least_empty_dev_unallocated (scan devices) = Fin (size d - used d) /\
    (forall d', In d' devices -> size d - used d <= size d' - used d') /\
    (forall j d', (j < k)%nat -> nth_error devices j = Some d' ->
                  size d - used d < size d' - used d').
Proof.
  intros Hne.
  destruct (scan_first_minimum devices Hne)
    as (k & d & (Hk & Hmin & Hfirst) & Hid & Hpath & Hun).
  exists k, d. repeat split; assumption.
Qed.

Lemma least_empty_device_is_first_minimum_witness :
  tied_devices <> [] /\
  least_empty_dev_id (scan tied_devices) = Some "2"%string /\
  exists k d,
    nth_error tied_devices k = Some d /\
    least_empty_dev_id (scan tied_devices) = Some (devid d) /\
    (forall d', In d' tied_devices -> size d - used d <= size d' - used d').
Proof.
  split; [discriminate |]. split; [reflexivity |].
  destruct (least_empty_device_is_first_minimum tied_devices
              ltac:(discriminate))
    as (k & d & Hk & Hid & _ & _ & Hmin & _).
  exists k, d. auto.
Defined.

(** ** One iteration of the loop, case by case *)

Lemma Qltb_proper (x y y' : Q) : (y == y')%Q -> Qltb x y = Qltb x y'.
Proof. intros E. unfold Qltb. rewrite E. reflexivity. Qed.

Lemma adjust_proper cfg b (d d' : Q) :
  (d == d')%Q -> adjust cfg b d = adjust cfg b d'.
Proof. intros E. unfold adjust. rewrite (Qltb_proper _ _ _ E). reflexivity. Qed.

Lemma bal_chunk_no_device cfg r now :
  fi_show_devices r = [] ->
  bal_chunk cfg r now =
  (Raise IndexError, (now + fi_show_elapsed r)%Q,
   [Getoutput (fi_show_cmd cfg)]).
Proof.
  intros E. unfold bal_chunk, bind, getoutput. rewrite E. reflexivity.
Qed.

Lemma bal_chunk_stdev_raises cfg r now e :
  fi_show_devices r <> [] ->
  stdev (map unallocated_of (fi_show_devices r)) = Raise e ->
  bal_chunk cfg r now =
  (Raise e, (now + fi_show_elapsed r)%Q, [Getoutput (fi_show_cmd cfg)]).
Proof.
  intros Hne E. unfold bal_chunk, bind, getoutput.
  destruct (fi_show_devices r) as [| d ds] eqn:Ed; [congruence |].
  unfold lift. rewrite scan_free, E. reflexivity.
Qed.

Lemma bal_chunk_exits cfg r now s :
  fi_show_devices r <> [] ->
  stdev (map unallocated_of (fi_show_devices r)) = Ok s ->
  Qltb s (inject_Z (STDEV_LIMIT cfg)) = true ->
  bal_chunk cfg r now =
  (Raise (SystemExit None), (now + fi_show_elapsed r)%Q,
   [Getoutput (fi_show_cmd cfg);
    Logged INFO (Stdev_below s (STDEV_LIMIT cfg))]).
Proof.
  intros Hne E Hlt. unfold bal_chunk, bind, getoutput.
  destruct (fi_show_devices r) as [| d ds] eqn:Ed; [congruence |].
  unfold lift. rewrite scan_free, E, Hlt. reflexivity.
Qed.

Lemma bal_chunk_balances cfg r now s :
  fi_show_devices r <> [] ->
  stdev (map unallocated_of (fi_show_devices r)) = Ok s ->
  Qltb s (inject_Z (STDEV_LIMIT cfg)) = false ->
  bal_chunk cfg r now =
  (Ok tt, bal_chunk_end r now, bal_chunk_events cfg r s).
Proof.
  intros Hne E Hlt.
  unfold bal_chunk, bind, getoutput, bal_chunk_end, bal_chunk_events,
    after_balance_events.
  destruct (fi_show_devices r) as [| d ds] eqn:Ed; [congruence |].
  unfold lift. rewrite scan_free, E, Hlt.
  unfold log, emit, getstatusoutput. cbn [fst snd].
  destruct (negb (balance_status r =? 0)); reflexivity.
Qed.

Lemma loop_body_balances cfg r b now s :
  fi_show_devices r <> [] ->
  stdev (map unallocated_of (fi_show_devices r)) = Ok s ->
  Qltb s (inject_Z (STDEV_LIMIT cfg)) = false ->
  loop_body cfg r b now =
  (Ok (adjust cfg b (bal_chunk_end r now - now)%Q),
   (bal_chunk_end r now
    + inject_Z (fib (adjust cfg b (bal_chunk_end r now - now)%Q)))%Q,
   bal_chunk_events cfg r s
   ++ loop_body_tail cfg b now (bal_chunk_end r now)).
Proof.
  intros Hne E Hlt. unfold loop_body, bind at 1, time.
  unfold bind at 1. rewrite (bal_chunk_balances cfg r now s Hne E Hlt).
  unfold loop_body_tail, adjust, bind, log, emit, fib_sleep, time, sleep, ret.
  destruct (Qltb (inject_Z (CHUNK_TIMEOUT cfg)) _); reflexivity.
Qed.

Lemma loop_body_raises cfg r b now e t es :
  bal_chunk cfg r now = (Raise e, t, es) ->
  loop_body cfg r b now = (Raise e, t, es).
Proof.
  intros E. unfold loop_body, bind at 1, time.
  unfold bind at 1. rewrite E. reflexivity.
Qed.

Lemma loop_body_cases cfg r b now :
  iteration_case cfg r b now (loop_body cfg r b now).
Proof.
  destruct (fi_show_devices r) as [| d ds] eqn:Ed.
  - rewrite (loop_body_raises _ _ _ _ _ _ _
               (bal_chunk_no_device cfg r now Ed)).
    constructor; simpl; intuition discriminate.
  - assert (Hne : fi_show_devices r <> []) by congruence.
    destruct (stdev (map unallocated_of (fi_show_devices r))) as [s | e] eqn:E.
    + destruct (Qltb s (inject_Z (STDEV_LIMIT cfg))) eqn:Hlt.
      * rewrite (loop_body_raises _ _ _ _ _ _ _
                   (bal_chunk_exits cfg r now s Hne E Hlt)).
        constructor; simpl; intuition discriminate.
      * rewrite (loop_body_balances cfg r b now s Hne E Hlt).
        constructor.
    + rewrite (loop_body_raises _ _ _ _ _ _ _
                 (bal_chunk_stdev_raises cfg r now e Hne E)).
      constructor; simpl; intuition discriminate.
Qed.

(** ** A failing balance command *)

Lemma converged_false_inv (data : list Z) (limit : Z) :
  converged data limit = Ok false ->
  data <> [] /\ exists s, stdev data = Ok s /\ Qltb s (inject_Z limit) = false.
Proof.
  unfold converged. intros H. split.
  - intros ->. discriminate H.
  - destruct (stdev data) as [s | e]; [| discriminate].
    exists s. split; [reflexivity | congruence].
Qed.

Lemma map_not_nil {A B} (f : A -> B) (l : list A) : map f l <> [] -> l <> [].
Proof. destruct l; [intros H _; apply H; reflexivity | discriminate]. Qed.

(** C1 as worded fails: two slow iterations bring [backoff] to 2; the
    failing iteration that follows lasts 31.5 seconds with its cooldown,
    counts as fast, and takes [backoff] down to 0. *)
Lemma failure_moves_backoff :
  ~ failure_keeps_backoff shipped_config [slow_success; slow_success]
      quick_failure 0%Q.
Proof.
  intros H.
  assert (E : outcome (main shipped_config [slow_success; slow_success] 0%Q)
              = Ok 2) by (vm_compute; reflexivity).
  assert (E' : outcome (main shipped_config
                          ([slow_success; slow_success] ++ [quick_failure])
                          0%Q) = Ok 0) by (vm_compute; reflexivity).
  specialize (H ltac:(discriminate) 2 0 E E'). discriminate H.
Qed.

(** C1 (amended): when the balance command of an iteration fails,
    [bal_chunk] logs its output as a warning and sleeps 30 seconds; the
    loop then updates [backoff] as after any other iteration, from the
    duration of the iteration, cooldown included, and sleeps
    [fib backoff] seconds. *)
Theorem failure_cools_down_then_adjusts
  (cfg : config) (r : response) (b : Z) (now : Q) :
  balance_status r <> 0 ->
  converged (map unallocated_of (fi_show_devices r)) (STDEV_LIMIT cfg)
  = Ok false ->
  let b' := adjust cfg b (fi_show_elapsed r + balance_elapsed r + 30)%Q in
  outcome (loop_body cfg r b now) = Ok b' /\
  exists s yeet d u,
    (d == fi_show_elapsed r + balance_elapsed r + 30)%Q /\
    events (loop_body cfg r b now) =
    [Getoutput (fi_show_cmd cfg);
     Logged INFO (Stdev_above s (STDEV_LIMIT cfg));
     Logged INFO (Balancing (least_empty_dev_path (scan (fi_show_devices r)))
                    (least_empty_dev_unallocated (scan (fi_show_devices r))));
     Getstatusoutput
       (balance_cmd cfg (least_empty_dev_id (scan (fi_show_devices r))));
     Logged WARNING (Output (balance_output r));
     Slept 30;
     Logged INFO (Last_chunk yeet d);
     Logged INFO (Sleeping (fib b') u);
     Slept (inject_Z (fib b'))].
Proof.
  intros Hfail Hconv b'.
  destruct (converged_false_inv _ _ Hconv) as (Hne & s & Hs & Hlt).
  apply map_not_nil in Hne.
  rewrite (loop_body_balances cfg r b now s Hne Hs Hlt).
  assert (Hst : negb (balance_status r =? 0) = true)
    by (apply negb_true_iff, Z.eqb_neq, Hfail).
  assert (Hd : (bal_chunk_end r now - now
                == fi_show_elapsed r + balance_elapsed r + 30)%Q)
    by (unfold bal_chunk_end; rewrite Hst; ring).
  assert (Hb : adjust cfg b (bal_chunk_end r now - now)%Q = b')
    by (apply adjust_proper, Hd).
  unfold outcome, events. cbn [fst snd]. split; [f_equal; exact Hb |].
  unfold bal_chunk_events, after_balance_events, loop_body_tail.
  rewrite Hst, Hb. cbn [app].
  eexists s, _, _, _. split; [exact Hd | reflexivity].
Qed.

Lemma failure_cools_down_then_adjusts_witness :
  balance_status quick_failure <> 0 /\
  outcome (loop_body shipped_config quick_failure 2 0%Q) = Ok 0.
Proof.
  split; [discriminate |].
  apply (failure_cools_down_then_adjusts shipped_config quick_failure 2 0%Q).
  - discriminate.
  - vm_compute; reflexivity.
Defined.

(** ** Runs of the loop *)

Lemma main_loop_cons cfg r rs b now :
  main_loop cfg (r :: rs) b now =
  match loop_body cfg r b now with
  | (Ok b1, now1, es1) =>
      match main_loop cfg rs b1 now1 with
      | (x, now2, es2) => (x, now2, es1 ++ es2)
      end
  | (Raise e, now1, es1) => (Raise e, now1, es1)
  end.
Proof. reflexivity. Qed.

Lemma main_loop_snoc cfg r rs :
  forall b now,
  main_loop cfg (rs ++ [r]) b now =
  match main_loop cfg rs b now with
  | (Ok b1, now1, es1) =>
      match loop_body cfg r b1 now1 with
      | (x, now2, es2) => (x, now2, es1 ++ es2)
      end
  | (Raise e, now1, es1) => (Raise e, now1, es1)
  end.
Proof.
  induction rs as [| r0 rs IH]; intros b now.
  - cbn [app]. rewrite main_loop_cons. cbn [main_loop ret].
    destruct (loop_body cfg r b now) as [[[b1 | e] now1] es1];
      [rewrite app_nil_r |]; reflexivity.
  - cbn [app]. rewrite !main_loop_cons.
    destruct (loop_body cfg r0 b now) as [[[b1 | e] now1] es1];
      [| reflexivity].
    rewrite IH.
    destruct (main_loop cfg rs b1 now1) as [[[b2 | e] now2] es2];
      [| reflexivity].
    destruct (loop_body cfg r b2 now2) as [[x now3] es3].
    rewrite app_assoc. reflexivity.
Qed.

Lemma in_loop_body_tail_sleeping cfg b start stop s u :
  In (Logged INFO (Sleeping s u)) (loop_body_tail cfg b start stop) ->
  s = fib (adjust cfg b (stop - start)%Q).
Proof.
  unfold loop_body_tail. simpl.
  intros [H | [H | [H | []]]]; try discriminate H.
  injection H as <- _. reflexivity.
Qed.

Lemma in_bal_chunk_events_sleeping cfg r s0 s u :
  ~ In (Logged INFO (Sleeping s u)) (bal_chunk_events cfg r s0).
Proof.
  unfold bal_chunk_events, after_balance_events.
  destruct (negb (balance_status r =? 0)); simpl; intuition discriminate.
Qed.

Lemma main_loop_below_max cfg rs :
  forall b now,
  below_max cfg b ->
  (forall b', outcome (main_loop cfg rs b now) = Ok b' -> below_max cfg b') /\
  (forall s u, In (Logged INFO (Sleeping s u))
                  (events (main_loop cfg rs b now)) ->
               1 <= s < MAX_SLEEP cfg).
Proof.
  induction rs as [| r rs IH]; intros b now Hb.
  - split.
    + intros b' H. injection H as <-. exact Hb.
    + intros s u [].
  - rewrite main_loop_cons.
    destruct (loop_body_cases cfg r b now) as [e es Hg Hs Hl | s0].
    + split; [intros b' H; discriminate H |].
      intros s u Hin. exfalso. exact (Hl s u Hin).
    + pose proof (adjust_below_max cfg b (bal_chunk_end r now - now)%Q Hb)
        as Hb1.
      specialize (IH _ (bal_chunk_end r now
                        + inject_Z (fib (adjust cfg b
                                           (bal_chunk_end r now - now)%Q)))%Q
                    Hb1).
      destruct IH as [IHb IHs].
      destruct (main_loop cfg rs _ _) as [[x now2] es2].
      split; [exact IHb |].
      intros s u Hin. unfold events in Hin. cbn [snd] in Hin.
      apply in_app_or in Hin as [Hin | Hin]; [| exact (IHs s u Hin)].
      apply in_app_or in Hin as [Hin | Hin].
      * exfalso. exact (in_bal_chunk_events_sleeping _ _ _ _ _ Hin).
      * apply in_loop_body_tail_sleeping in Hin. subst s.
        destruct Hb1 as [_ Hlt]. pose proof (fib_ge_1 (adjust cfg b
          (bal_chunk_end r now - now)%Q)). lia.
Qed.

(** The indices a run goes through are those of [final], for the
    durations of its iterations. *)
Lemma main_loop_index_is_final cfg rs :
  forall b now b',
  outcome (main_loop cfg rs b now) = Ok b' ->
  exists durations,
    length durations = length rs /\ b' = final cfg b durations.
Proof.
  induction rs as [| r rs IH]; intros b now b'.
  - intros H. injection H as <-. exists []. split; reflexivity.
  - rewrite main_loop_cons.
    destruct (loop_body_cases cfg r b now) as [e es Hg Hs Hl | s0];
      [intros H; discriminate H |].
    specialize (IH (adjust cfg b (bal_chunk_end r now - now)%Q)
                  (bal_chunk_end r now
                   + inject_Z (fib (adjust cfg b
                                      (bal_chunk_end r now - now)%Q)))%Q
                  b').
    destruct (main_loop cfg rs _ _) as [[x now2] es2].
    intros H. destruct (IH H) as (ds & Hlen & Hb).
    exists ((bal_chunk_end r now - now)%Q :: ds).
    split; [cbn [length]; rewrite Hlen; reflexivity | exact Hb].
Qed.

Lemma loop_body_ends_with_sleep cfg r b now b' :
  outcome (loop_body cfg r b now) = Ok b' ->
  exists es, events (loop_body cfg r b now)
             = es ++ [Slept (inject_Z (fib b'))].
Proof.
  destruct (loop_body_cases cfg r b now) as [e es Hg Hs Hl | s0];
    intros H; [discriminate H |].
  injection H as <-. unfold events, loop_body_tail. cbn [snd].
  eexists (_ ++ [_; _]). rewrite <- app_assoc. reflexivity.
Qed.

(** C9: with [MAX_SLEEP > 1], every index reached from 0 has
    [fib index < MAX_SLEEP]; a run that is still going after its last
    iteration has just slept [fib backoff] seconds, which is less than
    [MAX_SLEEP], and so is every sleep announced by [fib_sleep] during the
    run. *)
Theorem adaptive_sleep_below_max
  (cfg : config) (rs : list response) (r : response) (now : Q) :
  1 < MAX_SLEEP cfg ->
  (forall durations, fib (final cfg 0 durations) < MAX_SLEEP cfg) /\
  (forall b, outcome (main cfg (rs ++ [r]) now) = Ok b ->
     0 <= b /\ fib b < MAX_SLEEP cfg /\
     exists es, events (main cfg (rs ++ [r]) now)
                = es ++ [Slept (inject_Z (fib b))]) /\
  (forall s u, In (Logged INFO (Sleeping s u))
                  (events (main cfg (rs ++ [r]) now)) ->
               s < MAX_SLEEP cfg).
Proof.
  intros Hmax. pose proof (below_max_0 cfg Hmax) as H0.
  split; [| split].
  - intros ds. apply (final_below_max cfg ds 0 H0).
  - intros b Hb.
    destruct (main_loop_below_max cfg (rs ++ [r]) 0 now H0) as [Hinv _].
    destruct (Hinv b Hb) as [Hnn Hlt]. split; [exact Hnn |].
    split; [exact Hlt |].
    revert Hb. unfold main. rewrite main_loop_snoc.
    destruct (main_loop cfg rs 0 now) as [[[b1 | e] now1] es1];
      [| intros Hb; discriminate Hb].
    pose proof (loop_body_ends_with_sleep cfg r b1 now1 b) as Hend.
    destruct (loop_body cfg r b1 now1) as [[x now2] es2].
    unfold outcome, events in *. cbn [fst snd] in *.
    intros Hb. destruct (Hend Hb) as [es Hes].
    exists (es1 ++ es). rewrite Hes, app_assoc. reflexivity.
  - intros s u Hin.
    destruct (main_loop_below_max cfg (rs ++ [r]) 0 now H0) as [_ Hs].
    apply (Hs s u Hin).
Qed.

Lemma adaptive_sleep_below_max_witness :
  1 < MAX_SLEEP shipped_config /\
  fib (final shipped_config 0 (repeat 61%Q 40)) < MAX_SLEEP shipped_config.
Proof.
  split; [reflexivity |].
  apply (proj1 (adaptive_sleep_below_max shipped_config [] slow_success 0%Q
                  eq_refl)).
Defined.

(** ** Time between balance commands *)

Lemma spaced_app p es1 es2 :
  spaced p (es1 ++ es2) =
  match spaced p es1 with
  | Some p' => spaced p' es2
  | None => None
  end.
Proof.
  revert p. induction es1 as [| e es1 IH]; intros p; [reflexivity |].
  destruct e; cbn [app spaced]; try apply IH.
  destruct p; [reflexivity | apply IH].
Qed.

Lemma spaced_quiet p es :
  (forall c, ~ In (Getstatusoutput c) es) ->
  (forall q, ~ In (Slept q) es) ->
  spaced p es = Some p.
Proof.
  induction es as [| e es IH]; intros Hg Hs; [reflexivity |].
  assert (IH' : spaced p es = Some p).
  { apply IH; intros x Hin; [apply (Hg x) | apply (Hs x)]; right; exact Hin. }
  destruct e; cbn [spaced]; try exact IH'.
  - exfalso. apply (Hg cmd). left. reflexivity.
  - exfalso. apply (Hs seconds). left. reflexivity.
Qed.

Lemma Qle_bool_1_fib (n : Z) : Qle_bool 1 (inject_Z (fib n)) = true.
Proof.
  apply Qle_bool_iff. change 1%Q with (inject_Z 1).
  rewrite <- Zle_Qle. apply fib_ge_1.
Qed.

Lemma spaced_iteration cfg r b now s :
  spaced false (bal_chunk_events cfg r s
                ++ loop_body_tail cfg b now (bal_chunk_end r now))
  = Some false.
Proof.
  unfold bal_chunk_events, after_balance_events, loop_body_tail.
  destruct (negb (balance_status r =? 0)); cbn [app spaced];
    rewrite Qle_bool_1_fib; reflexivity.
Qed.

Lemma spaced_main_loop cfg rs :
  forall b now, spaced false (events (main_loop cfg rs b now)) = Some false.
Proof.
  induction rs as [| r rs IH]; intros b now; [reflexivity |].
  rewrite main_loop_cons.
  destruct (loop_body_cases cfg r b now) as [e es Hg Hs Hl | s0].
  - apply spaced_quiet; assumption.
  - specialize (IH (adjust cfg b (bal_chunk_end r now - now)%Q)
                  (bal_chunk_end r now
                   + inject_Z (fib (adjust cfg b
                                      (bal_chunk_end r now - now)%Q)))%Q).
    destruct (main_loop cfg rs _ _) as [[x now2] es2].
    unfold events in *. cbn [snd] in *.
    rewrite spaced_app, spaced_iteration. exact IH.
Qed.

Lemma spaced_pending_sleep mid c es :
  spaced true (mid ++ Getstatusoutput c :: es) <> None ->
  exists q, In (Slept q) mid /\ (1 <= q)%Q.
Proof.
  induction mid as [| e mid IH]; cbn [app spaced].
  - intros H. exfalso. apply H. reflexivity.
  - destruct e; cbn [spaced]; intros H.
    + destruct (IH H) as (q & Hin & Hq). exists q. split; [right |]; auto.
    + exfalso. apply H. reflexivity.
    + destruct (IH H) as (q & Hin & Hq). exists q. split; [right |]; auto.
    + destruct (Qle_bool 1 seconds) eqn:E.
      * exists seconds. split; [left; reflexivity |].
        apply Qle_bool_iff, E.
      * destruct (IH H) as (q & Hin & Hq). exists q. split; [right |]; auto.
Qed.

Lemma spaced_between p e1 c1 mid c2 e2 :
  spaced p (e1 ++ Getstatusoutput c1 :: mid ++ Getstatusoutput c2 :: e2)
  <> None ->
  exists q, In (Slept q) mid /\ (1 <= q)%Q.
Proof.
  rewrite spaced_app. destruct (spaced p e1) as [p1 |]; [| congruence].
  cbn [spaced]. destruct p1; [congruence |].
  apply spaced_pending_sleep.
Qed.

(** An iteration that returns has gone through [bal_chunk] to its end. *)
Lemma loop_body_Ok_inv cfg r b t b' :
  outcome (loop_body cfg r b t) = Ok b' ->
  exists s,
    bal_chunk cfg r t = (Ok tt, bal_chunk_end r t, bal_chunk_events cfg r s) /\
    b' = adjust cfg b (bal_chunk_end r t - t)%Q /\
    loop_body cfg r b t
    = (Ok b', (bal_chunk_end r t + inject_Z (fib b'))%Q,
       bal_chunk_events cfg r s
       ++ loop_body_tail cfg b t (bal_chunk_end r t)).
Proof.
  intros Hout.
  destruct (fi_show_devices r) as [| d ds] eqn:Ed.
  - rewrite (loop_body_raises _ _ _ _ _ _ _
               (bal_chunk_no_device cfg r t Ed)) in Hout.
    discriminate Hout.
  - assert (Hne : fi_show_devices r <> []) by congruence.
    destruct (stdev (map unallocated_of (fi_show_devices r))) as [s | e] eqn:E.
    + destruct (Qltb s (inject_Z (STDEV_LIMIT cfg))) eqn:Hlt.
      * rewrite (loop_body_raises _ _ _ _ _ _ _
                   (bal_chunk_exits cfg r t s Hne E Hlt)) in Hout.
        discriminate Hout.
      * rewrite (loop_body_balances cfg r b t s Hne E Hlt) in Hout |- *.
        injection Hout as <-. exists s.
        split; [apply bal_chunk_balances; assumption |].
        split; reflexivity.
    + rewrite (loop_body_raises _ _ _ _ _ _ _
                 (bal_chunk_stdev_raises cfg r t e Hne E)) in Hout.
      discriminate Hout.
Qed.

Lemma Qle_1_fib (n : Z) : (1 <= inject_Z (fib n))%Q.
Proof. apply Qle_bool_iff, Qle_bool_1_fib. Qed.

(** C10: [fib] is at least 1 everywhere and exactly 1 up to index 1.  In
    every iteration that returns, the balance command has returned when
    [bal_chunk] does, and from then to the end of the iteration, where the
    next one starts, the clock advances by the sleep of [fib backoff]
    seconds, one second at least; so does it between the return of a
    balance command and the start of the next, and in the trace of a run a
    sleep of at least one second lies between any two balance commands. *)
Theorem at_least_a_second_between_balances
  (cfg : config) (rs : list response) (now : Q) :
  (forall n, 1 <= fib n) /\
  (forall n, n <= 1 -> fib n = 1) /\
  (forall r b t b',
     outcome (loop_body cfg r b t) = Ok b' ->
     (exists es, events (loop_body cfg r b t)
                 = es ++ [Slept (inject_Z (fib b'))]) /\
     outcome (bal_chunk cfg r t) = Ok tt /\
     (clock (bal_chunk cfg r t)
      == t + fi_show_elapsed r + balance_elapsed r
         + (if negb (balance_status r =? 0) then 30 else 0))%Q /\
     clock (loop_body cfg r b t)
     = (clock (bal_chunk cfg r t) + inject_Z (fib b'))%Q /\
     (clock (bal_chunk cfg r t) + 1 <= clock (loop_body cfg r b t))%Q /\
     (forall c r',
        (0 <= fi_show_elapsed r')%Q ->
        (clock (getstatusoutput c r
                  (clock (getoutput (fi_show_cmd cfg) r t))) + 1
         <= clock (getoutput (fi_show_cmd cfg) r'
                     (clock (loop_body cfg r b t))))%Q)) /\
  (forall pre r b',
     outcome (main cfg (pre ++ [r]) now) = Ok b' ->
     (clock (bal_chunk cfg r (clock (main cfg pre now))) + 1
      <= clock (main cfg (pre ++ [r]) now))%Q /\
     forall r',
       main cfg ((pre ++ [r]) ++ [r']) now
       = (outcome (loop_body cfg r' b' (clock (main cfg (pre ++ [r]) now))),
          clock (loop_body cfg r' b' (clock (main cfg (pre ++ [r]) now))),
          events (main cfg (pre ++ [r]) now)
          ++ events (loop_body cfg r' b'
                       (clock (main cfg (pre ++ [r]) now))))) /\
  (forall e1 c1 mid c2 e2,
     events (main cfg rs now)
     = e1 ++ Getstatusoutput c1 :: mid ++ Getstatusoutput c2 :: e2 ->
     exists q, In (Slept q) mid /\ (1 <= q)%Q).
Proof.
  assert (Hiter : forall r b t b',
            outcome (loop_body cfg r b t) = Ok b' ->
            outcome (bal_chunk cfg r t) = Ok tt /\
            clock (bal_chunk cfg r t) = bal_chunk_end r t /\
            clock (loop_body cfg r b t)
            = (clock (bal_chunk cfg r t) + inject_Z (fib b'))%Q).
  { intros r b t b' Hout.
    destruct (loop_body_Ok_inv cfg r b t b' Hout) as (s & Hbal & _ & Hloop).
    rewrite Hbal, Hloop. repeat split. }
  split; [exact fib_ge_1 |].
  split; [intros n Hn; apply fib_small; lia |].
  split; [| split].
  - intros r b t b' Hout.
    destruct (Hiter r b t b' Hout) as (Hok & Hend & Hclock).
    split; [apply loop_body_ends_with_sleep, Hout |].
    split; [exact Hok |].
    pose proof (Qle_1_fib b') as Hfib.
    split; [| split; [exact Hclock | split]].
    + rewrite Hend. unfold bal_chunk_end.
      destruct (negb (balance_status r =? 0)); ring.
    + rewrite Hclock. Lqa.lra.
    + intros c r' Hpos. rewrite Hclock, Hend.
      unfold getstatusoutput, getoutput, clock, bal_chunk_end. cbn [fst snd].
      destruct (negb (balance_status r =? 0)); Lqa.lra.
  - intros pre r b' Hout. unfold main in *.
    rewrite main_loop_snoc in Hout |- *.
    destruct (main_loop cfg pre 0 now) as [[[b1 | e] t1] es1] eqn:Epre;
      [| discriminate Hout].
    destruct (loop_body cfg r b1 t1) as [[x t2] es2] eqn:Er.
    unfold outcome in Hout. cbn [fst] in Hout. subst x.
    assert (Hout' : outcome (loop_body cfg r b1 t1) = Ok b')
      by (rewrite Er; reflexivity).
    destruct (Hiter r b1 t1 b' Hout') as (_ & Hend & Hclock).
    rewrite Er in Hclock. change (clock (Ok b', t2, es2)) with t2 in Hclock.
    pose proof (Qle_1_fib b') as Hfib.
    change (clock (Ok b1, t1, es1)) with t1.
    change (clock (Ok b', t2, es1 ++ es2)) with t2.
    change (events (Ok b', t2, es1 ++ es2)) with (es1 ++ es2).
    split.
    { rewrite Hclock. generalize (clock (bal_chunk cfg r t1)). intros q.
      Lqa.lra. }
    intros r'. rewrite main_loop_snoc.
    pose proof (main_loop_snoc cfg r pre 0 now) as Hsnoc.
    rewrite Epre, Er in Hsnoc. rewrite Hsnoc.
    destruct (loop_body cfg r' b' t2) as [[x3 t3] es3]. reflexivity.
  - intros e1 c1 mid c2 e2 E.
    apply (spaced_between false e1 c1 mid c2 e2).
    rewrite <- E. unfold main. rewrite spaced_main_loop. discriminate.
Qed.

Lemma at_least_a_second_between_balances_witness :
  outcome (loop_body shipped_config quick_success 0 0%Q) = Ok 0 /\
  (clock (bal_chunk shipped_config quick_success 0%Q) + 1
   <= clock (loop_body shipped_config quick_success 0 0%Q))%Q /\
  exists e1 c1 mid c2 e2,
    events (main shipped_config [quick_success; quick_success] 0%Q)
    = e1 ++ Getstatusoutput c1 :: mid ++ Getstatusoutput c2 :: e2 /\
    exists q, In (Slept q) mid /\ (1 <= q)%Q.
Proof.
  destruct (at_least_a_second_between_balances
              shipped_config [quick_success; quick_success] 0%Q)
    as (_ & _ & Hiter & _ & Htrace).
  assert (Hout : outcome (loop_body shipped_config quick_success 0 0%Q)
                 = Ok 0) by (vm_compute; reflexivity).
  split; [exact Hout |].
  split.
  { destruct (Hiter quick_success 0 0%Q 0 Hout) as (_ & _ & _ & _ & Hgap & _).
    exact Hgap. }
  pose (ev := events (main shipped_config [quick_success; quick_success] 0%Q)).
  exists (firstn 3 ev).
  exists "btrfs balance start -ddevid=3,limit=1 /media/btrfs"%string.
  exists (firstn 7 (skipn 4 ev)).
  exists "btrfs balance start -ddevid=3,limit=1 /media/btrfs"%string.
  exists (skipn 12 ev).
  assert (E : ev = firstn 3 ev
                   ++ Getstatusoutput
                        "btrfs balance start -ddevid=3,limit=1 /media/btrfs"
                   :: firstn 7 (skipn 4 ev)
                   ++ Getstatusoutput
                        "btrfs balance start -ddevid=3,limit=1 /media/btrfs"
                   :: skipn 12 ev) by (vm_compute; reflexivity).
  split; [exact E |].
  exact (Htrace _ _ _ _ _ E).
Defined.

(** ** Binary64 *)

Lemma Qltb_lt (x y : Q) : Qltb x y = true <-> (x < y)%Q.
Proof.
  unfold Qltb. rewrite negb_true_iff, <- not_true_iff_false, Qle_bool_iff.
  split; [apply Qnot_le_lt | apply Qlt_not_le].
Qed.
Lemma Qltb_ge (x y : Q) : Qltb x y = false <-> (y <= x)%Q.
Proof.
  unfold Qltb. rewrite negb_false_iff. apply Qle_bool_iff.
Qed.

Lemma two_neq_0 : ~ (2 == 0)%Q.
Proof. discriminate. Qed.

Lemma Qpow2_pos (e : Z) : (0 < 2 ^ e)%Q.
Proof. apply Qpower_0_lt. reflexivity. Qed.

Lemma Qpow2_succ (e : Z) : (2 ^ (e + 1) == 2 * 2 ^ e)%Q.
Proof. rewrite Qpower_plus by apply two_neq_0. rewrite Qpower_1_r. ring. Qed.

Lemma Qpow2_Z (n : Z) : 0 <= n -> (2 ^ n == inject_Z (2 ^ n))%Q.
Proof. intros H. rewrite Zpower_Qpower by exact H. reflexivity. Qed.

Lemma Qlog2_bounds (q : Q) :
  (0 < q)%Q ->
  let k := Z.log2 (Qnum q) - Z.log2 (Zpos (Qden q)) in
  (2 ^ (k - 1) <= q)%Q /\ (q < 2 ^ (k + 1))%Q.
Proof.
  intros Hq k. destruct q as [n d]. cbn [Qnum Qden] in *.
  assert (Hn : 0 < n) by (unfold Qlt in Hq; cbn in Hq; lia).
  pose proof (Z.log2_spec n Hn) as [Hn1 Hn2].
  pose proof (Z.log2_spec (Zpos d) ltac:(lia)) as [Hd1 Hd2].
  pose proof (Z.log2_nonneg n) as Ha. pose proof (Z.log2_nonneg (Zpos d)) as Hb.
  set (a := Z.log2 n) in *. set (b := Z.log2 (Zpos d)) in *.
  assert (Hk1 : (2 ^ (k - 1) == inject_Z (2 ^ a) / inject_Z (2 ^ Z.succ b))%Q).
  { subst k. replace (a - b - 1) with (a - Z.succ b) by lia.
    rewrite Qpower_minus by apply two_neq_0.
    rewrite !Qpow2_Z by lia. reflexivity. }
  assert (Hk2 : (2 ^ (k + 1) == inject_Z (2 ^ Z.succ a) / inject_Z (2 ^ b))%Q).
  { subst k. replace (a - b + 1) with (Z.succ a - b) by lia.
    rewrite Qpower_minus by apply two_neq_0.
    rewrite !Qpow2_Z by lia. reflexivity. }
  rewrite Hk1, Hk2. rewrite (Qmake_Qdiv n d).
  assert (Hpa : 0 < 2 ^ a) by (apply Z.pow_pos_nonneg; lia).
  assert (Hpb : 0 < 2 ^ b) by (apply Z.pow_pos_nonneg; lia).
  assert (Hpa' : 0 < 2 ^ Z.succ a) by (apply Z.pow_pos_nonneg; lia).
  assert (Hpb' : 0 < 2 ^ Z.succ b) by (apply Z.pow_pos_nonneg; lia).
  split.
  - apply Qle_shift_div_l; [change 0%Q with (inject_Z 0); rewrite <- Zlt_Qlt; lia |].
    unfold Qdiv. rewrite <- Qmult_assoc, (Qmult_comm (/ _)), Qmult_assoc.
    apply Qle_shift_div_r; [change 0%Q with (inject_Z 0); rewrite <- Zlt_Qlt; lia |].
    rewrite <- !inject_Z_mult, <- Zle_Qle. nia.
  - apply Qlt_shift_div_l; [change 0%Q with (inject_Z 0); rewrite <- Zlt_Qlt; lia |].
    unfold Qdiv. rewrite <- Qmult_assoc, (Qmult_comm (/ _)), Qmult_assoc.
    apply Qlt_shift_div_r; [change 0%Q with (inject_Z 0); rewrite <- Zlt_Qlt; lia |].
    rewrite <- !inject_Z_mult, <- Zlt_Qlt. nia.
Qed.

Lemma Qlog2_spec (q : Q) :
  (0 < q)%Q -> (2 ^ Qlog2 q <= q)%Q /\ (q < 2 ^ (Qlog2 q + 1))%Q.
Proof.
  intros Hq. destruct (Qlog2_bounds q Hq) as [H1 H2]. unfold Qlog2.
  set (k := Z.log2 (Qnum q) - Z.log2 (Zpos (Qden q))) in *.
  destruct (Qltb q (2 ^ k)) eqn:E.
  - apply Qltb_lt in E. replace (k - 1 + 1) with k by lia. split; assumption.
  - apply Qltb_ge in E. split; assumption.
Qed.

Lemma Q2R_0 : Q2R 0 = 0%R.
Proof. unfold Q2R. cbn. lra. Qed.

Lemma Q2R_inject_Z (z : Z) : Q2R (inject_Z z) = IZR z.
Proof. unfold Q2R, inject_Z. cbn [Qnum Qden]. lra. Qed.

Lemma Q2R_half : Q2R (1 # 2) = (1 / 2)%R.
Proof. unfold Q2R. cbn. lra. Qed.

Lemma Zsqrt_Qfloor (y : Q) :
  (0 <= y)%Q ->
  let m0 := Z.sqrt (Qfloor y) in
  0 <= m0 /\
  (inject_Z (m0 * m0) <= y)%Q /\ (y < inject_Z ((m0 + 1) * (m0 + 1)))%Q.
Proof.
  intros Hy m0.
  assert (Hfl : 0 <= Qfloor y).
  { change 0 with (Qfloor 0). apply Qfloor_resp_le, Hy. }
  pose proof (Z.sqrt_spec (Qfloor y) Hfl) as [H1 H2]. fold m0 in H1, H2.
  split; [apply Z.sqrt_nonneg |]. split.
  - eapply Qle_trans; [| apply Qfloor_le]. rewrite <- Zle_Qle. exact H1.
  - eapply Qlt_le_trans; [apply Qlt_floor |]. rewrite <- Zle_Qle.
    unfold Z.succ in H2. lia.
Qed.

(** The significand is an integer nearest to the square root of the scaled
    radicand. *)
Lemma sqrt_significand_nearest (v : Q) (e : Z) :
  (0 <= v)%Q ->
  let s := sqrt (Q2R (v / 2 ^ (2 * e))) in
  (- (1 / 2) <= s - IZR (sqrt_significand v e) <= 1 / 2)%R /\
  0 <= sqrt_significand v e.
Proof.
  intros Hv s. unfold sqrt_significand.
  set (y := (v / 2 ^ (2 * e))%Q) in *.
  assert (Hy : (0 <= y)%Q).
  { unfold y, Qdiv. apply Qmult_le_0_compat; [exact Hv |].
    apply Qinv_le_0_compat, Qlt_le_weak, Qpow2_pos. }
  destruct (Zsqrt_Qfloor y Hy) as (Hm0 & Hlo & Hhi).
  set (m0 := Z.sqrt (Qfloor y)) in *.
  apply Qle_Rle in Hy, Hlo. apply Qlt_Rlt in Hhi.
  rewrite Q2R_0 in Hy. rewrite Q2R_inject_Z, mult_IZR in Hlo, Hhi.
  rewrite plus_IZR in Hhi.
  pose proof (sqrt_pos (Q2R y)) as Hs0. pose proof (sqrt_def (Q2R y) Hy) as Hs2.
  fold s in Hs0, Hs2. apply IZR_le in Hm0.
  assert (Hs_lo : (IZR m0 <= s)%R) by nra.
  assert (Hs_hi : (s < IZR m0 + 1)%R) by nra.
  assert (Hc : Q2R ((inject_Z m0 + (1 # 2)) * (inject_Z m0 + (1 # 2)))
               = ((IZR m0 + 1 / 2) * (IZR m0 + 1 / 2))%R).
  { rewrite Q2R_mult, Q2R_plus, Q2R_inject_Z, Q2R_half. reflexivity. }
  assert (Hm0' : 0 <= m0) by (apply le_IZR; exact Hm0).
  destruct (Qcompare_spec y ((inject_Z m0 + (1 # 2)) * (inject_Z m0 + (1 # 2))))
    as [H | H | H].
  - apply Qeq_eqR in H. rewrite Hc in H.
    assert (Hs : s = (IZR m0 + 1 / 2)%R) by nra.
    destruct (Z.even m0); split; try lia;
      rewrite ?plus_IZR; lra.
  - apply Qlt_Rlt in H. rewrite Hc in H.
    assert (Hs : (s < IZR m0 + 1 / 2)%R) by nra.
    split; [lra | lia].
  - apply Qlt_Rlt in H. rewrite Hc in H.
    assert (Hs : (IZR m0 + 1 / 2 < s)%R) by nra.
    split; [rewrite plus_IZR; lra | lia].
Qed.

Lemma Q2R_pow2_pos (e : Z) : (0 < Q2R (2 ^ e))%R.
Proof. rewrite <- Q2R_0. apply Qlt_Rlt, Qpow2_pos. Qed.

Lemma Qpow2_double (e : Z) : (2 ^ (2 * e) == 2 ^ e * 2 ^ e)%Q.
Proof.
  replace (2 * e) with (e + e) by lia. apply Qpower_plus, two_neq_0.
Qed.

(** The square root of [v] is the square root of the scaled radicand times
    the spacing. *)
Lemma sqrt_scaled (v : Q) (e : Z) :
  (0 <= v)%Q ->
  sqrt (Q2R v) = (sqrt (Q2R (v / 2 ^ (2 * e))) * Q2R (2 ^ e))%R.
Proof.
  intros Hv. pose proof (Q2R_pow2_pos e) as Hp.
  assert (Hy : (0 <= Q2R (v / 2 ^ (2 * e)))%R).
  { rewrite <- Q2R_0. apply Qle_Rle. unfold Qdiv.
    apply Qmult_le_0_compat; [exact Hv |].
    apply Qinv_le_0_compat, Qlt_le_weak, Qpow2_pos. }
  assert (E : Q2R v = (Q2R (v / 2 ^ (2 * e)) * (Q2R (2 ^ e) * Q2R (2 ^ e)))%R).
  { rewrite <- !Q2R_mult. apply Qeq_eqR. rewrite <- Qpow2_double.
    field. apply Qpower_not_0, two_neq_0. }
  rewrite E at 1. rewrite sqrt_mult by nra.
  rewrite sqrt_square by lra. reflexivity.
Qed.

Lemma sqrt_binary64_proper (v v' : Q) :
  (v == v')%Q -> sqrt_binary64 v = sqrt_binary64 v'.
Proof.
  intros E. unfold sqrt_binary64.
  rewrite (Qred_complete v v' E).
  replace (Qle_bool v 0) with (Qle_bool v' 0); [reflexivity |].
  rewrite E. reflexivity.
Qed.

Lemma sqrt_binary64_pos (v : Q) :
  (0 < v)%Q ->
  sqrt_binary64 v
  = (inject_Z (sqrt_significand (Qred v) (sqrt_exponent (Qred v)))
     * 2 ^ sqrt_exponent (Qred v))%Q.
Proof.
  intros Hv. unfold sqrt_binary64.
  destruct (Qle_bool v 0) eqn:E; [| reflexivity].
  apply Qle_bool_iff in E. exfalso. apply (Qlt_not_le _ _ Hv E).
Qed.

Lemma sqrt_binary64_nonpos (v : Q) : (v <= 0)%Q -> sqrt_binary64 v = 0%Q.
Proof.
  intros Hv. unfold sqrt_binary64.
  apply Qle_bool_iff in Hv. rewrite Hv. reflexivity.
Qed.

(** The scaled radicand lies below [2^106]; from [2^104] on when the
    exponent is not clamped. *)
Lemma sqrt_scaled_range (r : Q) :
  (0 < r)%Q ->
  let e := sqrt_exponent r in
  let y := (r / 2 ^ (2 * e))%Q in
  (y < inject_Z (2 ^ 53 * 2 ^ 53))%Q /\
  (-1074 < e -> (inject_Z (2 ^ 52 * 2 ^ 52) <= y)%Q).
Proof.
  intros Hr e y. destruct (Qlog2_spec r Hr) as [Hlo Hhi].
  set (k := Qlog2 r) in *.
  set (e0 := (k - 104) / 2).
  assert (He0 : 2 * e0 <= k - 104 < 2 * e0 + 2).
  { pose proof (Z.div_mod (k - 104) 2 ltac:(lia)) as Hdm.
    pose proof (Z.mod_pos_bound (k - 104) 2 ltac:(lia)) as Hmb.
    fold e0 in Hdm. lia. }
  assert (He : e = Z.max e0 (-1074)) by reflexivity.
  pose proof (Qpow2_pos (2 * e)) as Hp.
  split.
  - unfold y. apply Qlt_shift_div_r; [exact Hp |].
    eapply Qlt_le_trans; [exact Hhi |].
    change (2 ^ 53 * 2 ^ 53) with (2 ^ 106). rewrite <- (Qpow2_Z 106) by lia.
    rewrite <- Qpower_plus by apply two_neq_0.
    apply Qpower_le_compat_l; [lia | discriminate].
  - intros Hbig. assert (e = e0) by lia. unfold y.
    apply Qle_shift_div_l; [exact Hp |].
    eapply Qle_trans; [| exact Hlo].
    change (2 ^ 52 * 2 ^ 52) with (2 ^ 104). rewrite <- (Qpow2_Z 104) by lia.
    rewrite <- Qpower_plus by apply two_neq_0.
    apply Qpower_le_compat_l; [lia | discriminate].
Qed.

(** What [sqrt_binary64] returns for a positive radicand: a multiple
    [m * 2^e] of the spacing [2^e], with [0 <= m <= 2^53], nearest to the
    square root among all multiples of the spacing; and the spacing is the
    one of binary64 at the square root: [2^52 <= sqrt v / 2^e < 2^53],
    unless [e] is the least exponent, -1074. *)
Lemma sqrt_binary64_spec (v : Q) :
  (0 < v)%Q ->
  let e := sqrt_exponent (Qred v) in
  let m := sqrt_significand (Qred v) e in
  let x := sqrt (Q2R v) in
  let p := Q2R (2 ^ e) in
  Q2R (sqrt_binary64 v) = (IZR m * p)%R /\
  0 <= m <= 2 ^ 53 /\
  -1074 <= e /\
  (x < IZR (2 ^ 53) * p)%R /\
  (-1074 < e -> (IZR (2 ^ 52) * p <= x)%R) /\
  (forall j : Z, (Rabs (x - IZR m * p) <= Rabs (x - IZR j * p))%R).
Proof.
  intros Hv e m x p.
  assert (Hr : (0 < Qred v)%Q) by (rewrite Qred_correct; exact Hv).
  assert (Hr0 : (0 <= Qred v)%Q) by (apply Qlt_le_weak, Hr).
  assert (Hx : x = (sqrt (Q2R (Qred v / 2 ^ (2 * e))) * p)%R).
  { unfold x. rewrite <- (Qeq_eqR _ _ (Qred_correct v)).
    apply sqrt_scaled, Hr0. }
  destruct (sqrt_significand_nearest (Qred v) e Hr0) as [Hnear Hm0].
  destruct (sqrt_scaled_range (Qred v) Hr) as [Hhi Hlo].
  fold e in Hhi, Hlo. fold m in Hnear, Hm0.
  set (y := (Qred v / 2 ^ (2 * e))%Q) in *.
  set (s := sqrt (Q2R y)) in *.
  assert (Hy : (0 <= Q2R y)%R).
  { rewrite <- Q2R_0. apply Qle_Rle. unfold y, Qdiv.
    apply Qmult_le_0_compat; [exact Hr0 |].
    apply Qinv_le_0_compat, Qlt_le_weak, Qpow2_pos. }
  pose proof (sqrt_pos (Q2R y)) as Hs0. pose proof (sqrt_def (Q2R y) Hy) as Hs2.
  fold s in Hs0, Hs2.
  pose proof (Q2R_pow2_pos e) as Hp. fold p in Hp.
  apply Qlt_Rlt in Hhi. rewrite Q2R_inject_Z, mult_IZR in Hhi.
  assert (H53 : (0 < IZR (2 ^ 53))%R) by (apply IZR_lt; reflexivity).
  assert (H52 : (0 < IZR (2 ^ 52))%R) by (apply IZR_lt; reflexivity).
  assert (Hs_hi : (s < IZR (2 ^ 53))%R) by nra.
  split; [| split; [| split; [| split; [| split]]]].
  - rewrite (sqrt_binary64_pos v Hv). fold e. fold m.
    rewrite Q2R_mult, Q2R_inject_Z. reflexivity.
  - split; [exact Hm0 |].
    assert (Hlt : (IZR m < IZR (2 ^ 53 + 1))%R) by (rewrite plus_IZR; lra).
    apply lt_IZR in Hlt. lia.
  - unfold e, sqrt_exponent. lia.
  - rewrite Hx. nra.
  - intros Hbig. specialize (Hlo Hbig). apply Qle_Rle in Hlo.
    rewrite Q2R_inject_Z, mult_IZR in Hlo.
    assert (Hs_lo : (IZR (2 ^ 52) <= s)%R) by nra.
    rewrite Hx. nra.
  - intros j. rewrite Hx.
    replace (s * p - IZR m * p)%R with ((s - IZR m) * p)%R by ring.
    replace (s * p - IZR j * p)%R with ((s - IZR j) * p)%R by ring.
    rewrite !Rabs_mult, (Rabs_pos_eq p) by lra.
    apply Rmult_le_compat_r; [lra |].
    destruct (Z.eq_dec j m) as [-> | Hne]; [lra |].
    assert (Hfar : (1 / 2 <= Rabs (s - IZR j))%R).
    { destruct (Z_lt_ge_dec j m) as [Hlt | Hge].
      - assert (Hj : (IZR j <= IZR m - 1)%R)
          by (rewrite <- minus_IZR; apply IZR_le; lia).
        rewrite Rabs_pos_eq; lra.
      - assert (Hj : (IZR m + 1 <= IZR j)%R)
          by (rewrite <- plus_IZR; apply IZR_le; lia).
        rewrite Rabs_left1; lra. }
    eapply Rle_trans; [apply Rabs_le; exact Hnear | exact Hfar].
Qed.

Lemma Q2R_pow2_nonpos (e : Z) :
  e <= 0 -> (IZR (2 ^ (- e)) * Q2R (2 ^ e) = 1)%R.
Proof.
  intros He. rewrite <- Q2R_inject_Z, <- Q2R_mult.
  replace 1%R with (Q2R 1) by (unfold Q2R; cbn; lra).
  apply Qeq_eqR. rewrite Zpower_Qpower by lia.
  change (inject_Z 2) with 2%Q.
  rewrite <- Qpower_plus by apply two_neq_0.
  replace (- e + e) with 0 by lia. reflexivity.
Qed.

Lemma Q2R_pow2_ge_2 (e : Z) : 0 < e -> (2 <= Q2R (2 ^ e))%R.
Proof.
  intros He. replace 2%R with (Q2R (2 ^ 1)) by (unfold Q2R; cbn; lra).
  apply Qle_Rle, Qpower_le_compat_l; [lia | discriminate].
Qed.

(** Rounding does not cross an integer that a binary64 holds: the value
    returned is on the same side of it as the square root. *)
Lemma sqrt_binary64_vs_integer (v : Q) (L : Z) :
  (0 <= v)%Q ->
  0 <= L <= 2 ^ 53 ->
  let x := sqrt (Q2R v) in
  let f := Q2R (sqrt_binary64 v) in
  ((x <= IZR L)%R -> (f <= IZR L)%R) /\
  ((IZR L <= x)%R -> (IZR L <= f)%R).
Proof.
  intros Hv HL x f.
  assert (HL0 : (0 <= IZR L)%R) by (apply IZR_le; lia).
  assert (HL53 : (IZR L <= IZR (2 ^ 53))%R) by (apply IZR_le; lia).
  destruct (Qlt_le_dec 0 v) as [Hpos | Hzero].
  - destruct (sqrt_binary64_spec v Hpos) as (Hf & Hm & He & Hhi & Hlo & Hnear).
    fold x in Hhi, Hlo, Hnear. fold f in Hf.
    set (e := sqrt_exponent (Qred v)) in *.
    set (m := sqrt_significand (Qred v) e) in *.
    set (p := Q2R (2 ^ e)) in *.
    pose proof (Q2R_pow2_pos e) as Hp. fold p in Hp.
    rewrite <- Hf in Hnear.
    destruct (Z_le_gt_dec e 0) as [Hneg | Hbig].
    + (* the integer is a multiple of the spacing *)
      pose proof (Q2R_pow2_nonpos e Hneg) as Hone. fold p in Hone.
      specialize (Hnear (L * 2 ^ (- e))).
      rewrite mult_IZR in Hnear.
      replace (IZR L * IZR (2 ^ (- e)) * p)%R with (IZR L) in Hnear by nra.
      split; intros Hx.
      * rewrite (Rabs_left1 (x - IZR L)) in Hnear by lra.
        destruct (Rle_lt_dec f (IZR L)) as [H | H]; [exact H |].
        rewrite Rabs_left1 in Hnear by lra. lra.
      * rewrite (Rabs_pos_eq (x - IZR L)) in Hnear by lra.
        destruct (Rle_lt_dec (IZR L) f) as [H | H]; [exact H |].
        rewrite Rabs_pos_eq in Hnear by lra. lra.
    + (* the square root is at [2^53] or above *)
      specialize (Hlo ltac:(lia)).
      pose proof (Q2R_pow2_ge_2 e ltac:(lia)) as Hp2. fold p in Hp2.
      assert (H5253 : (IZR (2 ^ 53) = 2 * IZR (2 ^ 52))%R)
        by (rewrite <- mult_IZR; reflexivity).
      assert (H52 : (0 < IZR (2 ^ 52))%R) by (apply IZR_lt; reflexivity).
      assert (Hbase : (IZR (2 ^ 53) <= IZR (2 ^ 52) * p)%R) by nra.
      specialize (Hnear (2 ^ 52)).
      rewrite (Rabs_pos_eq (x - IZR (2 ^ 52) * p)) in Hnear by lra.
      assert (Hfge : (IZR (2 ^ 52) * p <= f)%R).
      { destruct (Rle_lt_dec (IZR (2 ^ 52) * p) f) as [H | H]; [exact H |].
        rewrite Rabs_pos_eq in Hnear by lra. lra. }
      split; intros Hx; [| lra].
      assert (Hxeq : x = (IZR (2 ^ 52) * p)%R) by lra.
      rewrite Hxeq in Hnear.
      replace (IZR (2 ^ 52) * p - IZR (2 ^ 52) * p)%R with 0%R in Hnear by ring.
      destruct (Rle_lt_dec f (IZR (2 ^ 52) * p)) as [H | H]; [lra |].
      rewrite Rabs_left1 in Hnear by lra. lra.
  - unfold f. rewrite (sqrt_binary64_nonpos v Hzero), Q2R_0.
    assert (Hx : x = 0%R).
    { unfold x. apply sqrt_neg_0. rewrite <- Q2R_0. apply Qle_Rle, Hzero. }
    rewrite Hx. split; intros; lra.
Qed.


Lemma Q2R_pow2_split (e e' : Z) :
  e <= e' -> Q2R (2 ^ e') = (IZR (2 ^ (e' - e)) * Q2R (2 ^ e))%R.
Proof.
  intros H. rewrite <- Q2R_inject_Z, <- Q2R_mult. apply Qeq_eqR.
  rewrite Zpower_Qpower by lia. change (inject_Z 2) with 2%Q.
  rewrite <- Qpower_plus by apply two_neq_0.
  replace (e' - e + e) with e' by lia. reflexivity.
Qed.

Lemma Q2R_pow2_Z (n : Z) : 0 <= n -> Q2R (2 ^ n) = IZR (2 ^ n).
Proof.
  intros H. rewrite <- Q2R_inject_Z. apply Qeq_eqR, Qpow2_Z, H.
Qed.

Lemma Q2R_pow2_le (e e' : Z) : e <= e' -> (Q2R (2 ^ e) <= Q2R (2 ^ e'))%R.
Proof.
  intros H. apply Qle_Rle, Qpower_le_compat_l; [exact H | discriminate].
Qed.

(** Above the subnormal range the significand has its leading bit. *)
Lemma sqrt_significand_normal (v : Q) :
  (0 < v)%Q ->
  -1074 < sqrt_exponent (Qred v) ->
  2 ^ 52 <= sqrt_significand (Qred v) (sqrt_exponent (Qred v)).
Proof.
  intros Hv He.
  destruct (sqrt_binary64_spec v Hv) as (_ & Hm & _ & _ & Hlo & Hnear).
  set (e := sqrt_exponent (Qred v)) in *.
  set (m := sqrt_significand (Qred v) e) in *.
  pose proof (Q2R_pow2_pos e) as Hp. set (p := Q2R (2 ^ e)) in *.
  specialize (Hlo He). specialize (Hnear (2 ^ 52)).
  destruct (Z_lt_ge_dec m (2 ^ 52)) as [Hlt | Hge]; [exfalso | lia].
  assert (Hm1 : (IZR m <= IZR (2 ^ 52) - 1)%R)
    by (rewrite <- minus_IZR; apply IZR_le; lia).
  rewrite !Rabs_pos_eq in Hnear by nra. nra.
Qed.

(** [sqrt_binary64] is correct rounding: when it is below [2^1024], what it
    returns is a value of binary64, and no value of binary64 is nearer to
    the square root. *)
Lemma sqrt_binary64_nearest (v : Q) :
  (0 <= v)%Q ->
  (sqrt_binary64 v < 2 ^ 1024)%Q ->
  is_binary64 (sqrt_binary64 v) /\
  forall g, is_binary64 g ->
    (Rabs (sqrt (Q2R v) - Q2R (sqrt_binary64 v))
     <= Rabs (sqrt (Q2R v) - Q2R g))%R.
Proof.
  intros Hv Hfit. destruct (Qlt_le_dec 0 v) as [Hpos | Hzero].
  - destruct (sqrt_binary64_spec v Hpos) as (Hf & Hm & He & Hhi & Hlo & Hnear).
    pose proof (sqrt_significand_normal v Hpos) as Hnormal.
    rewrite (sqrt_binary64_pos v Hpos) in Hfit |- *.
    set (e := sqrt_exponent (Qred v)) in *.
    set (m := sqrt_significand (Qred v) e) in *.
    set (x := sqrt (Q2R v)) in *.
    pose proof (Q2R_pow2_pos e) as Hp. set (p := Q2R (2 ^ e)) in *.
    assert (He971 : -1074 < e -> 52 + e < 1024).
    { intros Hbig. specialize (Hnormal Hbig).
      apply (Qpower_lt_compat_l_inv 2); [| reflexivity].
      eapply Qle_lt_trans; [| exact Hfit].
      rewrite Qpower_plus by apply two_neq_0.
      apply Qmult_le_compat_r; [| apply Qlt_le_weak, Qpow2_pos].
      rewrite Qpow2_Z by lia. rewrite <- Zle_Qle. exact Hnormal. }
    split.
    + destruct (Z.eq_dec m (2 ^ 53)) as [Em | Nm].
      * exists (2 ^ 52), (e + 1). split; [reflexivity |]. split.
        -- assert (53 + e < 1024).
           { apply (Qpower_lt_compat_l_inv 2); [| reflexivity].
             eapply Qle_lt_trans; [| exact Hfit].
             rewrite Qpower_plus by apply two_neq_0.
             rewrite Em, Qpow2_Z by lia. apply Qle_refl. }
           lia.
        -- rewrite Em, Qpow2_succ.
           change (inject_Z (2 ^ 53)) with (2 * inject_Z (2 ^ 52))%Q. ring.
      * exists m, e. split; [lia |]. split; [| reflexivity].
        destruct (Z.eq_dec e (-1074)); lia.
    + intros g (m' & e' & Hm' & He' & Eg).
      rewrite Q2R_mult, Q2R_inject_Z. fold p.
      rewrite (Qeq_eqR _ _ Eg), Q2R_mult, Q2R_inject_Z.
      destruct (Z_le_gt_dec e e') as [Hle | Hgt].
      * rewrite (Q2R_pow2_split e e' Hle). fold p.
        rewrite <- Rmult_assoc, <- mult_IZR. apply Hnear.
      * assert (Hbig : -1074 < e) by lia.
        specialize (Hlo Hbig). specialize (Hnear (2 ^ 52)).
        pose proof (Q2R_pow2_pos e') as Hq.
        pose proof (Q2R_pow2_le e' (e - 1) ltac:(lia)) as Hq'.
        assert (Hhalf : (2 * Q2R (2 ^ (e - 1)) = p)%R).
        { unfold p. replace e with (e - 1 + 1) at 2 by lia.
          rewrite (Qeq_eqR _ _ (Qpow2_succ (e - 1))), Q2R_mult.
          replace (Q2R 2) with 2%R by (unfold Q2R; cbn; lra).
          reflexivity. }
        assert (Hm1 : (IZR m' <= IZR (2 ^ 53) - 1)%R)
          by (rewrite <- minus_IZR; apply IZR_le; lia).
        assert (H5253 : (IZR (2 ^ 53) = 2 * IZR (2 ^ 52))%R)
          by (rewrite <- mult_IZR; reflexivity).
        assert (H52 : (0 < IZR (2 ^ 52))%R) by (apply IZR_lt; reflexivity).
        set (q := Q2R (2 ^ e')) in *.
        assert (Hg : (IZR m' * q <= IZR (2 ^ 52) * p)%R).
        { destruct (Rle_lt_dec (IZR m') 0) as [Hneg | Hposm]; [nra |].
          assert ((IZR m' * q <= IZR m' * Q2R (2 ^ (e - 1)))%R) by nra.
          nra. }
        rewrite (Rabs_pos_eq (x - IZR (2 ^ 52) * p)) in Hnear by lra.
        rewrite (Rabs_pos_eq (x - IZR m' * q)) by lra. lra.
  - rewrite (sqrt_binary64_nonpos v Hzero). split.
    + exists 0, 0. split; [reflexivity |]. split; [lia | reflexivity].
    + intros g _. rewrite Q2R_0.
      assert (Hx : sqrt (Q2R v) = 0%R).
      { apply sqrt_neg_0. rewrite <- Q2R_0. apply Qle_Rle, Hzero. }
      rewrite Hx, Rminus_0_r, Rabs_R0. apply Rabs_pos.
Qed.

(** It reaches [2^1024] only for a square root of [2^1023] or more. *)
Lemma sqrt_binary64_overflow (v : Q) :
  (2 ^ 1024 <= sqrt_binary64 v)%Q -> (IZR (2 ^ 1023) <= sqrt (Q2R v))%R.
Proof.
  intros Hover. destruct (Qlt_le_dec 0 v) as [Hpos | Hzero].
  - destruct (sqrt_binary64_spec v Hpos) as (_ & Hm & He & _ & Hlo & _).
    rewrite (sqrt_binary64_pos v Hpos) in Hover.
    set (e := sqrt_exponent (Qred v)) in *.
    set (m := sqrt_significand (Qred v) e) in *.
    assert (He971 : 971 <= e).
    { apply (Qpower_le_compat_l_inv 2); [| reflexivity].
      apply (Qmult_le_l _ _ (2 ^ 53)); [apply Qpow2_pos |].
      rewrite <- Qpower_plus by apply two_neq_0.
      eapply Qle_trans; [exact Hover |].
      apply Qmult_le_compat_r; [| apply Qlt_le_weak, Qpow2_pos].
      rewrite Qpow2_Z by lia. rewrite <- Zle_Qle. lia. }
    specialize (Hlo ltac:(lia)).
    eapply Rle_trans; [| exact Hlo].
    pose proof (Q2R_pow2_le 971 e He971) as Hp.
    rewrite (Q2R_pow2_Z 971) in Hp by lia.
    assert (H52 : (0 < IZR (2 ^ 52))%R) by (apply IZR_lt; reflexivity).
    replace (IZR (2 ^ 1023)) with (IZR (2 ^ 52) * IZR (2 ^ 971))%R
      by (rewrite <- mult_IZR; reflexivity).
    apply Rmult_le_compat_l; lra.
  - rewrite (sqrt_binary64_nonpos v Hzero) in Hover. exfalso.
    apply (Qlt_not_le _ _ (Qpow2_pos 1024) Hover).
Qed.

(** ** The standard deviation *)

Lemma Q2R_Qsum (l : list Q) : Q2R (Qsum l) = Rsum (map Q2R l).
Proof.
  induction l as [| q l IH]; cbn [Qsum Rsum fold_right map].
  - unfold Q2R. cbn. lra.
  - rewrite Q2R_plus. fold (Qsum l). rewrite IH. reflexivity.
Qed.

Lemma IZR_Zsum (data : list Z) : IZR (Zsum data) = Rsum (map IZR data).
Proof.
  induction data as [| x data IH]; cbn [Zsum Rsum fold_right map].
  - reflexivity.
  - rewrite plus_IZR. fold (Zsum data). rewrite IH. reflexivity.
Qed.

Lemma inject_Z_nonzero (z : Z) : z <> 0 -> ~ (inject_Z z == 0)%Q.
Proof.
  intros Hz E. apply Hz. unfold Qeq, inject_Z in E. cbn in E. lia.
Qed.

Lemma Q2R_mean (data : list Z) :
  data <> [] -> Q2R (mean data) = mean_R data.
Proof.
  intros Hne. unfold mean, mean_R.
  assert (Hn : Z.of_nat (length data) <> 0)
    by (destruct data; [congruence | cbn [length]; lia]).
  unfold Qdiv. rewrite Q2R_mult, Q2R_inv by (apply inject_Z_nonzero, Hn).
  rewrite !Q2R_inject_Z, IZR_Zsum, <- INR_IZR_INZ. reflexivity.
Qed.

Lemma Q2R_sq_dev (c : Q) (x : Z) :
  Q2R (sq_dev c x) = ((IZR x - Q2R c) * (IZR x - Q2R c))%R.
Proof.
  unfold sq_dev. rewrite Q2R_mult, Q2R_minus, Q2R_inject_Z. reflexivity.
Qed.

Lemma variance_Ok (data : list Z) :
  (2 <= length data)%nat ->
  variance data
  = Ok (Qsum (map (sq_dev (mean data)) data)
        / inject_Z (Z.of_nat (length data) - 1))%Q.
Proof.
  intros Hn. unfold variance.
  destruct (Z.of_nat (length data) <? 2) eqn:E; [lia | reflexivity].
Qed.

Lemma variance_too_few (data : list Z) :
  (length data < 2)%nat -> variance data = Raise StatisticsError.
Proof.
  intros Hn. unfold variance.
  destruct (Z.of_nat (length data) <? 2) eqn:E; [reflexivity | lia].
Qed.

Lemma variance_of_Ok (data : list Z) :
  (2 <= length data)%nat -> variance data = Ok (variance_of data).
Proof.
  intros Hn. unfold variance_of. rewrite (variance_Ok data Hn). reflexivity.
Qed.

Lemma Qsum_sq_dev_nonneg (c : Q) (data : list Z) :
  (0 <= Qsum (map (sq_dev c) data))%Q.
Proof.
  induction data as [| x data IH]; cbn [map Qsum fold_right].
  - apply Qle_refl.
  - fold (Qsum (map (sq_dev c) data)).
    assert (H : (0 <= sq_dev c x)%Q).
    { unfold sq_dev. generalize (inject_Z x - c)%Q. intros a.
      destruct (Qlt_le_dec a 0) as [Ha | Ha].
      - setoid_replace (a * a)%Q with ((- a) * (- a))%Q by ring.
        apply Qmult_le_0_compat; Lqa.lra.
      - apply Qmult_le_0_compat; exact Ha. }
    Lqa.lra.
Qed.

Lemma variance_of_nonneg (data : list Z) :
  (2 <= length data)%nat -> (0 <= variance_of data)%Q.
Proof.
  intros Hn. unfold variance_of. rewrite (variance_Ok data Hn).
  unfold Qdiv. apply Qmult_le_0_compat; [apply Qsum_sq_dev_nonneg |].
  apply Qinv_le_0_compat. change 0%Q with (inject_Z 0).
  rewrite <- Zle_Qle. lia.
Qed.

(** The fraction of which [stdev] takes the square root is the sample
    variance. *)
Lemma sqrt_variance_of (data : list Z) :
  (2 <= length data)%nat ->
  sqrt (Q2R (variance_of data)) = sample_stdev data.
Proof.
  intros Hn. unfold variance_of. rewrite (variance_Ok data Hn).
  unfold sample_stdev. f_equal.
  assert (Hne : data <> []) by (destruct data; [cbn in Hn; lia | congruence]).
  unfold Qdiv. rewrite Q2R_mult, Q2R_inv by (apply inject_Z_nonzero; lia).
  rewrite Q2R_inject_Z, minus_IZR, <- INR_IZR_INZ, Q2R_Qsum, map_map.
  unfold Rdiv. f_equal.
  f_equal. apply map_ext. intros x.
  rewrite Q2R_sq_dev, (Q2R_mean data Hne). reflexivity.
Qed.

(** [stdev] returns the rounded square root of the variance, or
    overflows. *)
Lemma stdev_cases (data : list Z) :
  (2 <= length data)%nat ->
  (stdev data = Ok (sqrt_binary64 (variance_of data)) /\
   (sqrt_binary64 (variance_of data) < 2 ^ 1024)%Q) \/
  (stdev data = Raise OverflowError /\
   (2 ^ 1024 <= sqrt_binary64 (variance_of data))%Q).
Proof.
  intros Hn. unfold stdev. rewrite (variance_of_Ok data Hn).
  unfold float_sqrt_of_frac.
  destruct (Qle_bool (2 ^ 1024) (sqrt_binary64 (variance_of data))) eqn:E.
  - right. split; [reflexivity | apply Qle_bool_iff, E].
  - left. split; [reflexivity |]. apply Qnot_le_lt. intros H.
    apply Qle_bool_iff in H. congruence.
Qed.

Lemma stdev_too_few (data : list Z) :
  (length data < 2)%nat -> stdev data = Raise StatisticsError.
Proof. intros Hn. unfold stdev. rewrite variance_too_few; auto. Qed.

Lemma sqrt_between (v lo hi : Q) :
  (0 <= lo)%Q -> (0 < hi)%Q ->
  (lo * lo <= v)%Q -> (v < hi * hi)%Q ->
  (Q2R lo <= sqrt (Q2R v) < Q2R hi)%R.
Proof.
  intros Hlo Hhi Hl Hh.
  apply Qle_Rle in Hlo, Hl. apply Qlt_Rlt in Hhi, Hh.
  rewrite Q2R_mult in Hl, Hh. rewrite Q2R_0 in Hlo, Hhi.
  assert (Hv : (0 <= Q2R v)%R) by nra.
  split.
  - rewrite <- (sqrt_square (Q2R lo)) by exact Hlo.
    apply sqrt_le_1; nra.
  - rewrite <- (sqrt_square (Q2R hi)) by lra.
    apply sqrt_lt_1; nra.
Qed.

Lemma Q2R_thousandths_GiB (n : positive) :
  Q2R ((Zpos n # 1000) * inject_Z GiB) = (IZR (Zpos n) / 1000 * IZR GiB)%R.
Proof.
  rewrite Q2R_mult, Q2R_inject_Z. unfold Q2R. cbn [Qnum Qden]. lra.
Qed.

Lemma skewed_sample_stdev_bounds :
  (23.085 * IZR GiB <= sample_stdev skewed_free < 23.095 * IZR GiB)%R.
Proof.
  rewrite <- (sqrt_variance_of skewed_free) by (cbn; lia).
  replace (23.085 * IZR GiB)%R with (Q2R ((23085 # 1000) * inject_Z GiB))
    by (rewrite Q2R_thousandths_GiB; lra).
  replace (23.095 * IZR GiB)%R with (Q2R ((23095 # 1000) * inject_Z GiB))
    by (rewrite Q2R_thousandths_GiB; lra).
  apply sqrt_between.
  - apply Qle_bool_iff. vm_compute. reflexivity.
  - apply Qltb_lt. vm_compute. reflexivity.
  - apply Qle_bool_iff. vm_compute. reflexivity.
  - apply Qltb_lt. vm_compute. reflexivity.
Qed.

Lemma balanced_sample_stdev_zero : sample_stdev balanced_free = 0%R.
Proof.
  rewrite <- (sqrt_variance_of balanced_free) by (cbn; lia).
  replace (Q2R (variance_of balanced_free)) with 0%R; [apply sqrt_0 |].
  symmetry. rewrite <- Q2R_0. apply Qeq_eqR. vm_compute. reflexivity.
Qed.

(** The float that [stdev] returns for 0, 0, 40 GiB is 23.09 GiB to two
    decimals; 18.86 GiB is the population standard deviation, with [n] in
    place of [n - 1]. *)
Lemma skewed_stdev_is_not_18_86 : ~ skewed_stdev_as_stated.
Proof.
  intros (s & Hs & _ & Hhi).
  vm_compute in Hs. injection Hs as <-.
  apply Qltb_lt in Hhi. vm_compute in Hhi. discriminate Hhi.
Qed.

(** The sample standard deviation of [rounding_free] is below 5 GiB, and
    [stdev] returns 5368709120.0, which is 5 GiB. *)
Lemma rounding_free_below_limit :
  (sample_stdev rounding_free < IZR (STDEV_LIMIT shipped_config))%R /\
  converged rounding_free (STDEV_LIMIT shipped_config) = Ok false.
Proof.
  split; [| vm_compute; reflexivity].
  rewrite <- (sqrt_variance_of rounding_free) by (cbn; lia).
  rewrite <- Q2R_inject_Z.
  apply (sqrt_between _ 0 (inject_Z (STDEV_LIMIT shipped_config))).
  - apply Qle_refl.
  - reflexivity.
  - apply Qle_bool_iff. vm_compute. reflexivity.
  - apply Qltb_lt. vm_compute. reflexivity.
Qed.

(** C3 as worded fails twice: the test does not succeed on
    0, 9300009286, 2265052 under 5 GiB although their sample standard
    deviation is below 5 GiB, since [stdev] rounds it up to 5 GiB; and the
    standard deviation of 0, 0, 40 GiB is not 18.86 GiB. *)
Lemma stated_convergence_fails :
  ~ converged_iff_exact rounding_free (STDEV_LIMIT shipped_config) /\
  ~ skewed_stdev_as_stated.
Proof.
  split; [| exact skewed_stdev_is_not_18_86].
  intros [_ H]. destruct rounding_free_below_limit as [Hlt Hfalse].
  rewrite (H Hlt) in Hfalse. discriminate Hfalse.
Qed.

(** The test, by the cases of [stdev]. *)
Lemma converged_cases_of_stdev (data : list Z) (limit : Z) :
  (2 <= length data)%nat ->
  let f := sqrt_binary64 (variance_of data) in
  (stdev data = Ok f /\ (f < 2 ^ 1024)%Q /\
   converged data limit = Ok (Qltb f (inject_Z limit))) \/
  (stdev data = Raise OverflowError /\ (2 ^ 1024 <= f)%Q /\
   converged data limit = Raise OverflowError).
Proof.
  intros Hn f. unfold converged.
  destruct (stdev_cases data Hn) as [[Hs Hfit] | [Hs Hover]]; rewrite Hs.
  - left. repeat split; assumption.
  - right. repeat split; assumption.
Qed.

(** For a limit that a float holds, the rounding of the standard
    deviation can change the test only within one unit below the limit. *)
Lemma converged_vs_sample_stdev (data : list Z) (limit : Z) :
  (2 <= length data)%nat ->
  0 <= limit <= 2 ^ 53 ->
  (converged data limit = Ok true -> (sample_stdev data < IZR limit)%R) /\
  ((sample_stdev data <= IZR limit - 1)%R -> converged data limit = Ok true).
Proof.
  intros Hn Hl.
  pose proof (variance_of_nonneg data Hn) as Hv.
  pose proof (sqrt_variance_of data Hn) as Hx.
  split.
  - intros Hc.
    destruct (converged_cases_of_stdev data limit Hn)
      as [(_ & _ & Hc') | (_ & _ & Hc')]; rewrite Hc' in Hc;
      [| discriminate Hc].
    injection Hc as Hc. apply Qltb_lt, Qlt_Rlt in Hc.
    rewrite Q2R_inject_Z in Hc.
    destruct (sqrt_binary64_vs_integer _ limit Hv Hl) as [_ Hge].
    rewrite Hx in Hge.
    destruct (Rlt_le_dec (sample_stdev data) (IZR limit)) as [H | H];
      [exact H |].
    specialize (Hge H). lra.
  - intros Hsmall.
    pose proof (sqrt_pos (Q2R (variance_of data))) as Hpos.
    rewrite Hx in Hpos.
    assert (Hl1 : 0 <= limit - 1 <= 2 ^ 53).
    { split; [| lia]. apply le_IZR. rewrite minus_IZR. lra. }
    destruct (sqrt_binary64_vs_integer _ (limit - 1) Hv Hl1) as [Hle _].
    rewrite Hx, minus_IZR in Hle. specialize (Hle Hsmall).
    assert (Hf : (sqrt_binary64 (variance_of data) < inject_Z limit)%Q).
    { apply Rlt_Qlt. rewrite Q2R_inject_Z. lra. }
    destruct (converged_cases_of_stdev data limit Hn)
      as [(_ & _ & Hc') | (_ & Hover & _)].
    + rewrite Hc'. f_equal. apply Qltb_lt, Hf.
    + exfalso. apply (Qlt_not_le _ _ Hf).
      eapply Qle_trans; [| exact Hover].
      rewrite Qpow2_Z by lia. rewrite <- Zle_Qle.
      assert (2 ^ 53 <= 2 ^ 1024) by (apply Z.pow_le_mono_r; lia). lia.
Qed.

(** C3 (amended): on two or more values, [statistics.stdev] returns the
    binary64 nearest to their sample standard deviation (or overflows, from
    [2^1023] on), and the test of lines 77-78 succeeds exactly when that
    float is strictly below the limit.  For a limit up to [2^53], success
    implies that the sample standard deviation is below the limit, and a
    sample standard deviation of [limit - 1] or less implies success; in
    between the float may be the limit itself.  The standard deviation of
    10, 10, 10 GiB is 0, below any positive limit; that of 0, 0, 40 GiB is
    23.09 GiB to two decimals, not below the shipped limit of 5 GiB. *)
Theorem converged_iff_rounded_stdev_below_limit
  (data : list Z) (limit : Z) :
  (2 <= length data)%nat ->
  ((exists f,
      stdev data = Ok f /\
      is_binary64 f /\
      (forall g, is_binary64 g ->
         (Rabs (sample_stdev data - Q2R f)
          <= Rabs (sample_stdev data - Q2R g))%R) /\
      (converged data limit = Ok true <-> (f < inject_Z limit)%Q) /\
      (converged data limit = Ok false <-> (inject_Z limit <= f)%Q))
   \/
   (stdev data = Raise OverflowError /\
    converged data limit = Raise OverflowError /\
    (IZR (2 ^ 1023) <= sample_stdev data)%R)) /\
  (0 <= limit <= 2 ^ 53 ->
   (converged data limit = Ok true ->
    (sample_stdev data < IZR limit)%R) /\
   ((sample_stdev data <= IZR limit - 1)%R ->
    converged data limit = Ok true)) /\
  (sample_stdev balanced_free = 0%R /\
   (0 < limit -> converged balanced_free limit = Ok true)) /\
  ((23.085 * IZR GiB <= sample_stdev skewed_free < 23.095 * IZR GiB)%R /\
   converged skewed_free (STDEV_LIMIT shipped_config) = Ok false).
Proof.
  intros Hn.
  pose proof (variance_of_nonneg data Hn) as Hv.
  pose proof (sqrt_variance_of data Hn) as Hx.
  split; [| split; [| split]].
  - destruct (converged_cases_of_stdev data limit Hn)
      as [(Hs & Hfit & Hc) | (Hs & Hover & Hc)].
    + left. exists (sqrt_binary64 (variance_of data)).
      destruct (sqrt_binary64_nearest _ Hv Hfit) as [Hbin Hnear].
      rewrite Hx in Hnear.
      split; [exact Hs |]. split; [exact Hbin |]. split; [exact Hnear |].
      rewrite Hc. split.
      * rewrite <- Qltb_lt. split; congruence.
      * rewrite <- Qltb_ge. split; congruence.
    + right. split; [exact Hs |]. split; [exact Hc |].
      rewrite <- Hx. apply sqrt_binary64_overflow, Hover.
  - apply converged_vs_sample_stdev, Hn.
  - split; [exact balanced_sample_stdev_zero |].
    intros Hl.
    assert (Hs : stdev balanced_free = Ok 0%Q) by (vm_compute; reflexivity).
    unfold converged. rewrite Hs. f_equal. apply Qltb_lt.
    change 0%Q with (inject_Z 0). rewrite <- Zlt_Qlt. exact Hl.
  - split; [exact skewed_sample_stdev_bounds | vm_compute; reflexivity].
Qed.

Lemma converged_iff_rounded_stdev_below_limit_witness :
  (2 <= length [100; 120; 20])%nat /\
  0 <= 60 <= 2 ^ 53 /\
  converged [100; 120; 20] 60 = Ok true /\
  (sample_stdev [100; 120; 20]%Z < IZR 60)%R.
Proof.
  split; [cbn; lia |]. split; [lia |].
  split; [vm_compute; reflexivity |].
  destruct (converged_iff_rounded_stdev_below_limit [100; 120; 20] 60
              ltac:(cbn; lia)) as (_ & H & _).
  apply (proj1 (H ltac:(lia))). vm_compute. reflexivity.
Defined.

(** ** Ends of the loop *)

Lemma main_loop_stops cfg r rs b now e :
  outcome (loop_body cfg r b now) = Raise e ->
  main_loop cfg (r :: rs) b now = loop_body cfg r b now.
Proof.
  rewrite main_loop_cons.
  destruct (loop_body cfg r b now) as [[[b1 | e1] now1] es1]; intros H;
    [discriminate H | reflexivity].
Qed.

(** C7 as worded fails on the empty snapshot: the scan raises [IndexError]
    on the empty line, and line 77 is not reached. *)
Lemma no_device_raises_index_error :
  ~ too_few_raises_statistics_error shipped_config no_device 0 0%Q.
Proof.
  intros H. specialize (H ltac:(cbn; lia)).
  vm_compute in H. discriminate H.
Qed.

(** C7 (amended): with fewer than two devices the iteration ends the
    process with status 1, having run the scan command and nothing else: no
    verdict is logged, no balance command is run, and the loop does not
    take another turn.  With one device it is [statistics.stdev] on line 77
    that raises, [StatisticsError]; with no device it is the scan, on the
    empty line of the output, that raises [IndexError]. *)
Theorem one_device_or_none_is_fatal
  (cfg : config) (r : response) (rs : list response) (b : Z) (now : Q) :
  (length (fi_show_devices r) < 2)%nat ->
  exists e,
    outcome (loop_body cfg r b now) = Raise e /\
    (length (fi_show_devices r) = 1%nat -> e = StatisticsError) /\
    (fi_show_devices r = [] -> e = IndexError) /\
    exit_status e = 1 /\
    events (loop_body cfg r b now) = [Getoutput (fi_show_cmd cfg)] /\
    main_loop cfg (r :: rs) b now = loop_body cfg r b now.
Proof.
  intros Hn.
  destruct (fi_show_devices r) as [| d ds] eqn:Ed.
  - exists IndexError.
    pose proof (loop_body_raises cfg r b now _ _ _
                  (bal_chunk_no_device cfg r now Ed)) as E.
    assert (Ho : outcome (loop_body cfg r b now) = Raise IndexError)
      by (rewrite E; reflexivity).
    split; [exact Ho |]. split; [discriminate |].
    split; [reflexivity |]. split; [reflexivity |].
    split; [rewrite E; reflexivity | apply (main_loop_stops _ _ _ _ _ _ Ho)].
  - exists StatisticsError.
    assert (Hne : fi_show_devices r <> []) by congruence.
    assert (Hs : stdev (map unallocated_of (fi_show_devices r))
                 = Raise StatisticsError).
    { apply stdev_too_few. rewrite length_map, Ed. exact Hn. }
    pose proof (loop_body_raises cfg r b now _ _ _
                  (bal_chunk_stdev_raises cfg r now _ Hne Hs)) as E.
    assert (Ho : outcome (loop_body cfg r b now) = Raise StatisticsError)
      by (rewrite E; reflexivity).
    split; [exact Ho |]. split; [reflexivity |].
    split; [discriminate |]. split; [reflexivity |].
    split; [rewrite E; reflexivity | apply (main_loop_stops _ _ _ _ _ _ Ho)].
Qed.

Lemma one_device_or_none_is_fatal_witness :
  (length (fi_show_devices single_device) < 2)%nat /\
  outcome (main shipped_config [single_device; slow_success] 0%Q)
  = Raise StatisticsError /\
  outcome (main shipped_config [no_device; slow_success] 0%Q)
  = Raise IndexError.
Proof.
  split; [cbn; lia |]. split.
  - destruct (one_device_or_none_is_fatal shipped_config single_device
                [slow_success] 0 0%Q ltac:(cbn; lia))
      as (e & _ & _ & _ & _ & _ & Hstop).
    unfold main. rewrite Hstop. reflexivity.
  - destruct (one_device_or_none_is_fatal shipped_config no_device
                [slow_success] 0 0%Q ltac:(cbn; lia))
      as (e & _ & _ & _ & _ & _ & Hstop).
    unfold main. rewrite Hstop. reflexivity.
Defined.

(** C8: when the test of lines 77-78 succeeds, the iteration ends the
    process through [sys.exit()], with status 0, before any balance command
    and without another turn of the loop. *)
Theorem converged_exits_with_status_0
  (cfg : config) (r : response) (rs : list response) (b : Z) (now : Q) :
  converged (map unallocated_of (fi_show_devices r)) (STDEV_LIMIT cfg)
  = Ok true ->
  exists e,
    outcome (loop_body cfg r b now) = Raise e /\
    e = SystemExit None /\
    exit_status e = 0 /\
    (forall c, ~ In (Getstatusoutput c) (events (loop_body cfg r b now))) /\
    main_loop cfg (r :: rs) b now = loop_body cfg r b now.
Proof.
  intros Hc. exists (SystemExit None).
  assert (Hne : fi_show_devices r <> []).
  { intros E. rewrite E in Hc. discriminate Hc. }
  unfold converged in Hc.
  destruct (stdev (map unallocated_of (fi_show_devices r))) as [s | e] eqn:Hs;
    [| discriminate Hc].
  assert (Hlt : Qltb s (inject_Z (STDEV_LIMIT cfg)) = true) by congruence.
  pose proof (loop_body_raises cfg r b now _ _ _
                (bal_chunk_exits cfg r now s Hne Hs Hlt)) as E.
  assert (Ho : outcome (loop_body cfg r b now) = Raise (SystemExit None))
    by (rewrite E; reflexivity).
  split; [exact Ho |]. split; [reflexivity |]. split; [reflexivity |].
  split; [| apply (main_loop_stops _ _ _ _ _ _ Ho)].
  rewrite E. simpl. intuition discriminate.
Qed.

Lemma converged_exits_with_status_0_witness :
  converged (map unallocated_of (fi_show_devices even_devices))
    (STDEV_LIMIT shipped_config) = Ok true /\
  main shipped_config [even_devices; slow_success] 0%Q
  = (Raise (SystemExit None), 1%Q,
     [Getoutput "btrfs fi show --raw /media/btrfs | grep devid";
      Logged INFO
        (Stdev_below
           (sqrt_binary64 (variance_of (map unallocated_of two_even)))
           (STDEV_LIMIT shipped_config))]).
Proof.
  split; [vm_compute; reflexivity |].
  destruct (converged_exits_with_status_0 shipped_config even_devices
              [slow_success] 0 0%Q ltac:(vm_compute; reflexivity))
    as (e & _ & _ & _ & _ & Hstop).
  unfold main. rewrite Hstop. vm_compute. reflexivity.
Defined.

(** * Properties of the rest of the script *)

(** ** [sizeof_fmt] *)

Lemma string_length_append (s1 s2 : string) :
  String.length (s1 ++ s2) = (String.length s1 + String.length s2)%nat.
Proof.
  induction s1 as [| c s1 IH]; cbn; [reflexivity | rewrite IH; reflexivity].
Qed.

Lemma string_of_Z_length (z : Z) : (1 <= String.length (string_of_Z z))%nat.
Proof.
  unfold string_of_Z.
  destruct (Z.to_int z) as [d | d]; cbn; [| lia].
  destruct d; cbn; lia.
Qed.

Lemma two_digits_length (n : Z) :
  0 <= n < 100 -> String.length (two_digits n) = 2%nat.
Proof.
  intros Hn. rewrite <- (Z2Nat.id n) by lia.
  assert (Hm : (Z.to_nat n < 100)%nat) by lia.
  generalize dependent (Z.to_nat n). clear n Hn. intros m Hm.
  do 100 (destruct m as [| m]; [reflexivity |]). lia.
Qed.

Lemma fmt_2f_length (num : Q) : (4 <= String.length (fmt_2f num))%nat.
Proof.
  unfold fmt_2f. rewrite !string_length_append.
  pose proof (string_of_Z_length
                (round_half_even (Qabs num * 100) / 100)) as H1.
  rewrite two_digits_length by (apply Z.mod_pos_bound; lia).
  cbn [String.length]. lia.
Qed.

(** The width of ['%4.2f'] never pads. *)
Lemma fmt_4_2f_no_padding (num : Q) : fmt_4_2f num = fmt_2f num.
Proof.
  unfold fmt_4_2f, rjust. pose proof (fmt_2f_length num) as H.
  replace (4 - String.length (fmt_2f num))%nat with 0%nat by lia.
  reflexivity.
Qed.

Lemma pow_1024_pos (k : nat) : (0 < inject_Z (1024 ^ Z.of_nat k))%Q.
Proof.
  change 0%Q with (inject_Z 0). rewrite <- Zlt_Qlt.
  apply Z.pow_pos_nonneg; lia.
Qed.

Lemma pow_1024_succ (k : nat) :
  (inject_Z (1024 ^ Z.of_nat (S k)) == 1024 * inject_Z (1024 ^ Z.of_nat k))%Q.
Proof.
  rewrite Nat2Z.inj_succ, Z.pow_succ_r by lia.
  rewrite inject_Z_mult. reflexivity.
Qed.

Lemma scaled_succ (k : nat) (num : Q) :
  scaled (S k) num = (scaled k num / 1024)%Q.
Proof. reflexivity. Qed.

Lemma scaled_shift (k : nat) (num : Q) :
  scaled (S k) num = scaled k (num / 1024)%Q.
Proof. exact (Nat.iter_succ_r k Q (fun q => (q / 1024)%Q) num). Qed.

Lemma scaled_times_power (k : nat) (num : Q) :
  (scaled k num * inject_Z (1024 ^ Z.of_nat k) == num)%Q.
Proof.
  induction k as [| k IH].
  - cbn. ring.
  - rewrite scaled_succ, pow_1024_succ. rewrite <- IH at 2.
    unfold Qdiv. change (/ 1024)%Q with (1 # 1024)%Q. ring.
Qed.

Lemma Qabs_scaled_times_power (k : nat) (num : Q) :
  (Qabs (scaled k num) * inject_Z (1024 ^ Z.of_nat k) == Qabs num)%Q.
Proof.
  rewrite <- (scaled_times_power k num) at 2.
  rewrite Qabs_Qmult, (Qabs_pos (inject_Z _)); [reflexivity |].
  apply Qlt_le_weak, pow_1024_pos.
Qed.

Lemma Qabs_scaled_lt (k : nat) (num : Q) :
  (Qabs num < inject_Z (1024 ^ Z.of_nat (S k)))%Q ->
  (Qabs (scaled k num) < 1024)%Q.
Proof.
  intros H. rewrite pow_1024_succ, <- (Qabs_scaled_times_power k num) in H.
  apply Qmult_lt_r in H; [exact H | apply pow_1024_pos].
Qed.

Lemma Qabs_scaled_ge (k : nat) (num : Q) :
  (inject_Z (1024 ^ Z.of_nat (S k)) <= Qabs num)%Q ->
  (1024 <= Qabs (scaled k num))%Q.
Proof.
  intros H. rewrite pow_1024_succ, <- (Qabs_scaled_times_power k num) in H.
  apply Qmult_le_r in H; [exact H | apply pow_1024_pos].
Qed.

Lemma pow_1024_le (j k : nat) :
  (j <= k)%nat ->
  (inject_Z (1024 ^ Z.of_nat j) <= inject_Z (1024 ^ Z.of_nat k))%Q.
Proof.
  intros H. rewrite <- Zle_Qle. apply Z.pow_le_mono_r; lia.
Qed.

Lemma pow_1024_as_pow2 (k : nat) :
  (inject_Z (1024 ^ Z.of_nat k) == 2 ^ (10 * Z.of_nat k))%Q.
Proof.
  rewrite Qpow2_Z by lia. rewrite Z.pow_mul_r by lia. reflexivity.
Qed.

Lemma scaled_as_pow2 (k : nat) (x : Q) :
  (scaled k x == x * 2 ^ (- (10 * Z.of_nat k)))%Q.
Proof.
  pose proof (scaled_times_power k x) as E.
  rewrite pow_1024_as_pow2 in E.
  rewrite Qpower_opp. rewrite <- E at 2.
  field. apply Qnot_eq_sym, Qlt_not_eq, Qpow2_pos.
Qed.

Lemma is_binary64_inject_Z (z : Z) :
  Z.abs z < 2 ^ 53 -> is_binary64 (inject_Z z).
Proof.
  intros H. exists z, 0. split; [exact H |]. split; [lia |].
  change (2 ^ 0)%Q with 1%Q. ring.
Qed.

(** Dividing a float of absolute value [1024^k] or more [k] times by 1024
    loses nothing: the quotient is a float. *)
Lemma is_binary64_scaled (k : nat) (x : Q) :
  is_binary64 x ->
  (k = 0%nat \/ inject_Z (1024 ^ Z.of_nat k) <= Qabs x)%Q ->
  is_binary64 (scaled k x).
Proof.
  intros Hx [-> | Hlo]; [exact Hx |].
  destruct Hx as (m & e & Hm & He & E).
  exists m, (e - 10 * Z.of_nat k). split; [exact Hm |].
  assert (Hk : 10 * Z.of_nat k < 53 + e).
  { destruct (Z.lt_ge_cases (10 * Z.of_nat k) (53 + e)) as [H | H];
      [exact H | exfalso].
    rewrite pow_1024_as_pow2, E in Hlo.
    rewrite Qabs_Qmult, (Qabs_pos (2 ^ e)) in Hlo
      by apply Qlt_le_weak, Qpow2_pos.
    assert (H1 : (Qabs (inject_Z m) * 2 ^ e < 2 ^ (53 + e))%Q).
    { rewrite Qpower_plus by apply two_neq_0.
      apply Qmult_lt_r; [apply Qpow2_pos |].
      rewrite (Qpow2_Z 53) by lia.
      change (Qabs (inject_Z m)) with (inject_Z (Z.abs m)).
      rewrite <- Zlt_Qlt. exact Hm. }
    assert (H2 : (2 ^ (53 + e) <= 2 ^ (10 * Z.of_nat k))%Q)
      by (apply Qpower_le_compat_l; [exact H | discriminate]).
    Lqa.lra. }
  split; [lia |].
  rewrite scaled_as_pow2, E.
  replace (e - 10 * Z.of_nat k) with (e + - (10 * Z.of_nat k)) by lia.
  rewrite Qpower_plus by apply two_neq_0. ring.
Qed.

Lemma float_of_int_small (z : Z) :
  Z.abs z < 2 ^ 53 -> float_of_int z = Ok (inject_Z z).
Proof.
  intros H. unfold float_of_int, binary64_of_Z.
  destruct (Z.ltb_spec (Z.abs z) (2 ^ 53)) as [_ | H']; [| lia].
  destruct (Z.leb_spec (2 ^ 1024) (Z.abs z)) as [H' |]; [| reflexivity].
  assert (2 ^ 53 < 2 ^ 1024) by (apply Z.pow_lt_mono_r; lia). lia.
Qed.

Lemma holds_exactly_Float (x : Q) :
  is_binary64 x -> holds_exactly (Float x) x.
Proof.
  intros H. split; [reflexivity | split; [reflexivity | exact H]].
Qed.

Lemma holds_exactly_Int (z : Z) :
  Z.abs z < 2 ^ 53 -> holds_exactly (Int z) (inject_Z z).
Proof.
  intros H. split; [apply float_of_int_small, H |].
  split; [reflexivity | apply is_binary64_inject_Z, H].
Qed.

Lemma Qltb_compat (x x' y y' : Q) :
  (x == x')%Q -> (y == y')%Q -> Qltb x y = Qltb x' y'.
Proof.
  intros Ex Ey. destruct (Qltb x' y') eqn:H.
  - apply Qltb_lt. rewrite Ex, Ey. apply Qltb_lt, H.
  - apply Qltb_ge. rewrite Ex, Ey. apply Qltb_ge, H.
Qed.

(** A number that is a float without rounding is formatted as that
    float. *)
Lemma sizeof_fmt_from_exact (us : list string) (num : number) (x : Q)
  (suffix : string) :
  as_float num = Ok x -> (exact num == x)%Q ->
  sizeof_fmt_from us num suffix = sizeof_fmt_from us (Float x) suffix.
Proof.
  intros Hf He. destruct us as [| u us']; cbn [sizeof_fmt_from].
  - rewrite Hf. reflexivity.
  - rewrite Hf. cbn [as_float exact].
    rewrite (Qltb_compat (Qabs (exact num)) (Qabs x) 1024 1024)
      by (rewrite ?He; reflexivity).
    reflexivity.
Qed.

(** The loop leaves at the first unit for which the scaled number is below
    1024 in absolute value. *)
Lemma sizeof_fmt_from_unit (suffix : string) :
  forall (k : nat) (us : list string) (x : Q) (unit : string),
  nth_error us k = Some unit ->
  (forall j, (j < k)%nat -> (1024 <= Qabs (scaled j x))%Q) ->
  (Qabs (scaled k x) < 1024)%Q ->
  sizeof_fmt_from us (Float x) suffix
  = Ok (fmt_2f (scaled k x) ++ unit ++ suffix)%string.
Proof.
  induction k as [| k IH]; intros us x unit Hnth Hbig Hsmall;
    destruct us as [| u us']; try discriminate Hnth.
  - cbn in Hnth. injection Hnth as ->. cbn [sizeof_fmt_from as_float exact].
    change (scaled 0 x) with x in *. apply Qltb_lt in Hsmall.
    rewrite Hsmall, fmt_4_2f_no_padding. reflexivity.
  - cbn [nth_error] in Hnth. cbn [sizeof_fmt_from as_float exact].
    assert (H0 : Qltb (Qabs x) 1024 = false).
    { apply Qltb_ge. change x with (scaled 0 x). apply Hbig. lia. }
    rewrite H0, scaled_shift. apply IH; [exact Hnth | | ].
    + intros j Hj. rewrite <- scaled_shift. apply Hbig. lia.
    + rewrite <- scaled_shift. exact Hsmall.
Qed.

Lemma sizeof_fmt_from_exhausted (suffix : string) :
  forall (us : list string) (x : Q),
  (forall j, (j < length us)%nat -> (1024 <= Qabs (scaled j x))%Q) ->
  sizeof_fmt_from us (Float x) suffix
  = Ok (fmt_2f (scaled (length us) x) ++ "Yi" ++ suffix)%string.
Proof.
  induction us as [| u us' IH]; intros x Hbig; [reflexivity |].
  cbn [sizeof_fmt_from length as_float exact].
  assert (H0 : Qltb (Qabs x) 1024 = false).
  { apply Qltb_ge. change x with (scaled 0 x). apply Hbig. cbn. lia. }
  rewrite H0, scaled_shift. apply IH.
  intros j Hj. rewrite <- scaled_shift. apply Hbig. cbn. lia.
Qed.

(** X1: a float, or an integer that is a float without rounding, of
    absolute value in [1024^k, 1024^(k+1)), or below 1024 for [k = 0], is
    written with the [k]-th binary prefix, for [k] up to 7 (Zi): the
    mantissa is the number divided [k] times by 1024, which is again a
    float, so that no division rounds; times [1024^k] it gives the number
    back, it is below 1024 in absolute value, and it is written with two
    decimals and no padding. *)
Theorem sizeof_fmt_picks_unit
  (k : nat) (unit : string) (num : number) (x : Q) (suffix : string) :
  holds_exactly num x ->
  nth_error units k = Some unit ->
  (k = 0%nat \/ inject_Z (1024 ^ Z.of_nat k) <= Qabs x)%Q ->
  (Qabs x < inject_Z (1024 ^ Z.of_nat (S k)))%Q ->
  sizeof_fmt num suffix = Ok (fmt_2f (scaled k x) ++ unit ++ suffix)%string /\
  (forall j, (j <= k)%nat -> is_binary64 (scaled j x)) /\
  (scaled k x * inject_Z (1024 ^ Z.of_nat k) == x)%Q /\
  (Qabs (scaled k x) < 1024)%Q.
Proof.
  intros (Hf & He & Hb) Hnth Hlo Hhi.
  pose proof (Qabs_scaled_lt k x Hhi) as Hsmall.
  split; [| split; [| split; [apply scaled_times_power | exact Hsmall]]].
  - unfold sizeof_fmt. rewrite (sizeof_fmt_from_exact units num x suffix Hf He).
    apply sizeof_fmt_from_unit; [exact Hnth | | exact Hsmall].
    intros j Hj. apply Qabs_scaled_ge.
    destruct Hlo as [-> | Hlo]; [lia |].
    eapply Qle_trans; [| exact Hlo]. apply pow_1024_le. lia.
  - intros j Hj. apply is_binary64_scaled; [exact Hb |].
    destruct Hlo as [-> | Hlo]; [left; lia | right].
    eapply Qle_trans; [| exact Hlo]. apply pow_1024_le. lia.
Qed.

Lemma sizeof_fmt_picks_unit_witness :
  holds_exactly (Int (5 * GiB)) (inject_Z (5 * GiB)) /\
  (inject_Z (1024 ^ Z.of_nat 3) <= Qabs (inject_Z (5 * GiB)))%Q /\
  sizeof_fmt (Int (5 * GiB)) "B" = Ok "5.00GiB"%string.
Proof.
  assert (Hh : holds_exactly (Int (5 * GiB)) (inject_Z (5 * GiB))).
  { apply holds_exactly_Int. vm_compute. reflexivity. }
  split; [exact Hh |].
  split; [apply Qle_bool_iff; vm_compute; reflexivity |].
  destruct (sizeof_fmt_picks_unit 3 "Gi" (Int (5 * GiB))
              (inject_Z (5 * GiB)) "B") as [H _].
  - exact Hh.
  - reflexivity.
  - right. apply Qle_bool_iff. vm_compute. reflexivity.
  - apply Qltb_lt. vm_compute. reflexivity.
  - rewrite H. vm_compute. reflexivity.
Defined.

(** X2: from [1024^8] on the units are used up: a float, or an integer
    that is a float without rounding, is divided eight times by 1024 and
    written with [Yi]; the quotient is again a float, and it is 1 or more in
    absolute value: nothing bounds it by 1024. *)
Theorem sizeof_fmt_beyond_Zi (num : number) (x : Q) (suffix : string) :
  holds_exactly num x ->
  (inject_Z (1024 ^ 8) <= Qabs x)%Q ->
  sizeof_fmt num suffix = Ok (fmt_2f (scaled 8 x) ++ "Yi" ++ suffix)%string /\
  (forall j, (j <= 8)%nat -> is_binary64 (scaled j x)) /\
  (scaled 8 x * inject_Z (1024 ^ 8) == x)%Q /\
  (1 <= Qabs (scaled 8 x))%Q.
Proof.
  intros (Hf & He & Hb) Hlo. split; [| split; [| split]].
  - unfold sizeof_fmt. rewrite (sizeof_fmt_from_exact units num x suffix Hf He).
    apply (sizeof_fmt_from_exhausted suffix units x).
    intros j Hj. apply Qabs_scaled_ge.
    eapply Qle_trans; [| exact Hlo].
    apply (pow_1024_le (S j) 8). cbn in Hj. lia.
  - intros j Hj. apply is_binary64_scaled; [exact Hb | right].
    eapply Qle_trans; [| exact Hlo]. apply (pow_1024_le j 8 Hj).
  - apply (scaled_times_power 8 x).
  - pose proof (Qabs_scaled_times_power 8 x) as E.
    change (Z.of_nat 8) with 8 in E. rewrite <- E in Hlo.
    rewrite <- (Qmult_1_l (inject_Z (1024 ^ 8))) in Hlo at 1.
    apply Qmult_le_r in Hlo; [exact Hlo | apply (pow_1024_pos 8)].
Qed.

Lemma sizeof_fmt_beyond_Zi_witness :
  holds_exactly (Int (3 * 1024 ^ 9)) (inject_Z (3 * 1024 ^ 9)) /\
  (inject_Z (1024 ^ 8) <= Qabs (inject_Z (3 * 1024 ^ 9)))%Q /\
  sizeof_fmt (Int (3 * 1024 ^ 9)) "B" = Ok "3072.00YiB"%string.
Proof.
  assert (Hh : holds_exactly (Int (3 * 1024 ^ 9)) (inject_Z (3 * 1024 ^ 9))).
  { split; [vm_compute; reflexivity |]. split; [reflexivity |].
    exists 3, 90. split; [vm_compute; reflexivity |]. split; [lia |].
    vm_compute. reflexivity. }
  split; [exact Hh |].
  split; [apply Qle_bool_iff; vm_compute; reflexivity |].
  destruct (sizeof_fmt_beyond_Zi (Int (3 * 1024 ^ 9))
              (inject_Z (3 * 1024 ^ 9)) "B") as [H _].
  - exact Hh.
  - apply Qle_bool_iff. vm_compute. reflexivity.
  - rewrite H. vm_compute. reflexivity.
Defined.

Lemma round_half_even_proper (x y : Q) :
  (x == y)%Q -> round_half_even x = round_half_even y.
Proof.
  intros E. unfold round_half_even.
  rewrite (Qfloor_comp x y E).
  replace (x - inject_Z (Qfloor y) ?= 1 # 2)%Q
    with (y - inject_Z (Qfloor y) ?= 1 # 2)%Q; [reflexivity |].
  apply Qcompare_comp; [rewrite E |]; reflexivity.
Qed.

Lemma Qfloor_unique (a : Z) (q : Q) :
  (inject_Z a <= q)%Q -> (q < inject_Z (a + 1))%Q -> Qfloor q = a.
Proof.
  intros Hlo Hhi.
  pose proof (Qfloor_le q) as Hf1. pose proof (Qlt_floor q) as Hf2.
  assert (H1 : (inject_Z (Qfloor q) < inject_Z (a + 1))%Q)
    by (eapply Qle_lt_trans; eassumption).
  assert (H2 : (inject_Z a < inject_Z (Qfloor q + 1))%Q)
    by (eapply Qle_lt_trans; eassumption).
  rewrite <- Zlt_Qlt in H1, H2. lia.
Qed.

(** A value half a unit or less under an even integer rounds to it. *)
Lemma round_half_even_up (a : Z) (q : Q) :
  Z.even a = true ->
  (inject_Z a - (1 # 2) <= q)%Q -> (q < inject_Z a)%Q ->
  round_half_even q = a.
Proof.
  intros Ha Hlo Hhi.
  assert (Hfl : Qfloor q = a - 1).
  { apply Qfloor_unique.
    - unfold Z.sub. rewrite inject_Z_plus. change (inject_Z (- (1))) with (-1)%Q.
      Lqa.lra.
    - replace (a - 1 + 1) with a by lia. exact Hhi. }
  unfold round_half_even. rewrite Hfl.
  assert (Hodd : Z.even (a - 1) = false).
  { rewrite Z.even_sub, Ha. reflexivity. }
  rewrite Hodd.
  assert (E : (inject_Z (a - 1) == inject_Z a - 1)%Q).
  { unfold Z.sub. rewrite inject_Z_plus. reflexivity. }
  destruct (Qcompare_spec (q - inject_Z (a - 1)) (1 # 2)) as [H | H | H];
    try lia.
  rewrite E in H. Lqa.lra.
Qed.

Lemma fmt_2f_1024 (m : Q) :
  (1023995 # 1000 <= m)%Q -> (m < 1024)%Q -> fmt_2f m = "1024.00"%string.
Proof.
  intros Hlo Hhi. unfold fmt_2f.
  assert (Hpos : (0 <= m)%Q) by Lqa.lra.
  assert (Hneg : Qltb m 0 = false) by (apply Qltb_ge; exact Hpos).
  rewrite Hneg.
  rewrite (round_half_even_proper (Qabs m * 100) (m * 100))
    by (rewrite (Qabs_pos m Hpos); reflexivity).
  rewrite (round_half_even_up 102400 (m * 100)).
  - reflexivity.
  - reflexivity.
  - change (inject_Z 102400) with 102400%Q. Lqa.lra.
  - change (inject_Z 102400) with 102400%Q. Lqa.lra.
Qed.

(** X3: a positive float, or integer that is a float without rounding,
    that is within 0.005 below [1024^(k+1)] in units of [1024^k] is still
    written with the [k]-th prefix, and its mantissa rounds up: it reads
    [1024.00]. *)
Theorem sizeof_fmt_reads_1024
  (k : nat) (unit : string) (num : number) (x : Q) (suffix : string) :
  holds_exactly num x ->
  nth_error units k = Some unit ->
  ((1023995 # 1000) * inject_Z (1024 ^ Z.of_nat k) <= x)%Q ->
  (x < inject_Z (1024 ^ Z.of_nat (S k)))%Q ->
  sizeof_fmt num suffix = Ok ("1024.00" ++ unit ++ suffix)%string.
Proof.
  intros (Hf & He & Hb) Hnth Hlo Hhi.
  pose proof (pow_1024_pos k) as Hp.
  pose proof (scaled_times_power k x) as Hs.
  assert (Hm1 : (1023995 # 1000 <= scaled k x)%Q).
  { rewrite <- Hs in Hlo. apply Qmult_le_r in Hlo; assumption. }
  assert (Hm2 : (scaled k x < 1024)%Q).
  { rewrite pow_1024_succ, <- Hs in Hhi.
    apply Qmult_lt_r in Hhi; assumption. }
  assert (Hnum : (0 <= x)%Q).
  { eapply Qle_trans; [| exact Hlo].
    apply Qmult_le_0_compat; [discriminate | apply Qlt_le_weak, Hp]. }
  rewrite <- (fmt_2f_1024 (scaled k x) Hm1 Hm2).
  unfold sizeof_fmt. rewrite (sizeof_fmt_from_exact units num x suffix Hf He).
  apply sizeof_fmt_from_unit; [exact Hnth | |].
  - intros j Hj. apply Qabs_scaled_ge. rewrite (Qabs_pos x Hnum).
    eapply Qle_trans; [apply (pow_1024_le (S j) k); lia |].
    eapply Qle_trans; [| exact Hlo].
    rewrite <- (Qmult_1_l (inject_Z (1024 ^ Z.of_nat k))) at 1.
    apply Qmult_le_r; [exact Hp | discriminate].
  - rewrite Qabs_pos by Lqa.lra. exact Hm2.
Qed.

Lemma sizeof_fmt_reads_1024_witness :
  holds_exactly (Int (1024 * 1024 - 1)) (inject_Z (1024 * 1024 - 1)) /\
  sizeof_fmt (Int (1024 * 1024 - 1)) "B" = Ok "1024.00KiB"%string.
Proof.
  assert (Hh : holds_exactly (Int (1024 * 1024 - 1))
                 (inject_Z (1024 * 1024 - 1))).
  { apply holds_exactly_Int. vm_compute. reflexivity. }
  split; [exact Hh |].
  apply (sizeof_fmt_reads_1024 1 "Ki" (Int (1024 * 1024 - 1))
           (inject_Z (1024 * 1024 - 1)) "B").
  - exact Hh.
  - reflexivity.
  - apply Qle_bool_iff. vm_compute. reflexivity.
  - apply Qltb_lt. vm_compute. reflexivity.
Defined.

(** Rounding to the nearest integer moves a value by a half at most. *)
Lemma round_half_even_bounds (q : Q) :
  (inject_Z (round_half_even q) - (1 # 2) <= q)%Q /\
  (q <= inject_Z (round_half_even q) + (1 # 2))%Q.
Proof.
  pose proof (Qfloor_le q) as H1. pose proof (Qlt_floor q) as H2.
  rewrite inject_Z_plus in H2. change (inject_Z 1) with 1%Q in H2.
  unfold round_half_even.
  destruct (Qcompare_spec (q - inject_Z (Qfloor q)) (1 # 2)) as [H | H | H].
  - destruct (Z.even (Qfloor q));
      rewrite ?inject_Z_plus; change (inject_Z 1) with 1%Q; split; Lqa.lra.
  - split; Lqa.lra.
  - rewrite inject_Z_plus. change (inject_Z 1) with 1%Q. split; Lqa.lra.
Qed.

(** The conversion of an integer of 54 bits or more: a significand of 53
    bits at the exponent of the integer, half a unit in the last place away
    at most. *)
Lemma binary64_of_Z_big (z : Z) :
  2 ^ 53 <= Z.abs z ->
  let k := Z.log2 (Z.abs z) - 52 in
  exists m : Z,
    binary64_of_Z z = Z.sgn z * (m * 2 ^ k) /\
    2 ^ 52 <= m <= 2 ^ 53 /\
    2 * Z.abs (m * 2 ^ k - Z.abs z) <= 2 ^ k.
Proof.
  intros Hbig k.
  assert (Ha : 0 < Z.abs z) by (assert (0 < 2 ^ 53) by reflexivity; lia).
  destruct (Z.log2_spec (Z.abs z) Ha) as [Hl1 Hl2].
  assert (Hk : 1 <= k).
  { unfold k. assert (53 <= Z.log2 (Z.abs z)); [| lia].
    apply Z.log2_le_pow2; [exact Ha | exact Hbig]. }
  set (P := 2 ^ k) in *.
  assert (HP : 0 < P) by (apply Z.pow_pos_nonneg; lia).
  assert (E1 : 2 ^ Z.log2 (Z.abs z) = 2 ^ 52 * P).
  { unfold P. rewrite <- Z.pow_add_r by lia. f_equal. unfold k. lia. }
  assert (E2 : 2 ^ Z.succ (Z.log2 (Z.abs z)) = 2 ^ 53 * P).
  { unfold P. rewrite <- Z.pow_add_r by lia. f_equal. unfold k. lia. }
  rewrite E1 in Hl1. rewrite E2 in Hl2.
  set (q := (inject_Z (Z.abs z) / inject_Z P)%Q).
  exists (round_half_even q).
  assert (HPq : (0 < inject_Z P)%Q)
    by (change 0%Q with (inject_Z 0); rewrite <- Zlt_Qlt; exact HP).
  assert (Eq : (q * inject_Z P == inject_Z (Z.abs z))%Q).
  { unfold q. field. apply Qnot_eq_sym, Qlt_not_eq, HPq. }
  destruct (round_half_even_bounds q) as [Hr1 Hr2].
  set (m := round_half_even q) in *.
  assert (Hlo : (inject_Z (2 * m * P - P) <= inject_Z (2 * Z.abs z))%Q).
  { rewrite (inject_Z_mult 2 (Z.abs z)), <- Eq.
    unfold Z.sub. rewrite inject_Z_plus, inject_Z_opp, !inject_Z_mult.
    change (inject_Z 2) with 2%Q.
    apply (Qmult_le_compat_r _ _ (inject_Z P)) in Hr1;
      [| apply Qlt_le_weak, HPq].
    Lqa.lra. }
  assert (Hhi : (inject_Z (2 * Z.abs z) <= inject_Z (2 * m * P + P))%Q).
  { rewrite (inject_Z_mult 2 (Z.abs z)), <- Eq.
    rewrite inject_Z_plus, !inject_Z_mult.
    change (inject_Z 2) with 2%Q.
    apply (Qmult_le_compat_r _ _ (inject_Z P)) in Hr2;
      [| apply Qlt_le_weak, HPq].
    Lqa.lra. }
  rewrite <- Zle_Qle in Hlo, Hhi.
  split; [| split].
  - unfold binary64_of_Z.
    destruct (Z.ltb_spec (Z.abs z) (2 ^ 53)) as [H | _]; [lia |].
    reflexivity.
  - split; nia.
  - lia.
Qed.

Lemma pow2_1024_split : 2 ^ 1024 = 2 ^ 52 * 2 ^ 972.
Proof. rewrite <- Z.pow_add_r by lia. reflexivity. Qed.

(** The float of an integer, when there is one, is a binary64. *)
Lemma float_of_int_is_binary64 (z : Z) (f : Q) :
  float_of_int z = Ok f -> is_binary64 f.
Proof.
  destruct (Z.lt_ge_cases (Z.abs z) (2 ^ 53)) as [Hs | Hbig].
  - rewrite (float_of_int_small z Hs). intros [= <-].
    apply is_binary64_inject_Z, Hs.
  - destruct (binary64_of_Z_big z Hbig) as (m & E & Hm & _).
    set (k := Z.log2 (Z.abs z) - 52) in *.
    assert (Hk : 1 <= k).
    { unfold k. assert (53 <= Z.log2 (Z.abs z)); [| lia].
      apply Z.log2_le_pow2; [| exact Hbig].
      assert (0 < 2 ^ 53) by reflexivity. lia. }
    unfold float_of_int. cbv zeta.
    destruct (Z.leb_spec (2 ^ 1024) (Z.abs (binary64_of_Z z))) as [| Hf];
      [discriminate |].
    intros [= <-]. rewrite E in Hf |- *.
    assert (Hz : Z.abs (Z.sgn z) = 1)
      by (assert (0 < 2 ^ 53) by reflexivity; lia).
    assert (HP : 0 < 2 ^ k) by (apply Z.pow_pos_nonneg; lia).
    rewrite Z.abs_mul, Hz, Z.mul_1_l, Z.abs_eq in Hf by nia.
    destruct (Z.eq_dec m (2 ^ 53)) as [-> | Hne].
    + exists (Z.sgn z * 2 ^ 52), (k + 1).
      assert (Hk2 : k + 53 < 1024).
      { apply (Z.pow_lt_mono_r_iff 2); [lia | lia |].
        rewrite Z.pow_add_r by lia. lia. }
      split; [rewrite Z.abs_mul, Hz; reflexivity |]. split; [lia |].
      rewrite Qpow2_succ, !inject_Z_mult. rewrite <- (Qpow2_Z k) by lia.
      setoid_replace (inject_Z (2 ^ 53)) with (2 * inject_Z (2 ^ 52))%Q
        by reflexivity.
      ring.
    + exists (Z.sgn z * m), k.
      assert (Hk2 : k + 52 < 1024).
      { apply (Z.pow_lt_mono_r_iff 2); [lia | lia |].
        rewrite Z.pow_add_r by lia.
        assert (2 ^ 52 * 2 ^ k <= m * 2 ^ k)
          by (apply Z.mul_le_mono_nonneg_r; lia).
        lia. }
      split; [rewrite Z.abs_mul, Hz; lia |]. split; [lia |].
      rewrite !inject_Z_mult. rewrite <- (Qpow2_Z k) by lia. ring.
Qed.

(** From [2^1024] on an integer has no float. *)
Lemma float_of_int_overflow (z : Z) :
  2 ^ 1024 <= Z.abs z -> float_of_int z = Raise OverflowError.
Proof.
  intros Hz.
  assert (H53 : 2 ^ 53 < 2 ^ 1024) by (apply Z.pow_lt_mono_r; lia).
  assert (Hbig : 2 ^ 53 <= Z.abs z) by lia.
  destruct (binary64_of_Z_big z Hbig) as (m & E & Hm & _).
  set (k := Z.log2 (Z.abs z) - 52) in *.
  assert (Hk : 972 <= k).
  { unfold k. assert (1024 <= Z.log2 (Z.abs z)); [| lia].
    apply Z.log2_le_pow2; lia. }
  unfold float_of_int. cbv zeta. rewrite E.
  assert (Hs : Z.abs (Z.sgn z) = 1) by lia.
  assert (HP : 2 ^ 972 <= 2 ^ k) by (apply Z.pow_le_mono_r; lia).
  assert (H972 : 0 < 2 ^ 972) by (apply Z.pow_pos_nonneg; lia).
  destruct (Z.leb_spec (2 ^ 1024) (Z.abs (Z.sgn z * (m * 2 ^ k))))
    as [| Hf]; [reflexivity | exfalso].
  rewrite Z.abs_mul, Hs, Z.mul_1_l, Z.abs_eq in Hf by nia.
  rewrite pow2_1024_split in Hf.
  assert (2 ^ 52 * 2 ^ 972 <= m * 2 ^ k)
    by (apply Z.mul_le_mono_nonneg; lia).
  lia.
Qed.

(** X18: an integer is formatted as the float it converts to: it is rounded
    to 53 significant bits before the first division (below [2^53] nothing
    is rounded; from there on the float is away by half a unit in the last
    place at most), so that [2^60 - 1] reads [1.00EiB]; an integer of
    absolute value [2^1024] or more raises [OverflowError]. *)
Theorem sizeof_fmt_rounds_integer_first (z : Z) (suffix : string) :
  sizeof_fmt (Int z) suffix
  = match float_of_int z with
    | Ok f => sizeof_fmt (Float f) suffix
    | Raise e => Raise e
    end /\
  (forall f, float_of_int z = Ok f -> is_binary64 f) /\
  (Z.abs z < 2 ^ 53 -> float_of_int z = Ok (inject_Z z)) /\
  (2 ^ 53 <= Z.abs z ->
   2 * Z.abs (binary64_of_Z z - z) <= 2 ^ (Z.log2 (Z.abs z) - 52)) /\
  (2 ^ 1024 <= Z.abs z -> sizeof_fmt (Int z) suffix = Raise OverflowError) /\
  float_of_int (2 ^ 60 - 1) = Ok (inject_Z (2 ^ 60)) /\
  sizeof_fmt (Int (2 ^ 60 - 1)) "B" = Ok "1.00EiB"%string.
Proof.
  assert (H1024 : 1024 < 2 ^ 53) by reflexivity.
  assert (Hfirst : 1024 <= Z.abs z ->
            Qltb (Qabs (exact (Int z))) 1024 = false).
  { intros H. apply Qltb_ge. cbn [exact].
    change (Qabs (inject_Z z)) with (inject_Z (Z.abs z)).
    change 1024%Q with (inject_Z 1024). rewrite <- Zle_Qle. exact H. }
  split; [| split; [| split; [| split; [| split; [| split]]]]].
  - destruct (Z.lt_ge_cases (Z.abs z) (2 ^ 53)) as [Hs | Hbig].
    + rewrite (float_of_int_small z Hs). unfold sizeof_fmt.
      apply sizeof_fmt_from_exact;
        [apply float_of_int_small, Hs | reflexivity].
    + unfold sizeof_fmt, units. cbn [sizeof_fmt_from].
      rewrite Hfirst by lia. cbn [as_float exact].
      destruct (float_of_int z) as [f |] eqn:Ef; [| reflexivity].
      assert (Hf : Qltb (Qabs f) 1024 = false); [| rewrite Hf; reflexivity].
      destruct (binary64_of_Z_big z Hbig) as (m & E & Hm & _).
      unfold float_of_int in Ef. cbv zeta in Ef.
      destruct (2 ^ 1024 <=? Z.abs (binary64_of_Z z)); [discriminate |].
      injection Ef as <-. apply Qltb_ge.
      change (Qabs (inject_Z (binary64_of_Z z)))
        with (inject_Z (Z.abs (binary64_of_Z z))).
      change 1024%Q with (inject_Z 1024). rewrite <- Zle_Qle. rewrite E.
      assert (Hs : Z.abs (Z.sgn z) = 1) by lia.
      assert (HP : 1 <= 2 ^ (Z.log2 (Z.abs z) - 52)).
      { assert (0 < 2 ^ (Z.log2 (Z.abs z) - 52)); [| lia].
        apply Z.pow_pos_nonneg; [lia |].
        assert (53 <= Z.log2 (Z.abs z)); [| lia].
        apply Z.log2_le_pow2; lia. }
      rewrite Z.abs_mul, Hs, Z.mul_1_l, Z.abs_eq by nia. nia.
  - intros f. apply float_of_int_is_binary64.
  - apply float_of_int_small.
  - intros Hbig. destruct (binary64_of_Z_big z Hbig) as (m & E & _ & Hr).
    rewrite E.
    replace (Z.sgn z * (m * 2 ^ (Z.log2 (Z.abs z) - 52)) - z)
      with (Z.sgn z * (m * 2 ^ (Z.log2 (Z.abs z) - 52) - Z.abs z))
      by (rewrite Z.mul_sub_distr_l; f_equal; rewrite Z.mul_comm;
          apply Z.abs_sgn).
    rewrite Z.abs_mul.
    replace (Z.abs (Z.sgn z)) with 1 by lia. lia.
  - intros Hz. unfold sizeof_fmt, units. cbn [sizeof_fmt_from].
    assert (2 ^ 53 < 2 ^ 1024) by (apply Z.pow_lt_mono_r; lia).
    rewrite Hfirst by lia. cbn [as_float].
    rewrite (float_of_int_overflow z Hz). reflexivity.
  - vm_compute. reflexivity.
  - vm_compute. reflexivity.
Qed.

Lemma sizeof_fmt_rounds_integer_first_witness :
  2 ^ 1024 <= Z.abs (2 ^ 1024) /\
  sizeof_fmt (Int (2 ^ 1024)) "B" = Raise OverflowError.
Proof.
  assert (H : 2 ^ 1024 <= Z.abs (2 ^ 1024)) by (vm_compute; discriminate).
  split; [exact H |].
  destruct (sizeof_fmt_rounds_integer_first (2 ^ 1024) "B")
    as (_ & _ & _ & _ & Hov & _).
  exact (Hov H).
Defined.

(** ** The file-system check *)

Lemma check_partitions_skip cfg pre parts :
  (forall q, In q pre -> mountpoint q <> FILESYSTEM cfg) ->
  check_partitions cfg (pre ++ parts) = check_partitions cfg parts.
Proof.
  induction pre as [| q pre IH]; intros Hpre; [reflexivity |].
  cbn [app check_partitions].
  destruct (String.eqb_spec (mountpoint q) (FILESYSTEM cfg)) as [E | _].
  - exfalso. apply (Hpre q); [left; reflexivity | exact E].
  - apply IH. intros q' Hin. apply Hpre. right. exact Hin.
Qed.

(** The entries of [parts] up to the first one mounted at [FILESYSTEM]. *)
Lemma first_mount_split cfg parts :
  (forall q, In q parts -> mountpoint q <> FILESYSTEM cfg) \/
  exists pre p post,
    parts = pre ++ p :: post /\
    (forall q, In q pre -> mountpoint q <> FILESYSTEM cfg) /\
    mountpoint p = FILESYSTEM cfg.
Proof.
  induction parts as [| q parts IH].
  - left. intros q [].
  - destruct (String.eqb_spec (mountpoint q) (FILESYSTEM cfg)) as [E | N].
    + right. exists [], q, parts. split; [reflexivity |].
      split; [intros q' [] | exact E].
    + destruct IH as [Hnone | (pre & p & post & -> & Hpre & Hp)].
      * left. intros q' [<- | Hin]; [exact N | apply Hnone, Hin].
      * right. exists (q :: pre), p, post. split; [reflexivity |].
        split; [| exact Hp].
        intros q' [<- | Hin]; [exact N | apply Hpre, Hin].
Qed.

Lemma first_mount_unique cfg pre p post pre' p' post' :
  pre' ++ p' :: post' = pre ++ p :: post ->
  (forall q, In q pre' -> mountpoint q <> FILESYSTEM cfg) ->
  mountpoint p' = FILESYSTEM cfg ->
  (forall q, In q pre -> mountpoint q <> FILESYSTEM cfg) ->
  mountpoint p = FILESYSTEM cfg ->
  p' = p.
Proof.
  revert pre'. induction pre as [| q pre IH]; intros pre' E Hpre' Hp' Hpre Hp.
  - destruct pre' as [| q' pre'']; cbn in E; injection E as E1 E2.
    + exact E1.
    + exfalso. apply (Hpre' q'); [left; reflexivity | congruence].
  - destruct pre' as [| q' pre'']; cbn in E; injection E as E1 E2.
    + exfalso. apply (Hpre q); [left; reflexivity | congruence].
    + apply (IH pre'' E2).
      * intros x Hx. apply Hpre'. right. exact Hx.
      * exact Hp'.
      * intros x Hx. apply Hpre. right. exact Hx.
      * exact Hp.
Qed.

(** X4: the check lets the script go on exactly when the first partition
    mounted at [FILESYSTEM] is a btrfs; it then logs that it found it.  In
    every other case it ends the process through [sys.exit(-1)], which the
    shell sees as status 255. *)
Theorem check_passes_iff_first_mount_is_btrfs
  (cfg : config) (parts : list partition) :
  (fst (check_partitions cfg parts) = Ok tt <->
   exists pre p post,
     parts = pre ++ p :: post /\
     (forall q, In q pre -> mountpoint q <> FILESYSTEM cfg) /\
     mountpoint p = FILESYSTEM cfg /\ fstype p = "btrfs"%string) /\
  (fst (check_partitions cfg parts) = Ok tt ->
   snd (check_partitions cfg parts)
   = [Info ("Found btrfs filesystem mounted at " ++ FILESYSTEM cfg)%string])
  /\
  (fst (check_partitions cfg parts) <> Ok tt ->
   fst (check_partitions cfg parts) = Raise (SystemExit (Some (-1))) /\
   exit_status (SystemExit (Some (-1))) = 255).
Proof.
  destruct (first_mount_split cfg parts)
    as [Hnone | (pre & p & post & -> & Hpre & Hp)].
  - assert (E : check_partitions cfg parts
                = (Raise (SystemExit (Some (-1))),
                   [Error ("Could not find btrfs at " ++ FILESYSTEM cfg
                           ++ ", exiting now.")%string])).
    { rewrite <- (app_nil_r parts).
      rewrite (check_partitions_skip cfg parts [] Hnone). reflexivity. }
    rewrite E. cbn [fst snd]. split; [split |].
    + discriminate.
    + intros (pre & p & post & -> & _ & Hp & _). exfalso.
      apply (Hnone p); [apply in_elt | exact Hp].
    + split; [discriminate | intros _; split; reflexivity].
  - rewrite (check_partitions_skip cfg pre (p :: post) Hpre).
    cbn [check_partitions]. rewrite Hp, String.eqb_refl.
    destruct (String.eqb_spec (fstype p) "btrfs") as [Ef | Nf];
      cbn [fst snd].
    + split; [split |].
      * intros _. exists pre, p, post. auto.
      * reflexivity.
      * split; [reflexivity | intros H; exfalso; apply H; reflexivity].
    + split; [split |].
      * discriminate.
      * intros (pre' & p' & post' & E & Hpre' & Hp' & Hf'). exfalso.
        symmetry in E.
        assert (Hsame : p' = p)
          by (eapply first_mount_unique; eassumption).
        subst p'. contradiction.
      * split; [discriminate | intros _; split; reflexivity].
Qed.

Lemma check_passes_iff_first_mount_is_btrfs_witness :
  check_partitions shipped_config
    [ {| mountpoint := "/"; fstype := "ext4" |};
      {| mountpoint := "/media/btrfs"; fstype := "ext4" |};
      {| mountpoint := "/media/btrfs"; fstype := "btrfs" |} ]
  = (Raise (SystemExit (Some (-1))),
     [Error "/media/btrfs is not btrfs, exiting now."]).
Proof.
  pose proof (check_passes_iff_first_mount_is_btrfs shipped_config
                [ {| mountpoint := "/"; fstype := "ext4" |};
                  {| mountpoint := "/media/btrfs"; fstype := "ext4" |};
                  {| mountpoint := "/media/btrfs"; fstype := "btrfs" |} ])
    as (_ & _ & H).
  destruct (H ltac:(vm_compute; discriminate)) as [_ _].
  vm_compute. reflexivity.
Defined.

(** X5: the two ways the check fails.  When no partition is mounted at
    [FILESYSTEM] it logs that it could not find it; when the first
    partition mounted there is not a btrfs it logs that, whatever comes
    later in the list, even a btrfs mounted at the same place.  Both end
    the process through [sys.exit(-1)]. *)
Theorem check_failure_modes (cfg : config) (parts : list partition) :
  ((forall q, In q parts -> mountpoint q <> FILESYSTEM cfg) ->
   check_partitions cfg parts
   = (Raise (SystemExit (Some (-1))),
      [Error ("Could not find btrfs at " ++ FILESYSTEM cfg
              ++ ", exiting now.")%string])) /\
  (forall pre p post,
     parts = pre ++ p :: post ->
     (forall q, In q pre -> mountpoint q <> FILESYSTEM cfg) ->
     mountpoint p = FILESYSTEM cfg ->
     fstype p <> "btrfs"%string ->
     check_partitions cfg parts
     = (Raise (SystemExit (Some (-1))),
        [Error (FILESYSTEM cfg ++ " is not btrfs, exiting now.")%string])).
Proof.
  split.
  - intros Hnone. rewrite <- (app_nil_r parts).
    rewrite (check_partitions_skip cfg parts [] Hnone). reflexivity.
  - intros pre p post -> Hpre Hp Hf.
    rewrite (check_partitions_skip cfg pre (p :: post) Hpre).
    cbn [check_partitions]. rewrite Hp, String.eqb_refl.
    destruct (String.eqb_spec (fstype p) "btrfs") as [Ef | _];
      [contradiction | reflexivity].
Qed.

Lemma check_failure_modes_witness :
  check_partitions shipped_config
    [ {| mountpoint := "/"; fstype := "ext4" |};
      {| mountpoint := "/home"; fstype := "btrfs" |} ]
  = (Raise (SystemExit (Some (-1))),
     [Error "Could not find btrfs at /media/btrfs, exiting now."]).
Proof.
  apply (proj1 (check_failure_modes shipped_config
                  [ {| mountpoint := "/"; fstype := "ext4" |};
                    {| mountpoint := "/home"; fstype := "btrfs" |} ])).
  intros q [<- | [<- | []]]; discriminate.
Defined.

(** ** How an iteration ends *)

Lemma converged_cases (data : list Z) (limit : Z) :
  converged data limit = Ok true \/
  converged data limit = Ok false \/
  (converged data limit = Raise StatisticsError /\ (length data < 2)%nat) \/
  (converged data limit = Raise OverflowError /\
   stdev data = Raise OverflowError /\ (2 <= length data)%nat).
Proof.
  destruct (Nat.lt_ge_cases (length data) 2) as [Hn | Hn].
  - right. right. left. split; [| exact Hn].
    unfold converged. rewrite (stdev_too_few data Hn). reflexivity.
  - destruct (converged_cases_of_stdev data limit Hn)
      as [(_ & _ & Hc) | (Hs & _ & Hc)]; rewrite Hc.
    + destruct (Qltb _ _); auto.
    + right. right. right. repeat split; assumption.
Qed.

Lemma converged_Ok_length (data : list Z) (limit : Z) (x : bool) :
  converged data limit = Ok x -> (2 <= length data)%nat.
Proof.
  unfold converged, stdev, variance.
  destruct (Z.of_nat (length data) <? 2) eqn:E; [discriminate | lia].
Qed.

Lemma converged_stdev (data : list Z) (limit : Z) (x : bool) :
  converged data limit = Ok x ->
  exists s, stdev data = Ok s /\ Qltb s (inject_Z limit) = x.
Proof.
  unfold converged. destruct (stdev data) as [s | e]; [| discriminate].
  intros H. exists s. split; [reflexivity | congruence].
Qed.

(** An iteration that stops. *)
Lemma loop_body_stops cfg r b now :
  ~ keeps_going cfg r ->
  exists e es,
    loop_body cfg r b now = (Raise e, (now + fi_show_elapsed r)%Q, es) /\
    count_balances es = 0%nat /\
    ((e = SystemExit None /\
      converged (map unallocated_of (fi_show_devices r)) (STDEV_LIMIT cfg)
      = Ok true) \/
     (e = StatisticsError /\ length (fi_show_devices r) = 1%nat) \/
     (e = IndexError /\ fi_show_devices r = []) \/
     (e = OverflowError /\
      stdev (map unallocated_of (fi_show_devices r)) = Raise OverflowError)).
Proof.
  intros Hstop. unfold keeps_going in Hstop.
  destruct (fi_show_devices r) as [| d ds] eqn:Ed.
  - exists IndexError, [Getoutput (fi_show_cmd cfg)].
    split; [apply loop_body_raises, bal_chunk_no_device, Ed |].
    split; [reflexivity | right; right; left; split; reflexivity].
  - assert (Hne : fi_show_devices r <> []) by congruence.
    rewrite <- Ed in Hstop |- *.
    destruct (converged_cases (map unallocated_of (fi_show_devices r))
                (STDEV_LIMIT cfg))
      as [Hc | [Hc | [[Hc Hlen] | (Hc & Hs & _)]]];
      [| contradiction | |].
    + destruct (converged_stdev _ _ _ Hc) as (s & Hs & Hlt).
      exists (SystemExit None),
        [Getoutput (fi_show_cmd cfg);
         Logged INFO (Stdev_below s (STDEV_LIMIT cfg))].
      split; [apply loop_body_raises, bal_chunk_exits; assumption |].
      split; [reflexivity | left; split; [reflexivity | exact Hc]].
    + exists StatisticsError, [Getoutput (fi_show_cmd cfg)].
      split.
      * apply loop_body_raises, bal_chunk_stdev_raises; [exact Hne |].
        apply stdev_too_few. exact Hlen.
      * split; [reflexivity | right; left; split; [reflexivity |]].
        rewrite length_map, Ed in Hlen. rewrite Ed. cbn [length] in *. lia.
    + exists OverflowError, [Getoutput (fi_show_cmd cfg)].
      split.
      * apply loop_body_raises, bal_chunk_stdev_raises; assumption.
      * split; [reflexivity |]. right; right; right.
        split; [reflexivity | exact Hs].
Qed.

Lemma count_balances_app es1 es2 :
  count_balances (es1 ++ es2)
  = (count_balances es1 + count_balances es2)%nat.
Proof. unfold count_balances. rewrite filter_app, length_app. reflexivity. Qed.

Lemma count_balances_iteration cfg r b now s :
  count_balances (bal_chunk_events cfg r s
                  ++ loop_body_tail cfg b now (bal_chunk_end r now))
  = 1%nat.
Proof.
  unfold bal_chunk_events, after_balance_events, loop_body_tail.
  destruct (negb (balance_status r =? 0)); reflexivity.
Qed.

(** An iteration that goes on. *)
Lemma loop_body_goes_on cfg r b now :
  keeps_going cfg r ->
  exists s,
    stdev (map unallocated_of (fi_show_devices r)) = Ok s /\
    Qltb s (inject_Z (STDEV_LIMIT cfg)) = false /\
    loop_body cfg r b now
    = (Ok (adjust cfg b (bal_chunk_end r now - now)%Q),
       (bal_chunk_end r now
        + inject_Z (fib (adjust cfg b (bal_chunk_end r now - now)%Q)))%Q,
       bal_chunk_events cfg r s
       ++ loop_body_tail cfg b now (bal_chunk_end r now)).
Proof.
  intros Hgo. destruct (converged_false_inv _ _ Hgo) as (Hne & s & Hs & Hlt).
  apply map_not_nil in Hne. exists s. split; [exact Hs |].
  split; [exact Hlt |].
  apply loop_body_balances; assumption.
Qed.

Lemma keeps_going_dec cfg r : keeps_going cfg r \/ ~ keeps_going cfg r.
Proof.
  unfold keeps_going.
  destruct (converged_cases (map unallocated_of (fi_show_devices r))
              (STDEV_LIMIT cfg)) as [H | [H | [[H _] | [H _]]]];
    [right | left | right | right]; congruence.
Qed.

Lemma no_balance_of_count es c :
  count_balances es = 0%nat -> ~ In (Getstatusoutput c) es.
Proof.
  unfold count_balances. intros Hc Hin.
  assert (Hf : In (Getstatusoutput c) (filter is_balance es))
    by (apply filter_In; split; [exact Hin | reflexivity]).
  destruct (filter is_balance es); [exact Hf | discriminate Hc].
Qed.

Lemma bal_chunk_end_measured (r : response) (now : Q) :
  (bal_chunk_end r now - now == measured r)%Q.
Proof.
  unfold bal_chunk_end, measured.
  destruct (negb (balance_status r =? 0)); ring.
Qed.

(** X6: when the balance command succeeds there is no cooldown: the
    iteration runs the two commands, updates [backoff] from the time the
    scan and the balance took together, and sleeps [fib backoff] seconds
    once; it returns [fi_show_elapsed + balance_elapsed + fib backoff]
    seconds after it started. *)
Theorem success_adjusts_from_scan_and_balance_time
  (cfg : config) (r : response) (b : Z) (now : Q) :
  balance_status r = 0 ->
  keeps_going cfg r ->
  let b' := adjust cfg b (fi_show_elapsed r + balance_elapsed r)%Q in
  outcome (loop_body cfg r b now) = Ok b' /\
  (clock (loop_body cfg r b now)
   == now + fi_show_elapsed r + balance_elapsed r + inject_Z (fib b'))%Q /\
  exists s yeet d u,
    (d == fi_show_elapsed r + balance_elapsed r)%Q /\
    events (loop_body cfg r b now) =
    [Getoutput (fi_show_cmd cfg);
     Logged INFO (Stdev_above s (STDEV_LIMIT cfg));
     Logged INFO (Balancing (least_empty_dev_path (scan (fi_show_devices r)))
                    (least_empty_dev_unallocated (scan (fi_show_devices r))));
     Getstatusoutput
       (balance_cmd cfg (least_empty_dev_id (scan (fi_show_devices r))));
     Logged INFO (Output (balance_output r));
     Logged INFO (Last_chunk yeet d);
     Logged INFO (Sleeping (fib b') u);
     Slept (inject_Z (fib b'))].
Proof.
  intros Hok Hgo b'.
  destruct (loop_body_goes_on cfg r b now Hgo) as (s & _ & _ & E).
  rewrite E.
  assert (Hst : negb (balance_status r =? 0) = false)
    by (rewrite Hok; reflexivity).
  assert (Hd : (bal_chunk_end r now - now
                == fi_show_elapsed r + balance_elapsed r)%Q)
    by (unfold bal_chunk_end; rewrite Hst; ring).
  assert (Hb : adjust cfg b (bal_chunk_end r now - now)%Q = b')
    by (apply adjust_proper, Hd).
  unfold outcome, clock, events. cbn [fst snd].
  split; [f_equal; exact Hb |]. split.
  - rewrite Hb. unfold bal_chunk_end. rewrite Hst. reflexivity.
  - unfold bal_chunk_events, after_balance_events, loop_body_tail.
    rewrite Hst, Hb. cbn [app].
    eexists s, _, _, _. split; [exact Hd | reflexivity].
Qed.

Lemma success_adjusts_from_scan_and_balance_time_witness :
  balance_status slow_success = 0 /\
  outcome (loop_body shipped_config slow_success 5 0%Q) = Ok 6.
Proof.
  split; [reflexivity |].
  apply (success_adjusts_from_scan_and_balance_time shipped_config
           slow_success 5 0%Q).
  - reflexivity.
  - vm_compute. reflexivity.
Defined.

(** X7: an iteration runs at most one balance command, and only on two or
    more devices for which [statistics.stdev] returns a float that is not
    below the limit; the command names the first device of the snapshot
    with the least unallocated space, one chunk, and the file system. *)
Theorem balance_command_names_least_empty_device
  (cfg : config) (r : response) (b : Z) (now : Q) (c : string) :
  In (Getstatusoutput c) (events (loop_body cfg r b now)) ->
  keeps_going cfg r /\
  (exists s,
     stdev (map unallocated_of (fi_show_devices r)) = Ok s /\
     (inject_Z (STDEV_LIMIT cfg) <= s)%Q /\
     In (Logged INFO (Stdev_above s (STDEV_LIMIT cfg)))
        (events (loop_body cfg r b now))) /\
  (2 <= length (fi_show_devices r))%nat /\
  count_balances (events (loop_body cfg r b now)) = 1%nat /\
  exists k d,
    nth_error (fi_show_devices r) k = Some d /\
    c = ("btrfs balance start -ddevid=" ++ devid d ++ ",limit=1 "
         ++ FILESYSTEM cfg)%string /\
    (forall d', In d' (fi_show_devices r) ->
                size d - used d <= size d' - used d') /\
    (forall j d', (j < k)%nat -> nth_error (fi_show_devices r) j = Some d' ->
                  size d - used d < size d' - used d').
Proof.
  intros Hin. destruct (keeps_going_dec cfg r) as [Hgo | Hstop].
  - split; [exact Hgo |].
    pose proof (converged_Ok_length _ _ _ Hgo) as Hlen.
    rewrite length_map in Hlen.
    destruct (loop_body_goes_on cfg r b now Hgo) as (s & Hs & Hlt & E).
    rewrite E in *. unfold events in *. cbn [snd] in *.
    split.
    { exists s. split; [exact Hs |]. split; [apply (proj1 (Qltb_ge _ _) Hlt) |].
      unfold bal_chunk_events. cbn. tauto. }
    split; [exact Hlen |].
    split; [apply count_balances_iteration |].
    assert (Hne : fi_show_devices r <> [])
      by (destruct (fi_show_devices r); [cbn in Hlen; lia | discriminate]).
    destruct (scan_first_minimum _ Hne)
      as (k & d & (Hk & Hmin & Hfirst) & Hid & _ & _).
    exists k, d. split; [exact Hk |]. split; [| split; assumption].
    unfold bal_chunk_events, after_balance_events, loop_body_tail in Hin.
    rewrite Hid in Hin. unfold balance_cmd, str_of in Hin.
    destruct (negb (balance_status r =? 0)); cbn in Hin;
      repeat (destruct Hin as [Hin | Hin]; try discriminate Hin);
      try contradiction; injection Hin as <-; reflexivity.
  - exfalso. destruct (loop_body_stops cfg r b now Hstop)
      as (e & es & E & Hcount & _).
    rewrite E in Hin. exact (no_balance_of_count es c Hcount Hin).
Qed.

Lemma balance_command_names_least_empty_device_witness :
  In (Getstatusoutput "btrfs balance start -ddevid=3,limit=1 /media/btrfs")
     (events (loop_body shipped_config slow_success 0 0%Q)) /\
  count_balances (events (loop_body shipped_config slow_success 0 0%Q))
  = 1%nat.
Proof.
  assert (Hin : In (Getstatusoutput
                      "btrfs balance start -ddevid=3,limit=1 /media/btrfs")
                   (events (loop_body shipped_config slow_success 0 0%Q)))
    by (vm_compute; tauto).
  split; [exact Hin |].
  apply (balance_command_names_least_empty_device shipped_config
           slow_success 0 0%Q _ Hin).
Defined.

(** ** How a run ends *)

Lemma final_cons cfg b d ds :
  final cfg b (d :: ds) = final cfg (adjust cfg b d) ds.
Proof. reflexivity. Qed.

Lemma main_loop_goes_on cfg rs :
  Forall (keeps_going cfg) rs ->
  forall b now,
    outcome (main_loop cfg rs b now) = Ok (final cfg b (map measured rs)) /\
    count_balances (events (main_loop cfg rs b now)) = length rs.
Proof.
  induction 1 as [| r rs Hr _ IH]; intros b now.
  - split; reflexivity.
  - destruct (loop_body_goes_on cfg r b now Hr) as (s & _ & _ & E).
    rewrite main_loop_cons, E.
    specialize (IH (adjust cfg b (bal_chunk_end r now - now)%Q)
                  (bal_chunk_end r now
                   + inject_Z (fib (adjust cfg b
                                      (bal_chunk_end r now - now)%Q)))%Q).
    destruct IH as (Hout & Hcount).
    destruct (main_loop cfg rs _ _) as [[x now2] es2].
    unfold outcome, events in *. cbn [fst snd] in *.
    split.
    + cbn [map]. rewrite final_cons.
      rewrite <- (adjust_proper cfg b _ _ (bal_chunk_end_measured r now)).
      exact Hout.
    + rewrite count_balances_app, count_balances_iteration, Hcount.
      reflexivity.
Qed.

Lemma main_loop_app_stop cfg pre r post :
  Forall (keeps_going cfg) pre ->
  ~ keeps_going cfg r ->
  forall b now,
  main_loop cfg (pre ++ r :: post) b now = main_loop cfg (pre ++ [r]) b now /\
  exists e,
    outcome (main_loop cfg (pre ++ r :: post) b now) = Raise e /\
    count_balances (events (main_loop cfg (pre ++ r :: post) b now))
    = length pre /\
    ((e = SystemExit None /\
      converged (map unallocated_of (fi_show_devices r)) (STDEV_LIMIT cfg)
      = Ok true) \/
     (e = StatisticsError /\ length (fi_show_devices r) = 1%nat) \/
     (e = IndexError /\ fi_show_devices r = []) \/
     (e = OverflowError /\
      stdev (map unallocated_of (fi_show_devices r)) = Raise OverflowError)).
Proof.
  intros Hpre Hstop. induction Hpre as [| r0 pre Hr0 _ IH]; intros b now.
  - cbn [app]. rewrite !main_loop_cons.
    destruct (loop_body_stops cfg r b now Hstop)
      as (e & es & E & Hcount & Hkind).
    rewrite E. split; [reflexivity |].
    exists e. unfold outcome, events. cbn [fst snd length].
    split; [reflexivity | split; assumption].
  - cbn [app]. rewrite !main_loop_cons.
    destruct (loop_body_goes_on cfg r0 b now Hr0) as (s & _ & _ & E).
    rewrite E.
    specialize (IH (adjust cfg b (bal_chunk_end r0 now - now)%Q)
                  (bal_chunk_end r0 now
                   + inject_Z (fib (adjust cfg b
                                      (bal_chunk_end r0 now - now)%Q)))%Q).
    destruct IH as (Hsame & e & Hout & Hcount & Hkind).
    rewrite Hsame in *.
    destruct (main_loop cfg (pre ++ [r]) _ _) as [[x now2] es2].
    unfold outcome, events in *. cbn [fst snd] in *.
    split; [reflexivity |]. exists e. split; [exact Hout |].
    split; [| exact Hkind].
    rewrite count_balances_app, count_balances_iteration, Hcount.
    reflexivity.
Qed.

(** X8: as long as every snapshot has two or more devices and a standard
    deviation, as [statistics.stdev] returns it, not below the limit, the
    loop does not stop: after [n] iterations it is still running, it has run
    exactly [n] balance commands, and [backoff] is the result of the [n]
    updates from 0 with the durations the loop measured: for each iteration
    the time of its two commands, and the 30 seconds of the cooldown when
    the balance command failed. *)
Theorem loop_runs_while_not_converged
  (cfg : config) (rs : list response) (now : Q) :
  Forall (keeps_going cfg) rs ->
  outcome (main cfg rs now) = Ok (final cfg 0 (map measured rs)) /\
  count_balances (events (main cfg rs now)) = length rs.
Proof. intros H. apply (main_loop_goes_on cfg rs H 0 now). Qed.

Lemma loop_runs_while_not_converged_witness :
  Forall (keeps_going shipped_config)
    [slow_success; quick_failure; quick_success] /\
  outcome (main shipped_config
             [slow_success; quick_failure; quick_success] 0%Q)
  = Ok (final shipped_config 0
          (map measured [slow_success; quick_failure; quick_success])) /\
  count_balances
    (events (main shipped_config
               [slow_success; quick_failure; quick_success] 0%Q)) = 3%nat.
Proof.
  assert (H : Forall (keeps_going shipped_config)
                [slow_success; quick_failure; quick_success])
    by (repeat constructor; vm_compute; reflexivity).
  split; [exact H |].
  exact (loop_runs_while_not_converged shipped_config _ 0%Q H).
Defined.

(** X9: the loop stops at the first iteration that does not go on to the
    balance command, and never looks at what comes after: it has then run
    one balance command for each iteration before, and ends with
    [SystemExit] from [sys.exit()] when the float [statistics.stdev]
    returns is below the limit, with [StatisticsError] on one device, with
    [IndexError] on none, and with [OverflowError] when the standard
    deviation is too large for a float. *)
Theorem loop_stops_at_first_stop
  (cfg : config) (pre : list response) (r : response)
  (post : list response) (now : Q) :
  Forall (keeps_going cfg) pre ->
  ~ keeps_going cfg r ->
  main cfg (pre ++ r :: post) now = main cfg (pre ++ [r]) now /\
  exists e,
    outcome (main cfg (pre ++ r :: post) now) = Raise e /\
    count_balances (events (main cfg (pre ++ r :: post) now)) = length pre /\
    ((e = SystemExit None /\
      exists s,
        stdev (map unallocated_of (fi_show_devices r)) = Ok s /\
        (s < inject_Z (STDEV_LIMIT cfg))%Q) \/
     (e = StatisticsError /\ length (fi_show_devices r) = 1%nat) \/
     (e = IndexError /\ fi_show_devices r = []) \/
     (e = OverflowError /\
      stdev (map unallocated_of (fi_show_devices r)) = Raise OverflowError)).
Proof.
  intros Hpre Hstop.
  destruct (main_loop_app_stop cfg pre r post Hpre Hstop 0 now)
    as (Hsame & e & Hout & Hcount & Hkind).
  split; [exact Hsame |]. exists e. split; [exact Hout |].
  split; [exact Hcount |].
  destruct Hkind as [[He Hc] | [H | [H | H]]]; auto.
  left. split; [exact He |].
  destruct (converged_stdev _ _ _ Hc) as (s & Hs & Hlt).
  exists s. split; [exact Hs | apply (proj1 (Qltb_lt _ _) Hlt)].
Qed.

Lemma loop_stops_at_first_stop_witness :
  Forall (keeps_going shipped_config) [slow_success; quick_failure] /\
  ~ keeps_going shipped_config even_devices /\
  outcome (main shipped_config
             ([slow_success; quick_failure] ++ even_devices :: [single_device])
             0%Q) = Raise (SystemExit None).
Proof.
  assert (Hpre : Forall (keeps_going shipped_config)
                   [slow_success; quick_failure])
    by (repeat constructor; vm_compute; reflexivity).
  assert (Hstop : ~ keeps_going shipped_config even_devices)
    by (vm_compute; discriminate).
  split; [exact Hpre |]. split; [exact Hstop |].
  destruct (loop_stops_at_first_stop shipped_config
              [slow_success; quick_failure] even_devices [single_device]
              0%Q Hpre Hstop) as [Hsame _].
  rewrite Hsame. vm_compute. reflexivity.
Defined.

(** ** Growth of the sleep sequence and of the index *)

Lemma fib_ge_index_nat (m : nat) : Z.of_nat m <= fib (Z.of_nat m).
Proof.
  induction m as [| m IH].
  - pose proof (fib_ge_1 0). cbn. lia.
  - destruct (Z_lt_dec (Z.of_nat (S m)) 2) as [Hs | Hs].
    + rewrite fib_small by exact Hs. lia.
    + rewrite fib_large by lia.
      replace (Z.of_nat (S m) - 1) with (Z.of_nat m) by lia.
      pose proof (fib_ge_1 (Z.of_nat (S m) - 2)). lia.
Qed.

Lemma fib_ge_index (n : Z) : n <= fib n.
Proof.
  destruct (Z_lt_dec n 0) as [Hn | Hn].
  - pose proof (fib_ge_1 n). lia.
  - rewrite <- (Z2Nat.id n) by lia. apply fib_ge_index_nat.
Qed.

Lemma fib_step_lt (n : Z) : 1 <= n -> fib n < fib (n + 1).
Proof.
  intros Hn. rewrite (fib_large (n + 1)) by lia.
  replace (n + 1 - 1) with n by lia.
  pose proof (fib_ge_1 (n + 1 - 2)). lia.
Qed.

(** X11: the sleep grows with the index: [fib] is strictly increasing from
    index 1 on (indices 0 and 1 both give 1 second), and [fib n] is at
    least [n]. *)
Theorem fib_strictly_increasing (m n : Z) :
  1 <= m -> m < n -> fib m < fib n /\ n <= fib n.
Proof.
  intros Hm Hmn. split; [| apply fib_ge_index].
  pose proof (fib_step_lt m Hm) as H1.
  pose proof (fib_monotone (m + 1) n ltac:(lia)) as H2. lia.
Qed.

Lemma fib_strictly_increasing_witness :
  1 <= 18 /\ 18 < 19 /\ fib 18 < fib 19.
Proof.
  split; [lia |]. split; [lia |].
  apply (fib_strictly_increasing 18 19); lia.
Defined.

Lemma final_le_length cfg ds :
  forall b, final cfg b ds <= b + Z.of_nat (length ds).
Proof.
  induction ds as [| d ds IH]; intros b; cbn [final fold_left length].
  - lia.
  - change (fold_left (adjust cfg) ds (adjust cfg b d))
      with (final cfg (adjust cfg b d) ds).
    specialize (IH (adjust cfg b d)).
    assert (adjust cfg b d <= b + 1).
    { unfold adjust. destruct (Qltb _ _).
      - destruct (fib (b + 1) <? MAX_SLEEP cfg); lia.
      - destruct (b >? 1) eqn:E1; [lia |]. destruct (b >? 0) eqn:E0; lia. }
    lia.
Qed.

Lemma final_slow_climbs cfg ds :
  Forall (slow cfg) ds ->
  forall b,
  final cfg b ds = b + Z.of_nat (length ds) \/
  MAX_SLEEP cfg <= fib (final cfg b ds + 1).
Proof.
  induction 1 as [| d ds Hd Hds IH]; intros b; cbn [final fold_left length].
  - left. lia.
  - change (fold_left (adjust cfg) ds (adjust cfg b d))
      with (final cfg (adjust cfg b d) ds).
    rewrite (adjust_slow _ _ _ Hd).
    destruct (fib (b + 1) <? MAX_SLEEP cfg) eqn:E.
    + destruct (IH (b + 1)) as [H | H]; [left; lia | right; exact H].
    + right. rewrite (final_slow_fixed cfg b ds Hds) by lia. lia.
Qed.

(** X12: the index cannot climb for ever: a run of slow iterations that is
    long enough ([MAX_SLEEP - backoff] of them or more) ends at the cap,
    where [fib (backoff + 1) >= MAX_SLEEP], and one more slow iteration
    leaves [backoff] where it is. *)
Theorem slow_run_reaches_cap
  (cfg : config) (b : Z) (ds : list Q) (d : Q) :
  0 <= b ->
  Forall (slow cfg) ds ->
  slow cfg d ->
  MAX_SLEEP cfg <= b + Z.of_nat (length ds) ->
  MAX_SLEEP cfg <= fib (final cfg b ds + 1) /\
  adjust cfg (final cfg b ds) d = final cfg b ds.
Proof.
  intros Hb Hds Hd Hlong.
  assert (Hcap : MAX_SLEEP cfg <= fib (final cfg b ds + 1)).
  { destruct (final_slow_climbs cfg ds Hds b) as [H | H]; [| exact H].
    pose proof (fib_ge_index (final cfg b ds + 1)). lia. }
  split; [exact Hcap |].
  rewrite (adjust_slow _ _ _ Hd).
  destruct (fib (final cfg b ds + 1) <? MAX_SLEEP cfg) eqn:E; lia.
Qed.

Lemma slow_run_reaches_cap_witness :
  0 <= 0 /\
  MAX_SLEEP tiny_config <= 0 + Z.of_nat (length (repeat 61%Q 10)) /\
  adjust tiny_config (final tiny_config 0 (repeat 61%Q 10)) 61%Q
  = final tiny_config 0 (repeat 61%Q 10).
Proof.
  split; [lia |]. split; [vm_compute; discriminate |].
  apply (slow_run_reaches_cap tiny_config 0 (repeat 61%Q 10) 61%Q).
  - lia.
  - repeat constructor.
  - reflexivity.
  - vm_compute. discriminate.
Defined.

(** X13: the way down is at least twice as fast as the way up: whatever
    happened during [n] iterations from index [b], [ceil((b + n) / 2)]
    fast iterations in a row bring the index back to 0. *)
Theorem fast_run_recovers
  (cfg : config) (b : Z) (ds fs : list Q) :
  0 <= b ->
  Forall (fast cfg) fs ->
  b + Z.of_nat (length ds) <= 2 * Z.of_nat (length fs) ->
  final cfg b (ds ++ fs) = 0.
Proof.
  intros Hb Hfs Hlen. rewrite final_app.
  pose proof (final_le_length cfg ds b) as Hle.
  pose proof (final_nonneg cfg ds b Hb) as Hnn.
  rewrite (final_fast_closed cfg fs Hfs _ Hnn). lia.
Qed.

Lemma fast_run_recovers_witness :
  0 <= 0 /\
  final shipped_config 0 (repeat 61%Q 6 ++ repeat 10%Q 3) = 0.
Proof.
  split; [lia |].
  apply (fast_run_recovers shipped_config 0 (repeat 61%Q 6) (repeat 10%Q 3)).
  - lia.
  - repeat constructor.
  - vm_compute. discriminate.
Defined.

(** ** What the convergence test depends on *)

Lemma sq_dev_proper (c c' : Q) (x : Z) :
  (c == c')%Q -> (sq_dev c x == sq_dev c' x)%Q.
Proof. intros E. unfold sq_dev. rewrite E. reflexivity. Qed.

Lemma Qsum_map_ext {A} (f g : A -> Q) (l : list A) :
  (forall x, In x l -> (f x == g x)%Q) ->
  (Qsum (map f l) == Qsum (map g l))%Q.
Proof.
  induction l as [| a l IH]; intros H; cbn [map Qsum fold_right].
  - reflexivity.
  - fold (Qsum (map f l)). fold (Qsum (map g l)).
    rewrite (H a (or_introl eq_refl)), IH; [reflexivity |].
    intros x Hx. apply H. right. exact Hx.
Qed.

Lemma float_sqrt_of_frac_proper (v v' : Q) :
  (v == v')%Q -> float_sqrt_of_frac v = float_sqrt_of_frac v'.
Proof.
  intros E. unfold float_sqrt_of_frac.
  rewrite (sqrt_binary64_proper v v' E). reflexivity.
Qed.

(** The test, from any fraction equal to the variance. *)
Lemma converged_of_variance (data : list Z) (limit : Z) (v : Q) :
  (2 <= length data)%nat ->
  (Qsum (map (sq_dev (mean data)) data)
   / inject_Z (Z.of_nat (length data) - 1) == v)%Q ->
  converged data limit
  = match float_sqrt_of_frac v with
    | Ok s => Ok (Qltb s (inject_Z limit))
    | Raise e => Raise e
    end.
Proof.
  intros Hn E. unfold converged, stdev. rewrite (variance_Ok data Hn).
  rewrite (float_sqrt_of_frac_proper _ _ E). reflexivity.
Qed.

Lemma Zsum_all_equal (x : Z) (data : list Z) :
  Forall (eq x) data -> Zsum data = x * Z.of_nat (length data).
Proof.
  induction 1 as [| y data <- _ IH]; cbn [Zsum fold_right length].
  - lia.
  - fold (Zsum data). rewrite IH. lia.
Qed.

(** X14: devices that all have the same unallocated space are converged
    under any positive limit, however many they are (two or more): the loop
    stops without balancing anything. *)
Theorem equal_devices_converge (x : Z) (data : list Z) (limit : Z) :
  (2 <= length data)%nat ->
  Forall (eq x) data ->
  0 < limit ->
  converged data limit = Ok true.
Proof.
  intros Hn Hall Hl.
  assert (Hmean : (mean data == inject_Z x)%Q).
  { unfold mean. rewrite (Zsum_all_equal x data Hall), inject_Z_mult.
    field. apply inject_Z_nonzero. lia. }
  rewrite (converged_of_variance data limit 0 Hn).
  - assert (H0 : float_sqrt_of_frac 0 = Ok 0%Q) by (vm_compute; reflexivity).
    rewrite H0. f_equal. apply Qltb_lt.
    change 0%Q with (inject_Z 0). rewrite <- Zlt_Qlt. exact Hl.
  - assert (Hs : (Qsum (map (sq_dev (mean data)) data)
                  == Qsum (map (fun _ => 0%Q) data))%Q).
    { apply Qsum_map_ext. intros y Hy.
      rewrite Forall_forall in Hall. rewrite <- (Hall y Hy).
      rewrite (sq_dev_proper _ _ x Hmean). unfold sq_dev. ring. }
    rewrite Hs.
    assert (Hz : (Qsum (map (fun _ : Z => 0%Q) data) == 0)%Q).
    { clear. induction data as [| y data IH]; cbn [map Qsum fold_right];
        [reflexivity |].
      fold (Qsum (map (fun _ : Z => 0%Q) data)). rewrite IH. reflexivity. }
    rewrite Hz. unfold Qdiv. ring.
Qed.

Lemma equal_devices_converge_witness :
  (2 <= length (repeat (7 * GiB)%Z 4))%nat /\
  converged (repeat (7 * GiB) 4) 1 = Ok true.
Proof.
  split; [cbn; lia |].
  apply (equal_devices_converge (7 * GiB)).
  - cbn. lia.
  - repeat constructor.
  - lia.
Defined.

Lemma variance_of_two (a b : Z) :
  (variance_of [a; b] == inject_Z ((a - b) * (a - b)) / 2)%Q.
Proof.
  unfold variance_of. rewrite variance_Ok by (cbn; lia).
  unfold mean, sq_dev.
  cbn [length map Qsum fold_right Zsum Z.of_nat Pos.of_succ_nat Pos.succ].
  change (inject_Z (2 - 1)) with 1%Q. change (inject_Z 2) with 2%Q.
  unfold Z.sub.
  rewrite !inject_Z_mult, !inject_Z_plus, !inject_Z_opp.
  change (inject_Z 0) with 0%Q. field.
Qed.

Lemma sample_stdev_two (a b : Z) :
  sample_stdev [a; b] = sqrt (IZR ((a - b) * (a - b)) / 2).
Proof.
  rewrite <- sqrt_variance_of by (cbn; lia). f_equal.
  rewrite (Qeq_eqR _ _ (variance_of_two a b)).
  unfold Qdiv. rewrite Q2R_mult, Q2R_inv by discriminate.
  rewrite Q2R_inject_Z.
  replace (Q2R 2) with 2%R by (unfold Q2R; cbn; lra). reflexivity.
Qed.

(** X15: with two devices the test is on their difference alone.  For a
    positive limit up to [2^53], the loop stops only if the square of the
    difference of their unallocated space is less than twice the square of
    the limit, and it does stop if that square is at most twice the square
    of the limit less one.  In between the rounding of the standard
    deviation decides: with 7593505862 and 0 bytes and a limit of
    5369419488 the square is less than twice the square of the limit, yet
    the float is the limit itself and the loop goes on. *)
Theorem two_devices_converged (a b limit : Z) :
  0 < limit <= 2 ^ 53 ->
  (converged [a; b] limit = Ok true ->
   (a - b) * (a - b) < 2 * (limit * limit)) /\
  ((a - b) * (a - b) <= 2 * ((limit - 1) * (limit - 1)) ->
   converged [a; b] limit = Ok true) /\
  (7593505862 - 0) * (7593505862 - 0) < 2 * (5369419488 * 5369419488) /\
  (exists s, stdev [7593505862; 0] = Ok s /\
             (s == inject_Z 5369419488)%Q) /\
  converged [7593505862; 0] 5369419488 = Ok false.
Proof.
  intros Hl.
  assert (Hn : (2 <= length [a; b])%nat) by (cbn; lia).
  destruct (converged_vs_sample_stdev [a; b] limit Hn ltac:(lia))
    as [Hlt Hle].
  rewrite sample_stdev_two in Hlt, Hle.
  set (d := (a - b) * (a - b)) in *.
  assert (Hd : (0 <= IZR d / 2)%R).
  { assert (H : 0 <= d) by apply Z.square_nonneg.
    apply IZR_le in H. lra. }
  split; [| split; [| split; [| split]]].
  - intros Hc. specialize (Hlt Hc).
    pose proof (sqrt_sqrt _ Hd) as Hsq. pose proof (sqrt_pos (IZR d / 2)) as Hp.
    assert (H : (IZR d < 2 * (IZR limit * IZR limit))%R) by nra.
    rewrite <- !mult_IZR in H. apply lt_IZR in H. exact H.
  - intros Hsmall. apply Hle.
    assert (H1 : (0 <= IZR limit - 1)%R).
    { rewrite <- minus_IZR. apply IZR_le. lia. }
    rewrite <- (sqrt_square (IZR limit - 1) H1).
    apply sqrt_le_1_alt. apply IZR_le in Hsmall.
    rewrite !mult_IZR, minus_IZR in Hsmall. lra.
  - reflexivity.
  - eexists. split; vm_compute; reflexivity.
  - vm_compute. reflexivity.
Qed.

Lemma two_devices_converged_witness :
  0 < 5 * GiB <= 2 ^ 53 /\
  (12 * GiB - 6 * GiB) * (12 * GiB - 6 * GiB)
  <= 2 * ((5 * GiB - 1) * (5 * GiB - 1)) /\
  converged [12 * GiB; 6 * GiB] (5 * GiB) = Ok true.
Proof.
  assert (Hl : 0 < 5 * GiB <= 2 ^ 53)
    by (vm_compute; split; [reflexivity | discriminate]).
  assert (Hd : (12 * GiB - 6 * GiB) * (12 * GiB - 6 * GiB)
               <= 2 * ((5 * GiB - 1) * (5 * GiB - 1)))
    by (vm_compute; discriminate).
  split; [exact Hl |]. split; [exact Hd |].
  destruct (two_devices_converged (12 * GiB) (6 * GiB) (5 * GiB) Hl)
    as (_ & H & _).
  exact (H Hd).
Defined.

Lemma Zsum_shift (c : Z) (data : list Z) :
  Zsum (map (Z.add c) data) = Zsum data + c * Z.of_nat (length data).
Proof.
  induction data as [| x data IH]; cbn [map Zsum fold_right length].
  - lia.
  - fold (Zsum (map (Z.add c) data)). fold (Zsum data). rewrite IH. lia.
Qed.

(** X16: the test depends on the differences between devices only: adding
    the same number of bytes to the unallocated space of every device
    changes neither its verdict nor the error it raises. *)
Theorem converged_shift_invariant (c : Z) (data : list Z) (limit : Z) :
  converged (map (Z.add c) data) limit = converged data limit.
Proof.
  destruct (Nat.lt_ge_cases (length data) 2) as [Hn | Hn].
  - unfold converged, stdev.
    rewrite !variance_too_few by (rewrite ?length_map; exact Hn).
    reflexivity.
  - rewrite (converged_of_variance data limit _ Hn (Qeq_refl _)).
    apply converged_of_variance; [rewrite length_map; exact Hn |].
    rewrite length_map, map_map.
    assert (Hmean : (mean (map (Z.add c) data)
                     == mean data + inject_Z c)%Q).
    { unfold mean. rewrite Zsum_shift, length_map.
      rewrite inject_Z_plus, inject_Z_mult. field.
      apply inject_Z_nonzero. lia. }
    assert (Hs : (Qsum (map (fun x => sq_dev (mean (map (Z.add c) data))
                                        (c + x)) data)
                  == Qsum (map (sq_dev (mean data)) data))%Q).
    { apply Qsum_map_ext. intros x _.
      rewrite (sq_dev_proper _ _ (c + x) Hmean). unfold sq_dev.
      rewrite inject_Z_plus. ring. }
    rewrite Hs. reflexivity.
Qed.

Lemma Qsum_permutation (l l' : list Q) :
  Permutation l l' -> (Qsum l == Qsum l')%Q.
Proof.
  induction 1 as [| x l l' _ IH | x y l | l l' l'' _ IH1 _ IH2];
    cbn [Qsum fold_right].
  - reflexivity.
  - fold (Qsum l). fold (Qsum l'). rewrite IH. reflexivity.
  - fold (Qsum l). ring.
  - rewrite IH1. exact IH2.
Qed.

Lemma Zsum_permutation (l l' : list Z) :
  Permutation l l' -> Zsum l = Zsum l'.
Proof.
  induction 1 as [| x l l' _ IH | x y l | l l' l'' _ IH1 _ IH2];
    cbn [Zsum fold_right].
  - reflexivity.
  - fold (Zsum l). fold (Zsum l'). rewrite IH. reflexivity.
  - fold (Zsum l). lia.
  - rewrite IH1. exact IH2.
Qed.

(** X17: the order in which [btrfs fi show] lists the devices does not
    matter to the test: a snapshot and any reordering of it get the same
    verdict.  (It matters to the choice of the device, on ties.) *)
Theorem converged_order_invariant (data data' : list Z) (limit : Z) :
  Permutation data data' ->
  converged data' limit = converged data limit.
Proof.
  intros Hp. pose proof (Permutation_length Hp) as Hlen.
  destruct (Nat.lt_ge_cases (length data) 2) as [Hn | Hn].
  - unfold converged, stdev.
    rewrite !variance_too_few by (rewrite <- ?Hlen; exact Hn).
    reflexivity.
  - rewrite (converged_of_variance data limit _ Hn (Qeq_refl _)).
    apply converged_of_variance; [rewrite <- Hlen; exact Hn |].
    assert (Hmean : mean data' = mean data).
    { unfold mean. rewrite (Zsum_permutation _ _ Hp), Hlen. reflexivity. }
    rewrite Hmean, <- Hlen.
    rewrite (Qsum_permutation _ _
               (Permutation_map (sq_dev (mean data)) (Permutation_sym Hp))).
    reflexivity.
Qed.

Lemma converged_order_invariant_witness :
  Permutation [100; 120; 20] [20; 100; 120] /\
  converged [20; 100; 120] 60 = converged [100; 120; 20] 60.
Proof.
  assert (Hp : Permutation [100; 120; 20] [20; 100; 120]).
  { apply Permutation_sym.
    apply (Permutation_cons_app [100; 120] [] 20). apply Permutation_refl. }
  split; [exact Hp |].
  apply (converged_order_invariant _ _ 60 Hp).
Defined.
